(** * FluidDemo: scene construction, step driver and drag perturbation

    A shallow embedding of [Demos/FluidDemo/main.cpp] of PositionBasedDynamics.

    - [Real] is a typedef of the absent [Common/Common.h] ([float] or [double],
      chosen at build time).  The embedding is therefore written over an
      interface [RealOps] of the operations the demo uses; arithmetic is taken
      at the precision of [Real].  Two implementations are given: IEEE
      binary64 (the kernel's primitive floats), which is the arithmetic of
      the build with [Real = double], and exact rationals ([Qc]), an
      idealisation without rounding.  What is said of the program is proved
      for every implementation or for binary64; where a statement also
      gives the exact-arithmetic identity (distances, sums of impulses,
      elapsed time), that part is marked as such and is not a statement
      about the floating-point program.
    - [unsigned int] and [int] are 32-bit; values are kept in [Z] with the
      wrap-around written out.
    - [std::vector<Vector3r>] is a [list], indexed with stdpp's lookup and
      insert; an access outside the vector is undefined behaviour in C++ and is
      modelled as failure ([None]).
    - The two [#pragma omp for] loop nests are modelled by the sequence of
      array writes they perform; a parallel run performs some permutation of
      the writes of the sequential run.
    - Code of the repository that is not in [main.cpp] (the fluid model, the
      solver step, the toolkit) is either a parameter or modelled from the
      specification, and marked so. *)

From Stdlib Require Import ZArith QArith Qabs Qcanon Qround Lia Permutation.
From Stdlib Require Import PrimFloat FloatOps FloatAxioms SpecFloat Uint63.
From stdpp Require Import base option list numbers.

Local Open Scope Z_scope.

(** ** The scalar type [Real] *)

Class RealOps (R : Type) := {
  rlit : Q -> R;             (* static_cast<Real>(c) for a decimal literal c *)
  rofZ : Z -> R;             (* conversion of an integer value to Real *)
  radd : R -> R -> R;
  rsub : R -> R -> R;
  rmul : R -> R -> R;
  rdiv : R -> R -> R;
  ropp : R -> R;
  rltb : R -> R -> bool;     (* a < b *)
  rtrunc : R -> option Z;    (* truncation toward zero; None when not finite *)
}.

(** ** 32-bit integers *)

Definition u32 (z : Z) : Z := z mod 2 ^ 32.
Definition uadd (a b : Z) : Z := u32 (a + b).
Definition umul (a b : Z) : Z := u32 (a * b).
Definition usub (a b : Z) : Z := u32 (a - b).

(** [(int)u] for an unsigned value [u]. *)
Definition to_int (u : Z) : Z := if u <? 2 ^ 31 then u else u - 2 ^ 32.

(** [(unsigned int)x] for a Real [x]: the value truncated toward zero; the
    conversion is undefined when that value is not representable. *)
Definition to_uint `{RealOps R} (x : R) : option Z :=
  match rtrunc x with
  | Some z => if (0 <=? z) && (z <? 2 ^ 32) then Some z else None
  | None => None
  end.

(** ** Eigen's [Vector3r] and [Vector2i] *)

Record Vector3r (R : Type) := Vec3 { vx : R; vy : R; vz : R }.
Arguments Vec3 {R} _ _ _.
Arguments vx {R} _.
Arguments vy {R} _.
Arguments vz {R} _.

Record Vector2i := Vec2 { v2x : Z; v2y : Z }.

Section VectorOps.
Context `{RealOps R}.

Definition vadd (a b : Vector3r R) : Vector3r R :=
  Vec3 (radd (vx a) (vx b)) (radd (vy a) (vy b)) (radd (vz a) (vz b)).
Definition vsub (a b : Vector3r R) : Vector3r R :=
  Vec3 (rsub (vx a) (vx b)) (rsub (vy a) (vy b)) (rsub (vz a) (vz b)).
(* s * v *)
Definition vscale (s : R) (v : Vector3r R) : Vector3r R :=
  Vec3 (rmul s (vx v)) (rmul s (vy v)) (rmul s (vz v)).
(* v / s *)
Definition vdivs (v : Vector3r R) (s : R) : Vector3r R :=
  Vec3 (rdiv (vx v) s) (rdiv (vy v) s) (rdiv (vz v) s).
Definition vzero : Vector3r R := Vec3 (rlit 0) (rlit 0) (rlit 0).
End VectorOps.

(** ** Loops and array writes *)

Section Loops.
Context {St : Type}.

Fixpoint for_each (ixs : list Z) (body : Z -> St -> option St) (s : St) : option St :=
  match ixs with
  | [] => Some s
  | i :: ixs' =>
      match body i s with
      | Some s' => for_each ixs' body s'
      | None => None
      end
  end.

(** [for (i = 0; i < n; i++) body(i)]; no iteration when [n <= 0]. *)
Definition for_ (n : Z) (body : Z -> St -> option St) (s : St) : option St :=
  for_each (seqZ 0 n) body s.
End Loops.

Section Arrays.
Context {A : Type}.

(** [arr[idx] = v] *)
Definition write (idx : Z) (v : A) (arr : list A) : option (list A) :=
  if (0 <=? idx) && (idx <? Z.of_nat (length arr))
  then Some (<[Z.to_nat idx := v]> arr) else None.

(** [arr[idx]] *)
Definition read (idx : Z) (arr : list A) : option A :=
  if 0 <=? idx then arr !! Z.to_nat idx else None.

(** [arr.resize(n)]: truncate, or extend with [fill]. *)
Definition resize_to (n : Z) (fill : A) (arr : list A) : list A :=
  resize (Z.to_nat n) fill arr.

(** A sequence of writes performed in order. *)
Fixpoint apply_writes (ws : list (Z * A)) (arr : list A) : option (list A) :=
  match ws with
  | [] => Some arr
  | (idx, v) :: ws' =>
      match write idx v arr with
      | Some arr' => apply_writes ws' arr'
      | None => None
      end
  end.

(** The writes of a three-deep loop nest whose innermost statement is
    [arr[idx i j k] = val i j k], in the order of the sequential run. *)
Definition nest_writes (n1 n2 n3 : Z) (idx : Z -> Z -> Z -> Z)
    (val : Z -> Z -> Z -> A) : list (Z * A) :=
  i ← seqZ 0 n1; j ← seqZ 0 n2; k ← seqZ 0 n3; [(idx i j k, val i j k)].
End Arrays.

(** ** The fluid model (external collaborator)

    [FluidModel] is declared in the absent [FluidModel.h]; only the state the
    demo reads and writes is kept. *)

Record FluidModel (R : Type) := mkFluidModel {
  m_particleRadius : R;
  m_x0 : list (Vector3r R);          (* positions handed to initModel *)
  m_x : list (Vector3r R);           (* ParticleData positions *)
  m_v : list (Vector3r R);           (* ParticleData velocities *)
  m_boundaryX : list (Vector3r R);
}.
Arguments mkFluidModel {R} _ _ _ _ _.
Arguments m_particleRadius {R} _.
Arguments m_x0 {R} _.
Arguments m_x {R} _.
Arguments m_v {R} _.
Arguments m_boundaryX {R} _.

Section Model.
Context `{RealOps R}.

Definition setParticleRadius (r : R) (m : FluidModel R) : FluidModel R :=
  mkFluidModel r (m_x0 m) (m_x m) (m_v m) (m_boundaryX m).

Definition getParticleRadius (m : FluidModel R) : R := m_particleRadius m.

Definition set_velocities (v : list (Vector3r R)) (m : FluidModel R) : FluidModel R :=
  mkFluidModel (m_particleRadius m) (m_x0 m) (m_x m) v (m_boundaryX m).

(** Modelled from the spec: [FluidModel::initModel] is absent; it is the
    one-time scenario load ([initScene]): the fluid positions become the
    particle positions and the scenario-build state, velocities start at
    zero, and the boundary positions are stored. *)
Definition initModel (fluid boundary : list (Vector3r R)) (m : FluidModel R)
    : FluidModel R :=
  mkFluidModel (m_particleRadius m) fluid fluid
    (replicate (length fluid) vzero) boundary.

(** Modelled from the spec: [FluidModel::reset] is absent; the solver's
    reset contract restores the state that followed the scenario load. *)
Definition model_reset (m : FluidModel R) : FluidModel R :=
  mkFluidModel (m_particleRadius m) (m_x0 m) (m_x0 m)
    (replicate (length (m_x0 m)) vzero) (m_boundaryX m).
End Model.

(** ** Scene Builder *)

Section Scene.
Context `{RealOps R}.
(** Eigen does not initialise the elements [resize] adds; [fill] stands for
    whatever they hold. *)
Variable fill : Vector3r R.

Definition particleRadius : R := rlit (25 # 1000).
Definition width : Z := 15.
Definition depth : Z := 15.
Definition height : Z := 20.
Definition containerWidth : R :=
  rmul (rmul (rofZ (uadd width 1)) particleRadius) (rlit (2 * 5)).
Definition containerDepth : R :=
  rmul (rmul (rofZ (uadd depth 1)) particleRadius) (rlit 2).
Definition containerHeight : R := rlit 4.

Definition diam : R := rmul (rlit 2) particleRadius.
Definition startX : R := radd (rmul (ropp (rlit (1 # 2))) containerWidth) diam.
Definition startY : R := diam.
Definition startZ : R := radd (rmul (ropp (rlit (1 # 2))) containerDepth) diam.

(** Position and output index of the fluid particle of lattice coordinate
    [(i, j, k)], as the innermost statement of [createBreakingDam] has them. *)
Definition fluid_position (i j k : Z) : Vector3r R :=
  vadd (vscale diam (Vec3 (rofZ i) (rofZ j) (rofZ k))) (Vec3 startX startY startZ).
Definition fluid_index (i j k : Z) : Z :=
  uadd (uadd (umul (umul (u32 i) height) depth) (umul j depth)) k.

(** The local [fluidParticles] of [createBreakingDam] after the loop nest
    (sequential run).  The unused local [yshift] is left out. *)
Definition fluidParticles : option (list (Vector3r R)) :=
  let arr := resize_to (umul (umul width height) depth) fill [] in
  for_ (to_int width) (fun i =>
    for_ height (fun j =>
      for_ depth (fun k =>
        write (fluid_index i j k) (fluid_position i j k)))) arr.

(** The writes of that loop nest, in sequential order. *)
Definition fluid_writes : list (Z * Vector3r R) :=
  nest_writes (to_int width) height depth fluid_index fluid_position.

(** A run of the loop nest under [omp for]: the outer iterations are
    distributed over threads, so the writes happen in some permutation
    [ws] of the sequential order. *)
Definition fluidParticles_parallel (ws : list (Z * Vector3r R))
    : option (list (Vector3r R)) :=
  apply_writes ws (resize_to (umul (umul width height) depth) fill []).

Definition wall_position (minX : Vector3r R) (particleDistance : R) (j k l : Z)
    : Vector3r R :=
  vadd minX (Vec3 (rmul (rofZ j) particleDistance)
                  (rmul (rofZ k) particleDistance)
                  (rmul (rofZ l) particleDistance)).
Definition wall_index (startIndex stepsY stepsZ j k l : Z) : Z :=
  uadd (uadd (uadd startIndex (umul (umul (u32 j) stepsY) stepsZ)) (umul k stepsZ)) l.

(** The three step counts of [addWall]. *)
Definition wall_steps (m : FluidModel R) (minX maxX : Vector3r R)
    : option (Z * Z * Z) :=
  let particleDistance := rmul (rlit 2) (getParticleRadius m) in
  let diff := vsub maxX minX in
  qx ← to_uint (rdiv (vx diff) particleDistance);
  qy ← to_uint (rdiv (vy diff) particleDistance);
  qz ← to_uint (rdiv (vz diff) particleDistance);
  Some (uadd qx 1, uadd qy 1, uadd qz 1).

(** [addWall], sequential run of its loop nest. *)
Definition addWall (m : FluidModel R) (minX maxX : Vector3r R)
    (boundaryParticles : list (Vector3r R)) : option (list (Vector3r R)) :=
  let particleDistance := rmul (rlit 2) (getParticleRadius m) in
  '(stepsX, stepsY, stepsZ) ← wall_steps m minX maxX;
  let startIndex := u32 (Z.of_nat (length boundaryParticles)) in
  let arr := resize_to (uadd startIndex (umul (umul stepsX stepsY) stepsZ))
               fill boundaryParticles in
  for_ (to_int stepsX) (fun j =>
    for_ stepsY (fun k =>
      for_ stepsZ (fun l =>
        write (wall_index startIndex stepsY stepsZ j k l)
              (wall_position minX particleDistance j k l)))) arr.

(** The indices [addWall] writes, in sequential order. *)
Definition wall_written (m : FluidModel R) (minX maxX : Vector3r R)
    (boundaryParticles : list (Vector3r R)) : option (list Z) :=
  '(stepsX, stepsY, stepsZ) ← wall_steps m minX maxX;
  let startIndex := u32 (Z.of_nat (length boundaryParticles)) in
  Some ((nest_writes (to_int stepsX) stepsY stepsZ
           (wall_index startIndex stepsY stepsZ)
           (wall_position minX (rmul (rlit 2) (getParticleRadius m)))).*1).

(** The locals [x1], [x2], [y1], [y2], [z1], [z2] of [initBoundaryData]:
    the faces of the container.  (Its local [diam] is unused.) *)
Definition wall_x1 : R := rdiv (ropp containerWidth) (rlit 2).
Definition wall_x2 : R := rdiv containerWidth (rlit 2).
Definition wall_y1 : R := rlit 0.
Definition wall_y2 : R := containerHeight.
Definition wall_z1 : R := rdiv (ropp containerDepth) (rlit 2).
Definition wall_z2 : R := rdiv containerDepth (rlit 2).

(** The six walls of [initBoundaryData] as (min corner, max corner), in call
    order: floor, top, left, right, back, front. *)
Definition walls : list (Vector3r R * Vector3r R) :=
  let x1 := wall_x1 in
  let x2 := wall_x2 in
  let y1 := wall_y1 in
  let y2 := wall_y2 in
  let z1 := wall_z1 in
  let z2 := wall_z2 in
  [ (Vec3 x1 y1 z1, Vec3 x2 y1 z2);
    (Vec3 x1 y2 z1, Vec3 x2 y2 z2);
    (Vec3 x1 y1 z1, Vec3 x1 y2 z2);
    (Vec3 x2 y1 z1, Vec3 x2 y2 z2);
    (Vec3 x1 y1 z1, Vec3 x2 y2 z1);
    (Vec3 x1 y1 z2, Vec3 x2 y2 z2) ].

Definition initBoundaryData (m : FluidModel R)
    (boundaryParticles : list (Vector3r R)) : option (list (Vector3r R)) :=
  foldl (fun acc w => bp ← acc; addWall m w.1 w.2 bp) (Some boundaryParticles) walls.

Definition createBreakingDam (m : FluidModel R) : option (FluidModel R) :=
  fp ← fluidParticles;
  let m := setParticleRadius particleRadius m in
  bp ← initBoundaryData m [];
  Some (initModel fp bp m).
End Scene.

(** ** Simulation clock, step driver, selection and perturbation *)

Inductive MouseHandler := MouseMove.

(** The calls the step driver makes to its collaborators. *)
Inductive Event := SimStep | BaseStep.

#[export] Instance Event_eq_dec : EqDecision Event.
Proof. solve_decision. Defined.

(** The globals of [main.cpp] together with the state of [TimeManager]
    ([time], [timeStepSize]) and the [DemoBase] parameters the demo reads.
    [calls] is a ghost log of the collaborator calls made so far, most recent
    first. *)
Record Demo (R : Type) := mkDemo {
  model : FluidModel R;
  time : R;
  timeStepSize : R;
  PAUSE : bool;
  PAUSE_AT : R;
  NUM_STEPS_PER_RENDER : Z;
  selectedParticles : list Z;
  oldMousePos : Vector3r R;
  mouseMoveFunc : Z * option MouseHandler;
  calls : list Event;
}.
Arguments mkDemo {R} _ _ _ _ _ _ _ _ _ _.
Arguments model {R} _.
Arguments time {R} _.
Arguments timeStepSize {R} _.
Arguments PAUSE {R} _.
Arguments PAUSE_AT {R} _.
Arguments NUM_STEPS_PER_RENDER {R} _.
Arguments selectedParticles {R} _.
Arguments oldMousePos {R} _.
Arguments mouseMoveFunc {R} _.
Arguments calls {R} _.

(** Modelled from the spec: [MiniGL::unproject] is absent; it "may fail or
    return invalid for out-of-frustum input".  Its C++ signature returns
    nothing and reports through its third argument, so the outcome of a call
    is what that argument holds afterwards ([up_pos]) together with whether
    the call was valid ([up_valid]), which no caller can observe. *)
Record Unprojected (R : Type) := mkUnprojected {
  up_pos : Vector3r R;
  up_valid : bool;
}.
Arguments mkUnprojected {R} _ _.
Arguments up_pos {R} _.
Arguments up_valid {R} _.

Section Driver.
Context `{RealOps R}.
Variable fill : Vector3r R.
(** The collaborators: the solver's advance of the particle state by one
    step of size [h], the toolkit's [MiniGL::unproject] and
    [Selection::selectRect]. *)
Variable solver_advance : R -> FluidModel R -> FluidModel R.
Variable unproject : Z -> Z -> Unprojected R.
Variable selectRect : Vector2i -> Vector2i -> list (Vector3r R) -> list Z.

Definition set_model (m : FluidModel R) (st : Demo R) : Demo R :=
  mkDemo m (time st) (timeStepSize st) (PAUSE st) (PAUSE_AT st)
    (NUM_STEPS_PER_RENDER st) (selectedParticles st) (oldMousePos st)
    (mouseMoveFunc st) (calls st).
Definition setTime (t : R) (st : Demo R) : Demo R :=
  mkDemo (model st) t (timeStepSize st) (PAUSE st) (PAUSE_AT st)
    (NUM_STEPS_PER_RENDER st) (selectedParticles st) (oldMousePos st)
    (mouseMoveFunc st) (calls st).
Definition setTimeStepSize (h : R) (st : Demo R) : Demo R :=
  mkDemo (model st) (time st) h (PAUSE st) (PAUSE_AT st)
    (NUM_STEPS_PER_RENDER st) (selectedParticles st) (oldMousePos st)
    (mouseMoveFunc st) (calls st).
Definition set_PAUSE (b : bool) (st : Demo R) : Demo R :=
  mkDemo (model st) (time st) (timeStepSize st) b (PAUSE_AT st)
    (NUM_STEPS_PER_RENDER st) (selectedParticles st) (oldMousePos st)
    (mouseMoveFunc st) (calls st).
Definition set_selectedParticles (sel : list Z) (st : Demo R) : Demo R :=
  mkDemo (model st) (time st) (timeStepSize st) (PAUSE st) (PAUSE_AT st)
    (NUM_STEPS_PER_RENDER st) sel (oldMousePos st)
    (mouseMoveFunc st) (calls st).
Definition set_oldMousePos (p : Vector3r R) (st : Demo R) : Demo R :=
  mkDemo (model st) (time st) (timeStepSize st) (PAUSE st) (PAUSE_AT st)
    (NUM_STEPS_PER_RENDER st) (selectedParticles st) p
    (mouseMoveFunc st) (calls st).
Definition setMouseMoveFunc (button : Z) (f : option MouseHandler) (st : Demo R)
    : Demo R :=
  mkDemo (model st) (time st) (timeStepSize st) (PAUSE st) (PAUSE_AT st)
    (NUM_STEPS_PER_RENDER st) (selectedParticles st) (oldMousePos st)
    (button, f) (calls st).
Definition log (e : Event) (st : Demo R) : Demo R :=
  mkDemo (model st) (time st) (timeStepSize st) (PAUSE st) (PAUSE_AT st)
    (NUM_STEPS_PER_RENDER st) (selectedParticles st) (oldMousePos st)
    (mouseMoveFunc st) (e :: calls st).

(** Modelled from the spec: [TimeStepFluidModel::step] is absent; one
    solver advance of the particle state, followed by one clock advance by
    exactly the step size. *)
Definition simulation_step (st : Demo R) : Demo R :=
  let h := timeStepSize st in
  let st := set_model (solver_advance h (model st)) st in
  let st := setTime (radd (time st) h) st in
  log SimStep st.

(** Modelled from the spec: [DemoBase::step] is absent; post-step
    bookkeeping that leaves the state kept here alone. *)
Definition base_step (st : Demo R) : Demo R := log BaseStep st.

(** [Timing::printAverageTimes], [Timing::reset] and
    [TimeStepFluidModel::reset] act on state that is not kept here. *)
Definition reset (st : Demo R) : Demo R :=
  let st := set_model (model_reset (model st)) st in
  setTime (rlit 0) st.

(** The loop visits [selectedParticles[0]], [selectedParticles[1]], ... in
    order; [pd.getVelocity(p) += 5.0*diff/h] reads and writes cell [p] of the
    velocities. *)
Definition mouseMove (x y : Z) (st : Demo R) : option (Demo R) :=
  let mousePos := up_pos (unproject x y) in
  let diff := vsub mousePos (oldMousePos st) in
  let h := timeStepSize st in
  vel ← for_each (selectedParticles st) (fun p vel =>
           v ← read p vel;
           write p (vadd v (vdivs (vscale (rlit 5) diff) h)) vel)
         (m_v (model st));
  let st := set_model (set_velocities vel (model st)) st in
  Some (set_oldMousePos mousePos st).

(** [selectRect] is handed the addresses of the first and the last
    position, which are two reads of the position array. *)
Definition selection (start end_ : Vector2i) (st : Demo R) : option (Demo R) :=
  let st := set_selectedParticles [] st in
  let pd := m_x (model st) in
  _ ← read 0 pd;
  _ ← read (usub (u32 (Z.of_nat (length pd))) 1) pd;
  let st := set_selectedParticles (selectRect start end_ pd) st in
  let st := if 0 <? Z.of_nat (length (selectedParticles st))
            then setMouseMoveFunc 2 (Some MouseMove) st
            else setMouseMoveFunc (-1) None st in
  Some (set_oldMousePos (up_pos (unproject (v2x end_) (v2y end_))) st).

(** The render-tick callback.  The timing macros are left out. *)
Definition timeStep (st : Demo R) : Demo R :=
  let pauseAt := PAUSE_AT st in
  let st := if rltb (rlit 0) pauseAt && rltb pauseAt (time st)
            then set_PAUSE true st else st in
  if PAUSE st then st
  else
    let numSteps := NUM_STEPS_PER_RENDER st in
    foldl (fun st _ => base_step (simulation_step st)) st (seqZ 0 numSteps).

Definition buildModel (st : Demo R) : option (Demo R) :=
  let st := setTimeStepSize (rlit (25 # 10000)) st in
  m ← createBreakingDam fill (model st);
  Some (set_model m st).

(** [n] render ticks in a row. *)
Definition ticks (n : nat) (st : Demo R) : Demo R := Nat.iter n timeStep st.
End Driver.

(** ** Implementations of [Real] *)

(** Exact rational arithmetic: an idealisation of [Real], not the
    arithmetic of the program.  It has no rounding, no infinities and no
    NaN, and division by zero yields 0; statements at this instance say what
    the formulas of the code mean, and statements about the program are made
    for every implementation or for binary64. *)
#[export] Instance Qc_RealOps : RealOps Qc := {|
  rlit q := Q2Qc q;
  rofZ := Qc_of_Z;
  radd := Qcplus;
  rsub := Qcminus;
  rmul := Qcmult;
  rdiv := Qcdiv;
  ropp := Qcopp;
  rltb a b := match Qccompare a b with Lt => true | _ => false end;
  rtrunc q := Some (Z.quot (Qnum (this q)) (Z.pos (Qden (this q))));
|}.

(** IEEE 754 binary64 (the build with [Real = double]), round to nearest
    even.  Integers below 2^53 in magnitude convert exactly, and a literal
    [n/d] with such [n] and [d] is the correctly rounded quotient. *)
Definition b64_of_Z (z : Z) : float :=
  if z <? 0 then PrimFloat.opp (PrimFloat.of_uint63 (Uint63.of_Z (- z)))
  else PrimFloat.of_uint63 (Uint63.of_Z z).

Definition b64_trunc (f : float) : option Z :=
  match Prim2SF f with
  | S754_zero _ => Some 0
  | S754_finite s m e =>
      let a := if 0 <=? e then Z.pos m * 2 ^ e else Z.pos m / 2 ^ (- e) in
      Some (if s then - a else a)
  | S754_infinity _ | S754_nan => None
  end.

#[export] Instance Binary64_RealOps : RealOps float := {|
  rlit q := PrimFloat.div (b64_of_Z (Qnum q)) (b64_of_Z (Z.pos (Qden q)));
  rofZ := b64_of_Z;
  radd := PrimFloat.add;
  rsub := PrimFloat.sub;
  rmul := PrimFloat.mul;
  rdiv := PrimFloat.div;
  ropp := PrimFloat.opp;
  rltb := PrimFloat.ltb;
  rtrunc := b64_trunc;
|}.

(** The exact rational value of a finite binary64 number. *)
Definition b64_exact (f : float) : option Q :=
  match Prim2SF f with
  | S754_zero _ => Some 0%Q
  | S754_finite s m e =>
      let a := (inject_Z (Z.pos m) * Qpower 2 e)%Q in
      Some (if s then (- a)%Q else a)
  | S754_infinity _ | S754_nan => None
  end.

(** Both numbers are finite and the exact difference [a - b] is within
    [eps] of [d]. *)
Definition b64_gap_within (eps d : Q) (a b : float) : Prop :=
  ∃ qa qb, b64_exact a = Some qa ∧ b64_exact b = Some qb ∧
           (Qabs (qa - qb - d) <= eps)%Q.

(** A floating-point datum is NaN or has sign [s]. *)
Definition sf_sign_is (s : bool) (f : spec_float) : Prop :=
  match f with
  | S754_nan => True
  | S754_zero s' | S754_infinity s' | S754_finite s' _ _ => s' = s
  end.

(** 2^-52, the spacing of binary64 numbers between 1 and 2. *)
Definition b64_ulp1 : Q := 1 # 4503599627370496.

(** ** Auxiliary definitions used in the statements below *)

Section Auxiliary.
Context `{RealOps R}.
Variable solver_advance : R -> FluidModel R -> FluidModel R.

(** One fixed step: the solver call followed by the bookkeeping call. *)
Definition one_step (st : Demo R) : Demo R :=
  base_step (simulation_step solver_advance st).

(** The number of solver calls in a log. *)
Definition sim_steps (l : list Event) : nat :=
  length (filter (λ e, e = SimStep) l).

(** Number of lattice points for step counts [(stepsX, stepsY, stepsZ)]. *)
Definition steps_product (s : Z * Z * Z) : Z := s.1.1 * s.1.2 * s.2.

(** The total number of lattice points of a list of step counts. *)
Definition total_points (steps : list (Z * Z * Z)) : Z :=
  foldr (λ s acc, steps_product s + acc) 0 steps.

(** The step counts of the six walls of the built scenario. *)
Definition scenario_steps : list (Z * Z * Z) :=
  [ (81, 1, 17); (81, 1, 17); (1, 81, 17); (1, 81, 17); (81, 81, 1); (81, 81, 1) ].

(** The loop of [mouseMove] over the selection. *)
Definition bump_loop (sel : list Z) (imp : Vector3r R) (vel : list (Vector3r R))
    : option (list (Vector3r R)) :=
  for_each sel (λ p vel, v ← read p vel; write p (vadd v imp) vel) vel.

(** Its effect when no index repeats: every selected velocity gets [imp]. *)
Definition bumped (sel : list Z) (imp : Vector3r R) (vel : list (Vector3r R))
    : list (Vector3r R) :=
  imap (λ n v, if decide (Z.of_nat n ∈ sel) then vadd v imp else v) vel.

(** The impulse of a drag update to position [pos]. *)
Definition impulse (st : Demo R) (pos : Vector3r R) : Vector3r R :=
  vdivs (vscale (rlit 5) (vsub pos (oldMousePos st))) (timeStepSize st).

(** A solver that leaves the particles alone. *)
Definition idle_solver (h : R) (m : FluidModel R) : FluidModel R := m.

(** A demo with the given particles at rest, clock at [t], step size 0.0025,
    pause-at threshold 1.0 and [k] steps per render tick. *)
Definition demo_at (t : R) (paused : bool) (k : Z)
    (x : list (Vector3r R)) (sel : list Z) : Demo R :=
  mkDemo (mkFluidModel particleRadius x x (replicate (length x) vzero) [])
    t (rlit (25 # 10000)) paused (rlit 1) k sel vzero (2, Some MouseMove) [].

(** A toy toolkit: the cursor (x, y) unprojects to the point (x, y, 0), and
    the call is valid inside an 800 x 600 viewport. *)
Definition flat_unproject (x y : Z) : Unprojected R :=
  mkUnprojected (Vec3 (rofZ x) (rofZ y) (rlit 0))
    ((0 <=? x) && (x <? 800) && (0 <=? y) && (y <? 600)).

(** Another toy toolkit: the cursor (x, y) unprojects to (x/10, y/10, 0). *)
Definition tenth_unproject (x y : Z) : Unprojected R :=
  mkUnprojected (Vec3 (rdiv (rofZ x) (rlit 10)) (rdiv (rofZ y) (rlit 10)) (rlit 0))
    true.

(** Two particles at rest at the origin, the second one selected. *)
Definition two_particles : Demo R :=
  demo_at (rlit 0) true 1 [vzero; vzero] [1].
End Auxiliary.

(** ** Further definitions: parallel wall fill, lattice decoding, rendering *)

Section Further.
Context `{RealOps R}.
Variable fill : Vector3r R.

(** The writes of the loop nest of [addWall], in sequential order. *)
Definition wall_writes (m : FluidModel R) (minX maxX : Vector3r R)
    (boundaryParticles : list (Vector3r R)) : option (list (Z * Vector3r R)) :=
  '(stepsX, stepsY, stepsZ) ← wall_steps m minX maxX;
  let startIndex := u32 (Z.of_nat (length boundaryParticles)) in
  Some (nest_writes (to_int stepsX) stepsY stepsZ
          (wall_index startIndex stepsY stepsZ)
          (wall_position minX (rmul (rlit 2) (getParticleRadius m)))).

(** A run of [addWall] under [omp for]: the resize, then the writes in
    some order [ws]. *)
Definition addWall_parallel (m : FluidModel R) (minX maxX : Vector3r R)
    (boundaryParticles : list (Vector3r R)) (ws : list (Z * Vector3r R))
    : option (list (Vector3r R)) :=
  '(stepsX, stepsY, stepsZ) ← wall_steps m minX maxX;
  let startIndex := u32 (Z.of_nat (length boundaryParticles)) in
  apply_writes ws
    (resize_to (uadd startIndex (umul (umul stepsX stepsY) stepsZ))
       fill boundaryParticles).

(** The positions of one wall with step counts [s], in the order of the
    sequential loop nest of [addWall]. *)
Definition wall_points (m : FluidModel R) (minX : Vector3r R) (s : Z * Z * Z)
    : list (Vector3r R) :=
  j ← seqZ 0 s.1.1; k ← seqZ 0 s.1.2; l ← seqZ 0 s.2;
  [wall_position minX (rmul (rlit 2) (getParticleRadius m)) j k l].

(** [std::min(a, b)]: [b] when [b < a], else [a]. *)
Definition rmin (a b : R) : R := if rltb b a then b else a.

(** The colour intensity [render] derives from a particle's speed, the
    support radius and the step size: the last value of [v] in its loop.
    The literal [0.4*2.0] is the constant 0.8. *)
Definition shade (speed supportRadius h : R) : R :=
  let vmax := rdiv (rmul (rlit (8 # 10)) supportRadius) h in
  let vmin := rlit 0 in
  let v := rmul (rlit (1 # 2)) (rdiv (rsub speed vmin) (rsub vmax vmin)) in
  rmin (rmul (rmul (rlit 128) v) v) (rlit (1 # 2)).
End Further.

(** The colour of a sphere: [hsvToRgb(0.55f, 1.0f, 0.5f + (float)v)] for a
    fluid particle, kept as the intensity [v] it is computed from, or the
    constant red of the highlight. *)
Inductive Colour (R : Type) := FluidShade (v : R) | Red.
Arguments FluidShade {R} _.
Arguments Red {R}.

(** A [MiniGL::drawSphere] call. *)
Record DrawSphere (R : Type) := mkDraw {
  ds_pos : Vector3r R;
  ds_radius : R;
  ds_colour : Colour R;
}.
Arguments mkDraw {R} _ _ _.
Arguments ds_pos {R} _.
Arguments ds_radius {R} _.
Arguments ds_colour {R} _.

Section Render.
Context `{RealOps R}.
(** Eigen's [norm()] and the absent [FluidModel::getSupportRadius]. *)
Variable norm : Vector3r R -> R.
Variable getSupportRadius : FluidModel R -> R.

(** The sphere [render] draws for fluid particle [i]. *)
Definition fluid_sphere (st : Demo R) (pos vel : Vector3r R) : DrawSphere R :=
  mkDraw pos particleRadius
    (FluidShade (shade (norm vel) (getSupportRadius (model st)) (timeStepSize st))).

(** The highlight sphere of a selected particle. *)
Definition highlight_sphere (pos : Vector3r R) : DrawSphere R :=
  mkDraw pos (rlit (8 # 100)) Red.

(** [render]: the [drawSphere] calls it makes, in order.  The highlight
    radius [0.08f] is kept as the literal 0.08; [base->render()] draws
    nothing that is kept here. *)
Definition render (st : Demo R) : option (list (DrawSphere R)) :=
  let pd := model st in
  let nParticles := u32 (Z.of_nat (length (m_x pd))) in
  draws ← for_ nParticles (fun i out =>
             vel ← read i (m_v pd);
             pos ← read i (m_x pd);
             Some (out ++ [fluid_sphere st pos vel])) [];
  for_each (selectedParticles st) (fun p out =>
    pos ← read p (m_x pd);
    Some (out ++ [highlight_sphere pos])) draws.

(** The sphere one iteration of each of its two loops draws. *)
Definition fluid_draw (st : Demo R) (i : Z) : option (DrawSphere R) :=
  vel ← read i (m_v (model st));
  pos ← read i (m_x (model st));
  Some (fluid_sphere st pos vel).

Definition highlight_draw (st : Demo R) (p : Z) : option (DrawSphere R) :=
  pos ← read p (m_x (model st)); Some (highlight_sphere pos).
End Render.

(** How often particle [n] occurs in a selection. *)
Definition occurrences (sel : list Z) (n : nat) : nat :=
  length (filter (λ p, p = Z.of_nat n) sel).

(** The effect of the loop of [mouseMove] for any selection inside the
    array: velocity [n] gets the impulse once per occurrence of [n]. *)
Definition bumped_each `{RealOps R} (sel : list Z) (imp : Vector3r R)
    (vel : list (Vector3r R)) : list (Vector3r R) :=
  imap (λ n v, Nat.iter (occurrences sel n) (λ v, vadd v imp) v) vel.

(** A toy picker: every particle of the range it is handed is hit. *)
Definition pick_all {R : Type} (start end_ : Vector2i) (pd : list (Vector3r R))
    : list Z :=
  seqZ 0 (Z.of_nat (length pd)).

(** Reading the lattice cell back from a position: the rank of a
    coordinate among the grid coordinates of its axis is the number of them
    that lie strictly below it. *)
Section Rank.
Context `{RealOps R}.

Definition axis_rank (coords : list R) (c : R) : Z :=
  Z.of_nat (length (filter (λ g, rltb g c = true) coords)).

Definition fluid_rank (p : Vector3r R) : Z * Z * Z :=
  (axis_rank ((λ i, vx (fluid_position i 0 0)) <$> seqZ 0 width) (vx p),
   axis_rank ((λ j, vy (fluid_position 0 j 0)) <$> seqZ 0 height) (vy p),
   axis_rank ((λ k, vz (fluid_position 0 0 k)) <$> seqZ 0 depth) (vz p)).

Definition fluid_rank_index (p : Vector3r R) : Z :=
  let '(i, j, k) := fluid_rank p in i * height * depth + j * depth + k.
End Rank.

(** Whether [p] lies in the box spanned by [lo] and [hi]. *)
Definition in_box (lo hi p : Vector3r Qc) : Prop :=
  (vx lo ≤ vx p ≤ vx hi)%Qc ∧ (vy lo ≤ vy p ≤ vy hi)%Qc ∧ (vz lo ≤ vz p ≤ vz hi)%Qc.

(** * Properties *)

(** ** 32-bit arithmetic *)

Lemma u32_small z : 0 ≤ z < 2 ^ 32 → u32 z = z.
Proof. intros. unfold u32. by rewrite Z.mod_small. Qed.

Lemma u32_range z : 0 ≤ u32 z < 2 ^ 32.
Proof. unfold u32. apply Z.mod_pos_bound. lia. Qed.

Lemma to_int_small z : 0 ≤ z < 2 ^ 31 → to_int z = z.
Proof. intros. unfold to_int. case_match; lia. Qed.

Lemma to_int_big z : 2 ^ 31 ≤ z < 2 ^ 32 → to_int z < 0.
Proof. intros. unfold to_int. case_match; lia. Qed.

Lemma to_uint_range `{RealOps R} (x : R) z : to_uint x = Some z → 0 ≤ z < 2 ^ 32.
Proof.
  unfold to_uint. destruct (rtrunc x) as [t|]; [|done].
  destruct (0 <=? t) eqn:E1, (t <? 2 ^ 32) eqn:E2; simpl; intros [= <-]; lia.
Qed.

(** ** Loops as write sequences *)

Lemma fmap_list_bind {A B C} (f : B → C) (g : A → list B) (l : list A) :
  f <$> (l ≫= g) = l ≫= λ x, f <$> g x.
Proof. induction l as [|x l IH]; csimpl; [done|]. by rewrite fmap_app, IH. Qed.

Lemma list_bind_ext_in {A B} (f g : A → list B) (l : list A) :
  (∀ x, x ∈ l → f x = g x) → l ≫= f = l ≫= g.
Proof. intros Hfg. apply Forall_bind_ext, list.Forall_forall, Hfg. Qed.

Lemma length_bind_const {A B} (f : A → list B) (c : nat) (l : list A) :
  (∀ x, length (f x) = c) → length (l ≫= f) = (length l * c)%nat.
Proof.
  intros Hc. induction l as [|x l IH]; csimpl; [done|].
  by rewrite length_app, Hc, IH.
Qed.

Lemma seqZ_bind_singleton a n : (seqZ 0 n ≫= λ k, [a + k]) = seqZ a n.
Proof.
  replace (seqZ a n) with (seqZ (a + 0) n) by (f_equal; lia).
  rewrite <- (fmap_add_seqZ a 0 n).
  induction (seqZ 0 n) as [|x l IHl]; csimpl; [done|]. by f_equal.
Qed.

Section LoopFacts.
Context {A : Type}.
Implicit Types (arr : list A) (ws : list (Z * A)).

Lemma write_Some idx v arr arr' :
  write idx v arr = Some arr' ↔
  0 ≤ idx < Z.of_nat (length arr) ∧ arr' = <[Z.to_nat idx := v]> arr.
Proof.
  unfold write. destruct (0 <=? idx) eqn:E1, (idx <? Z.of_nat (length arr)) eqn:E2;
    simpl; split; try (intros [= <-]); try (intros [? ->]); try done; try lia.
  split; [lia | done].
Qed.

Lemma write_in_range idx v arr :
  0 ≤ idx < Z.of_nat (length arr) → write idx v arr = Some (<[Z.to_nat idx := v]> arr).
Proof. intros. by apply write_Some. Qed.

Lemma write_length idx v arr arr' :
  write idx v arr = Some arr' → length arr' = length arr.
Proof. rewrite write_Some. intros [_ ->]. apply length_insert. Qed.

Lemma write_None idx v arr :
  write idx v arr = None ↔ ¬ (0 ≤ idx < Z.of_nat (length arr)).
Proof.
  unfold write. destruct (0 <=? idx) eqn:E1, (idx <? Z.of_nat (length arr)) eqn:E2;
    simpl; split; try done; try lia.
Qed.

Lemma apply_writes_app ws1 ws2 arr :
  apply_writes (ws1 ++ ws2) arr = apply_writes ws1 arr ≫= apply_writes ws2.
Proof.
  revert arr. induction ws1 as [|[idx v] ws1 IH]; intros arr; simpl; [done|].
  destruct (write idx v arr); simpl; [apply IH | done].
Qed.

Lemma apply_writes_length ws arr arr' :
  apply_writes ws arr = Some arr' → length arr' = length arr.
Proof.
  revert arr. induction ws as [|[idx v] ws IH]; intros arr; simpl.
  - by intros [= <-].
  - destruct (write idx v arr) as [a|] eqn:E; [|done].
    intros Ha. rewrite (IH _ Ha). by eapply write_length.
Qed.

Lemma for_each_writes (g : Z → list (Z * A)) (body : Z → list A → option (list A)) ixs arr :
  (∀ i a, body i a = apply_writes (g i) a) →
  for_each ixs body arr = apply_writes (ixs ≫= g) arr.
Proof.
  intros Hb. revert arr. induction ixs as [|i ixs IH]; intros arr; simpl; [done|].
  rewrite apply_writes_app, Hb.
  destruct (apply_writes (g i) arr); simpl; [apply IH | done].
Qed.

(** The loop nest performs exactly the writes of [nest_writes], in order. *)
Lemma nest_run_writes n1 n2 n3 idx (val : Z → Z → Z → A) arr :
  for_ n1 (λ i, for_ n2 (λ j, for_ n3 (λ k, write (idx i j k) (val i j k)))) arr
  = apply_writes (nest_writes n1 n2 n3 idx val) arr.
Proof.
  unfold nest_writes, for_.
  apply for_each_writes. intros i a.
  apply for_each_writes. intros j a'.
  apply for_each_writes. intros k a''. simpl.
  by destruct (write _ _ _).
Qed.

(** Two writes to different cells commute, so any reordering of a write
    sequence without repeated indices has the same effect. *)
Lemma apply_writes_perm ws ws' arr :
  ws ≡ₚ ws' → NoDup ws.*1 → apply_writes ws arr = apply_writes ws' arr.
Proof.
  intros Hp. revert arr. induction Hp as [|[i v] ws ws' Hp IH|[i v] [j w] ws|ws1 ws2 ws3 Hp1 IH1 Hp2 IH2];
    intros arr Hnd.
  - done.
  - simpl. destruct (write i v arr); [|done]. apply IH.
    by apply list.NoDup_cons in Hnd as [_ ?].
  - simpl in *. apply list.NoDup_cons in Hnd as [Hj Hnd].
    assert (j ≠ i) as Hne by (intros ->; apply Hj; left).
    destruct (write j w arr) as [a1|] eqn:E1, (write i v arr) as [a2|] eqn:E2.
    + apply write_Some in E1 as [? ->], E2 as [? ->].
      rewrite !write_in_range by (rewrite length_insert; lia).
      rewrite list_insert_insert_ne; [done | lia].
    + apply write_Some in E1 as [? ->]. apply write_None in E2.
      replace (write i v (<[Z.to_nat j:=w]> arr)) with (@None (list A)); [done|].
      symmetry. apply write_None. by rewrite length_insert.
    + apply write_Some in E2 as [? ->]. apply write_None in E1.
      replace (write j w (<[Z.to_nat i:=v]> arr)) with (@None (list A)); [done|].
      symmetry. apply write_None. by rewrite length_insert.
    + done.
  - rewrite IH1 by done. apply IH2. by rewrite <- Hp1.
Qed.

(** A run of writes to consecutive cells [base], [base+1], ... replaces that
    block of the array by the written values. *)
Lemma apply_writes_block ws base arr :
  ws.*1 = seqZ base (Z.of_nat (length ws)) → 0 ≤ base →
  base + Z.of_nat (length ws) ≤ Z.of_nat (length arr) →
  apply_writes ws arr =
    Some (take (Z.to_nat base) arr ++ ws.*2 ++ drop (Z.to_nat base + length ws) arr).
Proof.
  revert base arr. induction ws as [|[i v] ws IH]; intros base arr Hi Hb Hlen; simpl in *.
  - by rewrite Nat.add_0_r, take_drop.
  - rewrite seqZ_cons in Hi by lia. injection Hi as -> Hi.
    destruct (write base v arr) as [a1|] eqn:E1.
    2:{ apply write_None in E1. lia. }
    apply write_Some in E1 as [? ->].
    rewrite (IH (Z.succ base));
      [|etrans; [exact Hi|f_equal; lia]|lia|rewrite length_insert; lia].
    f_equal. rewrite Z2Nat.inj_succ by lia.
    rewrite (take_S_r _ _ v) by (apply list_lookup_insert_eq; lia).
    rewrite take_insert_ge by lia.
    rewrite drop_insert_lt by lia.
    rewrite <- app_assoc. simpl. do 3 f_equal.
    f_equal. lia.
Qed.

Lemma apply_writes_fresh ws n fill :
  ws.*1 = seqZ 0 (Z.of_nat (length ws)) → Z.to_nat n = length ws →
  apply_writes ws (resize_to n fill []) = Some ws.*2.
Proof.
  intros Hi Hn. unfold resize_to. rewrite Hn.
  rewrite (apply_writes_block _ 0); [|done|done|by rewrite length_resize].
  rewrite Nat.add_0_l, drop_ge by (by rewrite length_resize).
  change (Z.to_nat 0) with 0%nat. by rewrite take_0, app_nil_r.
Qed.

(** Row-major numbering: when the index expression of a loop nest is
    [base + i*n2*n3 + j*n3 + k], the cells are written in increasing order
    without gaps. *)
Lemma seqZ_bind_block a n m :
  0 ≤ m → (seqZ 0 n ≫= λ i, seqZ (a + i * m) m) = seqZ a (n * m).
Proof.
  intros Hm. destruct (Z_lt_le_dec n 0) as [Hn|Hn].
  { rewrite !seqZ_nil by nia. done. }
  revert n Hn. apply natlike_ind.
  - by rewrite !seqZ_nil by lia.
  - intros n Hn IH. replace (Z.succ n) with (n + 1) by lia.
    rewrite seqZ_app, bind_app, IH by lia.
    replace ((n + 1) * m) with (n * m + m) by lia.
    rewrite (seqZ_app a) by nia. f_equal.
    rewrite seqZ_cons, seqZ_nil by lia. simpl. by rewrite app_nil_r.
Qed.

Lemma nest_writes_indices n1 n2 n3 base idx (val : Z → Z → Z → A) :
  0 ≤ n2 → 0 ≤ n3 →
  (∀ i j k, 0 ≤ i < n1 → 0 ≤ j < n2 → 0 ≤ k < n3 →
     idx i j k = base + i * n2 * n3 + j * n3 + k) →
  (nest_writes n1 n2 n3 idx val).*1 = seqZ base (n1 * n2 * n3).
Proof.
  intros H2 H3 Hidx. unfold nest_writes.
  rewrite <- Z.mul_assoc, <- seqZ_bind_block by nia.
  rewrite fmap_list_bind. apply list_bind_ext_in. intros i Hi%elem_of_seqZ.
  rewrite <- seqZ_bind_block by lia.
  rewrite fmap_list_bind. apply list_bind_ext_in. intros j Hj%elem_of_seqZ.
  rewrite fmap_list_bind.
  replace (seqZ (base + i * (n2 * n3) + j * n3) n3)
    with (seqZ 0 n3 ≫= λ k, [base + i * (n2 * n3) + j * n3 + k]).
  2:{ apply seqZ_bind_singleton. }
  apply list_bind_ext_in. intros k Hk%elem_of_seqZ. simpl.
  rewrite Hidx by lia. f_equal. lia.
Qed.

Lemma nest_writes_elem n1 n2 n3 idx (val : Z → Z → Z → A) i j k :
  0 ≤ i < n1 → 0 ≤ j < n2 → 0 ≤ k < n3 →
  (idx i j k, val i j k) ∈ nest_writes n1 n2 n3 idx val.
Proof.
  intros. unfold nest_writes.
  apply list_elem_of_bind. exists i. split; [|apply elem_of_seqZ; lia].
  apply list_elem_of_bind. exists j. split; [|apply elem_of_seqZ; lia].
  apply list_elem_of_bind. exists k. split; [|apply elem_of_seqZ; lia].
  by apply list_elem_of_singleton.
Qed.

Lemma nest_writes_length n1 n2 n3 idx (val : Z → Z → Z → A) :
  length (nest_writes n1 n2 n3 idx val)
  = (Z.to_nat n1 * (Z.to_nat n2 * Z.to_nat n3))%nat.
Proof.
  unfold nest_writes.
  rewrite (length_bind_const _ (Z.to_nat n2 * Z.to_nat n3)), length_seqZ; [done|].
  intros i. rewrite (length_bind_const _ (Z.to_nat n3)), length_seqZ; [done|].
  intros j. rewrite (length_bind_const _ 1%nat), length_seqZ; [lia|done].
Qed.

(** In a block of consecutive writes starting at [base], the value written
    to cell [i] is found at offset [i - base]. *)
Lemma block_lookup ws base n i v :
  ws.*1 = seqZ base n → (i, v) ∈ ws → 
  base ≤ i < base + n ∧ ws.*2 !! Z.to_nat (i - base) = Some v.
Proof.
  intros Hi [p Hp]%list_elem_of_lookup.
  assert (ws.*1 !! p = Some i) as H1 by (by rewrite list_lookup_fmap, Hp).
  rewrite Hi in H1. apply lookup_seqZ in H1 as [-> ?].
  split; [lia|].
  replace (Z.to_nat (base + Z.of_nat p - base)) with p by lia.
  by rewrite list_lookup_fmap, Hp.
Qed.
End LoopFacts.

Ltac u32_simpl :=
  unfold uadd, umul, usub;
  repeat match goal with
         | |- context [u32 ?z] => rewrite (u32_small z) by lia
         end.

(** ** Scene Builder: the fluid lattice *)

Section FluidLattice.
Context `{RealOps R}.
Variable fill : Vector3r R.

Lemma fluid_index_eq i j k :
  0 ≤ i < width → 0 ≤ j < height → 0 ≤ k < depth →
  fluid_index i j k = i * height * depth + j * depth + k.
Proof. unfold fluid_index, width, height, depth. intros. u32_simpl. lia. Qed.

Lemma fluid_writes_indices :
  (fluid_writes (R:=R)).*1 = seqZ 0 (width * height * depth).
Proof.
  unfold fluid_writes.
  rewrite (nest_writes_indices _ _ _ 0); [done|done|done|].
  intros i j k Hi Hj Hk. rewrite fluid_index_eq; [lia|done..].
Qed.

Lemma fluid_writes_length : length (fluid_writes (R:=R)) = 4500%nat.
Proof. unfold fluid_writes. by rewrite nest_writes_length. Qed.

Lemma fluidParticles_writes :
  fluidParticles fill
  = apply_writes fluid_writes (resize_to (umul (umul width height) depth) fill []).
Proof.
  unfold fluidParticles. cbv zeta.
  by rewrite (nest_run_writes (to_int width) height depth fluid_index fluid_position).
Qed.

Lemma fluidParticles_eq : fluidParticles fill = Some (fluid_writes (R:=R)).*2.
Proof.
  rewrite fluidParticles_writes.
  apply apply_writes_fresh.
  - rewrite fluid_writes_length. apply fluid_writes_indices.
  - rewrite fluid_writes_length. reflexivity.
Qed.

Lemma fluid_lookup i j k :
  0 ≤ i < width → 0 ≤ j < height → 0 ≤ k < depth →
  (fluid_writes (R:=R)).*2 !! Z.to_nat (i * height * depth + j * depth + k)
  = Some (fluid_position i j k).
Proof.
  intros Hi Hj Hk.
  pose proof (nest_writes_elem (to_int width) height depth fluid_index
                (fluid_position (R:=R)) i j k Hi Hj Hk) as Hel.
  apply (block_lookup _ _ _ _ _ fluid_writes_indices) in Hel as [_ Hl].
  rewrite fluid_index_eq, Z.sub_0_r in Hl; done.
Qed.

(** C1: the fluid particle of lattice coordinate (i, j, k) is written at
    output index [i*height*depth + j*depth + k] with position
    [2*radius*(i, j, k)] plus the start offset; the cells [0 .. N-1] are
    each written exactly once (in the sequential run in increasing order);
    and a run that performs the writes in any other order, as a parallel
    fan-out of the loop does, produces the same sequence. *)
Theorem createBreakingDam_lattice_order :
  ∃ fp : list (Vector3r R),
    fluidParticles fill = Some fp ∧
    Z.of_nat (length fp) = width * height * depth ∧
    (∀ i j k, 0 ≤ i < width → 0 ≤ j < height → 0 ≤ k < depth →
       fluid_index i j k = i * height * depth + j * depth + k ∧
       (fluid_index i j k, fluid_position i j k) ∈ fluid_writes (R:=R) ∧
       fp !! Z.to_nat (i * height * depth + j * depth + k)
       = Some (vadd (vscale (rmul (rlit 2) particleRadius)
                            (Vec3 (rofZ i) (rofZ j) (rofZ k)))
                    (Vec3 startX startY startZ))) ∧
    (fluid_writes (R:=R)).*1 = seqZ 0 (width * height * depth) ∧
    NoDup (fluid_writes (R:=R)).*1 ∧
    (∀ ws, ws ≡ₚ fluid_writes → fluidParticles_parallel fill ws = Some fp).
Proof.
  exists (fluid_writes (R:=R)).*2. split_and!.
  - apply fluidParticles_eq.
  - by rewrite length_fmap, fluid_writes_length.
  - intros i j k Hi Hj Hk. split_and!.
    + by apply fluid_index_eq.
    + by apply nest_writes_elem.
    + by apply fluid_lookup.
  - apply fluid_writes_indices.
  - rewrite fluid_writes_indices. apply NoDup_seqZ.
  - intros ws Hp. unfold fluidParticles_parallel.
    rewrite (apply_writes_perm ws fluid_writes) by
      (done || (rewrite Hp, fluid_writes_indices; apply NoDup_seqZ)).
    rewrite <- fluidParticles_eq. symmetry. apply fluidParticles_writes.
Qed.
End FluidLattice.

(** ** Scene Builder: boundary walls *)

Lemma row_major_bound sx sy sz j k l :
  0 ≤ j < sx → 0 ≤ k < sy → 0 ≤ l < sz →
  0 ≤ j * sy ∧ j * sy < sx * sy ∧
  0 ≤ j * sy * sz ∧ 0 ≤ k * sz ∧
  j * sy * sz + k * sz + l < sx * sy * sz ∧ sx * sy ≤ sx * sy * sz ∧
  sx ≤ sx * sy.
Proof.
  intros Hj Hk Hl.
  assert (0 ≤ sx * (sy - 1)) by (apply Z.mul_nonneg_nonneg; lia).
  assert (0 ≤ (sy - 1 - k) * sz) by (apply Z.mul_nonneg_nonneg; lia).
  assert (0 ≤ (sx - 1 - j) * sy) by (apply Z.mul_nonneg_nonneg; lia).
  assert (0 ≤ j * sy) by (apply Z.mul_nonneg_nonneg; lia).
  assert (0 ≤ k * sz) by (apply Z.mul_nonneg_nonneg; lia).
  assert (0 ≤ sx * sy) by (apply Z.mul_nonneg_nonneg; lia).
  assert (0 ≤ (sx - 1 - j) * sy * sz) by (apply Z.mul_nonneg_nonneg; lia).
  assert (0 ≤ j * sy * sz) by (apply Z.mul_nonneg_nonneg; lia).
  assert (0 ≤ sx * sy * (sz - 1)) by (apply Z.mul_nonneg_nonneg; lia).
  split_and!; lia.
Qed.

Lemma umul3_small sx sy sz :
  0 ≤ sx → 0 ≤ sy → 0 ≤ sz → sx * sy * sz < 2 ^ 32 →
  umul (umul sx sy) sz = sx * sy * sz.
Proof.
  intros Hx Hy Hz Hp. unfold umul.
  destruct (decide (sz = 0)) as [->|Hnz].
  - rewrite !Z.mul_0_r. done.
  - assert (sx * sy ≤ sx * sy * sz) by nia.
    rewrite (u32_small (sx * sy)) by nia. apply u32_small. nia.
Qed.

Section Walls.
Context `{RealOps R}.
Variable fill : Vector3r R.
Implicit Types (m : FluidModel R) (bp : list (Vector3r R)).

Lemma wall_index_eq start sx sy sz j k l :
  0 ≤ start → start + sx * sy * sz < 2 ^ 32 →
  0 ≤ j < sx → 0 ≤ k < sy → 0 ≤ l < sz →
  wall_index start sy sz j k l = start + j * sy * sz + k * sz + l.
Proof.
  intros Hs Hp Hj Hk Hl. unfold wall_index.
  pose proof (row_major_bound sx sy sz j k l Hj Hk Hl) as (?&?&?&?&?&?&?).
  unfold uadd, umul. rewrite (u32_small j) by lia.
  rewrite (u32_small (j * sy)) by lia.
  rewrite (u32_small (j * sy * sz)) by lia.
  rewrite (u32_small (k * sz)) by lia.
  rewrite (u32_small (start + _)) by lia.
  rewrite (u32_small (start + _ + _)) by lia.
  apply u32_small. lia.
Qed.

Lemma wall_steps_Some m minX maxX qx qy qz :
  let s := rmul (rlit 2) (getParticleRadius m) in
  to_uint (rdiv (vx (vsub maxX minX)) s) = Some qx →
  to_uint (rdiv (vy (vsub maxX minX)) s) = Some qy →
  to_uint (rdiv (vz (vsub maxX minX)) s) = Some qz →
  wall_steps m minX maxX = Some (uadd qx 1, uadd qy 1, uadd qz 1).
Proof. intros s Hx Hy Hz. unfold wall_steps. fold s. by rewrite Hx, Hy, Hz. Qed.

Lemma wall_steps_range m minX maxX sx sy sz :
  wall_steps m minX maxX = Some (sx, sy, sz) →
  0 ≤ sx < 2 ^ 32 ∧ 0 ≤ sy < 2 ^ 32 ∧ 0 ≤ sz < 2 ^ 32.
Proof.
  unfold wall_steps. intros Hs.
  apply bind_Some in Hs as (qx & _ & Hs).
  apply bind_Some in Hs as (qy & _ & Hs).
  apply bind_Some in Hs as (qz & _ & Hs).
  injection Hs as <- <- <-. unfold uadd. split_and!; apply u32_range.
Qed.

Lemma addWall_writes m minX maxX bp sx sy sz :
  wall_steps m minX maxX = Some (sx, sy, sz) →
  let start := u32 (Z.of_nat (length bp)) in
  addWall fill m minX maxX bp
  = apply_writes
      (nest_writes (to_int sx) sy sz (wall_index start sy sz)
         (wall_position minX (rmul (rlit 2) (getParticleRadius m))))
      (resize_to (uadd start (umul (umul sx sy) sz)) fill bp).
Proof.
  intros Hs start. unfold addWall. rewrite Hs. csimpl. 
  by rewrite (nest_run_writes (to_int sx) sy sz (wall_index start sy sz)
                (wall_position minX (rmul (rlit 2) (getParticleRadius m)))).
Qed.

(** What one call of [addWall] does when its counts and the new size fit
    in 32 bits: the old particles stay, [sx*sy*sz] new ones follow, and the
    cells written are exactly the new ones (none when [(int)stepsX] is
    negative, which leaves the new cells unset). *)
Lemma addWall_block m minX maxX bp sx sy sz :
  wall_steps m minX maxX = Some (sx, sy, sz) →
  Z.of_nat (length bp) + sx * sy * sz < 2 ^ 32 →
  ∃ new written,
    addWall fill m minX maxX bp = Some (bp ++ new) ∧
    Z.of_nat (length new) = sx * sy * sz ∧
    wall_written m minX maxX bp = Some written ∧
    Forall (λ i, Z.of_nat (length bp) ≤ i
                 < Z.of_nat (length bp) + sx * sy * sz) written ∧
    (sx < 2 ^ 31 →
       written = seqZ (Z.of_nat (length bp)) (sx * sy * sz) ∧
       new = (nest_writes sx sy sz (wall_index (Z.of_nat (length bp)) sy sz)
                (wall_position minX (rmul (rlit 2) (getParticleRadius m)))).*2).
Proof.
  intros Hs Hfit.
  destruct (wall_steps_range _ _ _ _ _ _ Hs) as ([Hx Hx'] & [Hy Hy'] & [Hz Hz']).
  assert (0 ≤ sx * sy * sz) as Hn by nia.
  rewrite (addWall_writes _ _ _ _ _ _ _ Hs). unfold wall_written. rewrite Hs. csimpl.
  rewrite (u32_small (Z.of_nat (length bp))) by lia.
  rewrite umul3_small by lia. unfold uadd. rewrite u32_small by lia.
  set (start := Z.of_nat (length bp)) in *.
  set (N := sx * sy * sz) in *.
  assert (resize_to (start + N) fill bp = bp ++ replicate (Z.to_nat N) fill) as ->.
  { unfold resize_to. rewrite resize_ge by lia. do 2 f_equal. lia. }
  destruct (Z_lt_le_dec sx (2 ^ 31)) as [Hsmall|Hbig].
  - rewrite to_int_small by lia.
    set (ws := nest_writes sx sy sz _ _).
    assert (ws.*1 = seqZ start N) as Hidx.
    { apply nest_writes_indices; [done..|]. intros j k l ???.
      apply (wall_index_eq _ sx); unfold N, start in *; lia. }
    assert (length ws = Z.to_nat N) as Hlen.
    { rewrite <- (length_fmap fst), Hidx. apply length_seqZ. }
    exists ws.*2, ws.*1. split_and!.
    + rewrite (apply_writes_block ws start).
      * f_equal. unfold start. rewrite Nat2Z.id. rewrite take_app_length.
        rewrite drop_ge by (rewrite length_app, length_replicate; lia).
        by rewrite app_nil_r.
      * rewrite Hidx, Hlen. f_equal. lia.
      * lia.
      * rewrite length_app, length_replicate. lia.
    + rewrite length_fmap. lia.
    + done.
    + rewrite Hidx. apply Forall_seqZ. lia.
    + done.
  - assert (to_int sx ≤ 0) as Hneg by (unfold to_int; case_match; lia).
    unfold nest_writes. rewrite (seqZ_nil 0 (to_int sx)) by lia. csimpl.
    exists (replicate (Z.to_nat N) fill), []. split_and!.
    + done.
    + rewrite length_replicate. lia.
    + done.
    + constructor.
    + lia.
Qed.
End Walls.

(** ** Exact arithmetic: facts about the [Qc] implementation of [Real] *)

Section ExactReal.
Local Open Scope Qc_scope.

Lemma Qc_nonneg_num (x : Qc) : 0 ≤ x ↔ (0 ≤ Qnum x)%Z.
Proof.
  unfold Qcle, Qle. simpl. rewrite Z.mul_1_r. done.
Qed.

Lemma Qc_to_uint_floor (x : Qc) :
  0 ≤ x → (Qfloor x < 2 ^ 32)%Z → to_uint x = Some (Qfloor x).
Proof.
  intros Hx%Qc_nonneg_num Hf. unfold to_uint. simpl.
  destruct x as [[n d] Hc]. simpl in *.
  rewrite Z.quot_div_nonneg by lia.
  assert (0 ≤ n / Z.pos d)%Z by (apply Z.div_pos; lia).
  destruct (0 <=? n / Z.pos d)%Z eqn:E1; [|lia].
  destruct (n / Z.pos d <? 2 ^ 32)%Z eqn:E2; [done|lia].
Qed.

Lemma Qc_quot_nonneg (a b s : Qc) : a ≤ b → 0 < s → 0 ≤ (b - a) / s.
Proof.
  intros Hab Hs. unfold Qcdiv. apply Qcmult_nonneg_nonneg.
  - apply (Qcplus_le_mono_r _ _ a). rewrite Qcplus_0_l.
    by replace (b - a + a) with b by ring.
  - apply Qclt_le_weak. by apply Qcinv_pos.
Qed.

Lemma Qc_floor_nonneg (x : Qc) : 0 ≤ x → (0 ≤ Qfloor x)%Z.
Proof.
  intros Hx%Qc_nonneg_num. destruct x as [[n d] Hc]. simpl in *.
  apply Z.div_pos; lia.
Qed.
End ExactReal.

(** The step counts of [addWall] in exact arithmetic, for non-negative
    extents and counts whose product fits in 32 bits. *)
Lemma Qc_wall_steps_floor (m : FluidModel Qc) (minX maxX : Vector3r Qc) :
  (0 < m_particleRadius m)%Qc →
  (vx minX ≤ vx maxX)%Qc → (vy minX ≤ vy maxX)%Qc → (vz minX ≤ vz maxX)%Qc →
  let s := (2 * m_particleRadius m)%Qc in
  let nx := Qfloor ((vx maxX - vx minX) / s)%Qc + 1 in
  let ny := Qfloor ((vy maxX - vy minX) / s)%Qc + 1 in
  let nz := Qfloor ((vz maxX - vz minX) / s)%Qc + 1 in
  nx * ny * nz < 2 ^ 32 →
  wall_steps m minX maxX = Some (nx, ny, nz) ∧ 1 ≤ nx ∧ 1 ≤ ny ∧ 1 ≤ nz.
Proof.
  intros Hr Hx Hy Hz s nx ny nz Hfit.
  assert (0 < s)%Qc as Hs by (apply Qcmult_pos_pos; done).
  pose proof (Qc_floor_nonneg _ (Qc_quot_nonneg _ _ _ Hx Hs)) as Hqx.
  pose proof (Qc_floor_nonneg _ (Qc_quot_nonneg _ _ _ Hy Hs)) as Hqy.
  pose proof (Qc_floor_nonneg _ (Qc_quot_nonneg _ _ _ Hz Hs)) as Hqz.
  fold nx in Hqx. fold ny in Hqy. fold nz in Hqz.
  assert (1 ≤ nx ∧ 1 ≤ ny ∧ 1 ≤ nz) as (Hnx & Hny & Hnz) by (unfold nx, ny, nz; lia).
  assert (nx ≤ nx * ny * nz ∧ ny ≤ nx * ny * nz ∧ nz ≤ nx * ny * nz) as (Bx & By & Bz).
  { assert (0 ≤ (nx * ny - 1) * nz) by (apply Z.mul_nonneg_nonneg; nia).
    assert (0 ≤ (nx - 1) * ny) by (apply Z.mul_nonneg_nonneg; nia).
    assert (0 ≤ nx * (ny - 1)) by (apply Z.mul_nonneg_nonneg; nia).
    assert (0 ≤ nx * ny * (nz - 1)) by (apply Z.mul_nonneg_nonneg; nia).
    lia. }
  split_and!; [|done..].
  rewrite (wall_steps_Some m minX maxX (nx - 1) (ny - 1) (nz - 1)).
  - unfold uadd. rewrite !u32_small by lia. do 3 f_equal; lia.
  - change (to_uint ((vx maxX - vx minX) / s)%Qc = Some (nx - 1)).
    rewrite Qc_to_uint_floor; [f_equal; unfold nx; lia| |].
    + by apply Qc_quot_nonneg.
    + fold nx. lia.
  - change (to_uint ((vy maxX - vy minX) / s)%Qc = Some (ny - 1)).
    rewrite Qc_to_uint_floor; [f_equal; unfold ny; lia| |].
    + by apply Qc_quot_nonneg.
    + fold ny. lia.
  - change (to_uint ((vz maxX - vz minX) / s)%Qc = Some (nz - 1)).
    rewrite Qc_to_uint_floor; [f_equal; unfold nz; lia| |].
    + by apply Qc_quot_nonneg.
    + fold nz. lia.
Qed.

(** C9 (amended): for every implementation of [Real] and every call of
    [addWall] in which each quotient [diff/particleDistance], computed in
    [Real] and truncated toward zero, is a value [q] with
    [0 <= q < 2^32 - 1] (so the conversion to [unsigned int] is defined and
    [+ 1u] does not wrap), and whose new size
    [startIndex + (qx+1)*(qy+1)*(qz+1)] stays below 2^32: every step count
    is [q + 1] and is at least 1, the call succeeds, every index written
    lies in the newly added tail, and the particles appended before the call
    are unchanged. *)
Theorem addWall_within_tail `{RealOps R} (fill : Vector3r R) (m : FluidModel R)
    (minX maxX : Vector3r R) (bp : list (Vector3r R)) (qx qy qz : Z) :
  let s := rmul (rlit 2) (getParticleRadius m) in
  rtrunc (rdiv (vx (vsub maxX minX)) s) = Some qx →
  rtrunc (rdiv (vy (vsub maxX minX)) s) = Some qy →
  rtrunc (rdiv (vz (vsub maxX minX)) s) = Some qz →
  0 ≤ qx < 2 ^ 32 - 1 → 0 ≤ qy < 2 ^ 32 - 1 → 0 ≤ qz < 2 ^ 32 - 1 →
  let nx := qx + 1 in
  let ny := qy + 1 in
  let nz := qz + 1 in
  Z.of_nat (length bp) + nx * ny * nz < 2 ^ 32 →
  wall_steps m minX maxX = Some (nx, ny, nz) ∧
  1 ≤ nx ∧ 1 ≤ ny ∧ 1 ≤ nz ∧
  ∃ new written,
    addWall fill m minX maxX bp = Some (bp ++ new) ∧
    Z.of_nat (length new) = nx * ny * nz ∧
    wall_written m minX maxX bp = Some written ∧
    Forall (λ i, Z.of_nat (length bp) ≤ i
                 < Z.of_nat (length bp) + Z.of_nat (length new)) written.
Proof.
  intros s Hx Hy Hz Rx Ry Rz nx ny nz Hfit.
  assert (∀ x q, rtrunc x = Some q → 0 ≤ q < 2 ^ 32 - 1 → to_uint x = Some q) as Hu.
  { intros x q Hq Hr. unfold to_uint. rewrite Hq.
    destruct (0 <=? q) eqn:E1; [|lia]. destruct (q <? 2 ^ 32) eqn:E2; [done|lia]. }
  assert (wall_steps m minX maxX = Some (nx, ny, nz)) as Hsteps.
  { rewrite (wall_steps_Some m minX maxX qx qy qz) by (apply Hu; done).
    unfold uadd. by rewrite !u32_small by lia. }
  split_and!; [exact Hsteps|unfold nx; lia|unfold ny; lia|unfold nz; lia|].
  destruct (addWall_block fill m minX maxX bp nx ny nz Hsteps Hfit)
    as (new & written & Ha & Hl & Hw & Hf & _).
  exists new, written. rewrite Hl. done.
Qed.

(** The binary64 build, extents (0.15, 0, 0.05) at radius 0.025: the
    quotient 0.15/0.05 is computed as 2.9999999999999996, so the wall is
    3 x 1 x 2. *)
Lemma addWall_within_tail_witness :
  let m : FluidModel float := mkFluidModel (rlit (25 # 1000)) [] [] [] [] in
  let minX := Vec3 (rlit 0) (rlit 0) (rlit 0) in
  let maxX := Vec3 (rlit (15 # 100)) (rlit 0) (rlit (5 # 100)) in
  wall_steps m minX maxX = Some (3, 1, 2) ∧
  ∃ new written,
    addWall vzero m minX maxX [] = Some new ∧
    length new = 6%nat ∧
    wall_written m minX maxX [] = Some written ∧
    Forall (λ i, 0 ≤ i < 6) written.
Proof.
  intros m minX maxX.
  assert (rtrunc (rdiv (vx (vsub maxX minX)) (rmul (rlit 2) (getParticleRadius m)))
          = Some 2) as Hx by (vm_compute; reflexivity).
  assert (rtrunc (rdiv (vy (vsub maxX minX)) (rmul (rlit 2) (getParticleRadius m)))
          = Some 0) as Hy by (vm_compute; reflexivity).
  assert (rtrunc (rdiv (vz (vsub maxX minX)) (rmul (rlit 2) (getParticleRadius m)))
          = Some 1) as Hz by (vm_compute; reflexivity).
  destruct (addWall_within_tail vzero m minX maxX [] 2 0 1 Hx Hy Hz)
    as (Hs & _ & _ & _ & new & written & Ha & Hl & Hw & Hf); [lia..|simpl; lia|].
  split; [exact Hs|]. exists new, written.
  change (Z.of_nat (length new) = 6) in Hl.
  rewrite Hl in Hf. split_and!; [exact Ha|lia|exact Hw|exact Hf].
Defined.

(** C9, as stated, fails: with non-negative extents (214748364.75, 0, 0) at
    radius 0.025 the quotient is 2^32 - 1, so [stepsX] wraps to 0; the wall
    has no sampling layer and nothing is appended.  The binary64 build
    computes the same counts. *)
Lemma addWall_steps_wrap :
  let m := mkFluidModel (Q2Qc (25 # 1000)) [] [] [] [] in
  let minX := Vec3 (Q2Qc 0) (Q2Qc 0) (Q2Qc 0) in
  let maxX := Vec3 (Q2Qc (21474836475 # 100)) (Q2Qc 0) (Q2Qc 0) in
  (0 < m_particleRadius m)%Qc ∧
  (vx minX ≤ vx maxX)%Qc ∧ (vy minX ≤ vy maxX)%Qc ∧ (vz minX ≤ vz maxX)%Qc ∧
  wall_steps m minX maxX = Some (0, 1, 1) ∧
  addWall vzero m minX maxX [] = Some [] ∧
  wall_steps (R:=float)
    (mkFluidModel (rlit (25 # 1000)) [] [] [] [])
    (Vec3 (rlit 0) (rlit 0) (rlit 0))
    (Vec3 (rlit (21474836475 # 100)) (rlit 0) (rlit 0)) = Some (0, 1, 1).
Proof.
  intros m minX maxX. split_and!.
  - reflexivity.
  - discriminate.
  - discriminate.
  - discriminate.
  - vm_compute. reflexivity.
  - vm_compute. reflexivity.
  - vm_compute. reflexivity.
Qed.

(** ** The six walls of the built scenario *)

Section BoundaryData.
Context `{RealOps R}.
Variable fill : Vector3r R.
Implicit Types (m : FluidModel R) (bp : list (Vector3r R)).

Lemma steps_product_nonneg m minX maxX s :
  wall_steps m minX maxX = Some s → 0 ≤ steps_product s.
Proof.
  destruct s as [[sx sy] sz]. intros (?&?&?)%wall_steps_range.
  unfold steps_product. simpl. 
  assert (0 ≤ sx * sy) by (apply Z.mul_nonneg_nonneg; lia).
  apply Z.mul_nonneg_nonneg; lia.
Qed.

Lemma total_points_nonneg m ws steps :
  Forall2 (λ w s, wall_steps m w.1 w.2 = Some s) ws steps →
  0 ≤ total_points steps.
Proof.
  induction 1 as [|w s ws steps Hs _ IH]; simpl; [done|].
  pose proof (steps_product_nonneg _ _ _ _ Hs). lia.
Qed.

(** Successive [addWall] calls concatenate their walls. *)
Lemma addWalls_fold m ws steps bp :
  Forall2 (λ w s, wall_steps m w.1 w.2 = Some s) ws steps →
  Z.of_nat (length bp) + total_points steps < 2 ^ 32 →
  ∃ new,
    foldl (λ acc w, bp ← acc; addWall fill m w.1 w.2 bp) (Some bp) ws
    = Some (bp ++ new) ∧
    Z.of_nat (length new) = total_points steps.
Proof.
  intros HF. revert bp.
  induction HF as [|w [[sx sy] sz] ws steps Hs HF IH]; intros bp Hfit; simpl in *.
  - exists []. by rewrite app_nil_r.
  - pose proof (total_points_nonneg _ _ _ HF) as Hnn.
    unfold steps_product in Hfit. simpl in Hfit.
    destruct (addWall_block fill m w.1 w.2 bp sx sy sz Hs)
      as (new1 & _ & Ha & Hl & _); [lia|].
    rewrite Ha.
    destruct (IH (bp ++ new1)) as (new2 & Hf & Hl2).
    { rewrite length_app. lia. }
    exists (new1 ++ new2). rewrite Hf, app_assoc, length_app.
    split; [done|]. unfold steps_product. simpl. lia.
Qed.

(** The whole of [initBoundaryData] from the step counts of its six walls:
    the first wall appended is the floor. *)
Lemma initBoundaryData_from_steps m w0 ws s0 steps :
  walls = w0 :: ws →
  wall_steps m w0.1 w0.2 = Some s0 →
  Forall2 (λ w s, wall_steps m w.1 w.2 = Some s) ws steps →
  steps_product s0 + total_points steps < 2 ^ 32 →
  ∃ floor rest,
    addWall fill m w0.1 w0.2 [] = Some floor ∧
    Z.of_nat (length floor) = steps_product s0 ∧
    initBoundaryData fill m [] = Some (floor ++ rest) ∧
    Z.of_nat (length (floor ++ rest)) = steps_product s0 + total_points steps.
Proof.
  intros Hw Hs0 HF Hfit.
  pose proof (total_points_nonneg _ _ _ HF) as Hnn.
  destruct s0 as [[sx sy] sz]. unfold steps_product in *. simpl in *.
  destruct (addWall_block fill m w0.1 w0.2 [] sx sy sz Hs0)
    as (floor & _ & Ha & Hl & _); [simpl; lia|].
  simpl in Ha.
  destruct (addWalls_fold m ws steps floor HF) as (rest & Hf & Hl2); [lia|].
  exists floor, rest. split_and!; [done|done| |rewrite length_app; lia].
  unfold initBoundaryData. rewrite Hw. simpl. by rewrite Ha. 
Qed.
End BoundaryData.

Lemma Qc_scenario_steps (m : FluidModel Qc) :
  map (λ w, wall_steps (setParticleRadius particleRadius m) w.1 w.2) walls
  = map Some scenario_steps.
Proof. vm_compute. reflexivity. Qed.

Lemma binary64_scenario_steps (m : FluidModel float) :
  map (λ w, wall_steps (setParticleRadius particleRadius m) w.1 w.2) walls
  = map Some scenario_steps.
Proof. vm_compute. reflexivity. Qed.

Lemma map_Some_Forall2 {A B} (f : A → option B) (l : list A) (k : list B) :
  map f l = map Some k → Forall2 (λ a b, f a = Some b) l k.
Proof.
  revert k. induction l as [|a l IH]; intros [|b k]; simpl; try done.
  intros [= Ha Hl]. constructor; auto.
Qed.

Lemma scenario_steps_Forall2 `{RealOps R} (m : FluidModel R) :
  map (λ w, wall_steps m w.1 w.2) walls = map Some scenario_steps →
  Forall2 (λ w s, wall_steps m w.1 w.2 = Some s) walls scenario_steps.
Proof. apply (map_Some_Forall2 (λ w, wall_steps m w.1 w.2)). Qed.

(** The binary64 build of the scenario: the same six walls. *)
Lemma binary64_boundary_counts (fill : Vector3r float) (m : FluidModel float) :
  let m' := setParticleRadius particleRadius m in
  ∃ wfloor others floor rest,
    walls = wfloor :: others ∧
    addWall fill m' wfloor.1 wfloor.2 [] = Some floor ∧
    length floor = 1377%nat ∧
    initBoundaryData fill m' [] = Some (floor ++ rest) ∧
    Z.of_nat (length (floor ++ rest)) = 18630.
Proof.
  intros m'.
  pose proof (scenario_steps_Forall2 m' (binary64_scenario_steps m)) as HF.
  unfold walls in HF. cbv zeta in HF. apply Forall2_cons_1 in HF as [H0 HF].
  edestruct (initBoundaryData_from_steps fill m' _ _ _ _ eq_refl H0 HF)
    as (floor & rest & Ha & Hl & Hi & Hl2); [reflexivity|].
  eexists _, _, floor, rest. split_and!; [reflexivity|exact Ha| |exact Hi|].
  - apply Nat2Z.inj. rewrite Hl. reflexivity.
  - rewrite Hl2. reflexivity.
Qed.

Lemma Qc_boundary_counts (fill : Vector3r Qc) (m : FluidModel Qc) :
  let m' := setParticleRadius particleRadius m in
  ∃ wfloor others floor rest,
    walls = wfloor :: others ∧
    addWall fill m' wfloor.1 wfloor.2 [] = Some floor ∧
    length floor = 1377%nat ∧
    initBoundaryData fill m' [] = Some (floor ++ rest) ∧
    Z.of_nat (length (floor ++ rest)) = 18630.
Proof.
  intros m'.
  pose proof (scenario_steps_Forall2 m' (Qc_scenario_steps m)) as HF.
  unfold walls in HF. cbv zeta in HF. apply Forall2_cons_1 in HF as [H0 HF].
  edestruct (initBoundaryData_from_steps fill m' _ _ _ _ eq_refl H0 HF)
    as (floor & rest & Ha & Hl & Hi & Hl2); [reflexivity|].
  eexists _, _, floor, rest. split_and!; [reflexivity|exact Ha| |exact Hi|].
  - apply Nat2Z.inj. rewrite Hl. reflexivity.
  - rewrite Hl2. reflexivity.
Qed.

(** In exact arithmetic the truncated quotient is [floor(extent/(2*radius))]:
    each of the six walls of the built scenario gets, per axis, that many
    steps plus one, one of them being 1, and [addWall] appends exactly their
    product. *)
Lemma Qc_wall_counts_floor (fill : Vector3r Qc) (m : FluidModel Qc) :
  let m' := setParticleRadius particleRadius m in
  let s := (2 * particleRadius)%Qc in
  Forall (λ w : Vector3r Qc * Vector3r Qc,
      let nx := Qfloor ((vx w.2 - vx w.1) / s)%Qc + 1 in
      let ny := Qfloor ((vy w.2 - vy w.1) / s)%Qc + 1 in
      let nz := Qfloor ((vz w.2 - vz w.1) / s)%Qc + 1 in
      wall_steps m' w.1 w.2 = Some (nx, ny, nz) ∧
      (nx = 1 ∨ ny = 1 ∨ nz = 1) ∧
      ∀ bp, Z.of_nat (length bp) + nx * ny * nz < 2 ^ 32 →
        ∃ new, addWall fill m' w.1 w.2 bp = Some (bp ++ new) ∧
               Z.of_nat (length new) = nx * ny * nz) walls ∧
  map (λ w, wall_steps m' w.1 w.2) walls
  = [ Some (81, 1, 17); Some (81, 1, 17); Some (1, 81, 17);
      Some (1, 81, 17); Some (81, 81, 1); Some (81, 81, 1) ] ∧
  ∃ wfloor others floor rest,
    walls = wfloor :: others ∧
    addWall fill m' wfloor.1 wfloor.2 [] = Some floor ∧
    Z.of_nat (length floor) = 81 * 17 ∧
    initBoundaryData fill m' [] = Some (floor ++ rest) ∧
    Z.of_nat (length (floor ++ rest)) = 18630.
Proof.
  intros m' s. split_and!.
  - unfold walls. cbv zeta.
    repeat apply Forall_cons_2; [..|apply Forall_nil_2].
    all: cbv zeta; split_and!;
      [ vm_compute; reflexivity
      | vm_compute; auto
      | intros bp Hfit ].
    all: match goal with
         | |- ∃ new, addWall _ _ (?w).1 (?w).2 _ = _ ∧ _ =>
             destruct (Qc_wall_steps_floor m' w.1 w.2) as (Hs & _);
             [reflexivity|vm_compute; discriminate..|reflexivity|];
             destruct (addWall_block fill m' w.1 w.2 bp _ _ _ Hs Hfit)
               as (new & _ & Ha & Hl & _);
             exists new; split; [exact Ha|exact Hl]
         end.
  - apply Qc_scenario_steps.
  - destruct (Qc_boundary_counts fill m)
      as (wfloor & others & floor & rest & Hw & Ha & Hl & Hi & Hl2).
    exists wfloor, others, floor, rest.
    split_and!; [exact Hw|exact Ha|by rewrite Hl|exact Hi|exact Hl2].
Qed.

(** The step counts [addWall] computes are the truncated quotients plus
    one, in 32 bits. *)
Lemma wall_steps_inv `{RealOps R} (m : FluidModel R) (minX maxX : Vector3r R) sx sy sz :
  wall_steps m minX maxX = Some (sx, sy, sz) →
  let s := rmul (rlit 2) (getParticleRadius m) in
  ∃ qx qy qz,
    to_uint (rdiv (vx (vsub maxX minX)) s) = Some qx ∧
    to_uint (rdiv (vy (vsub maxX minX)) s) = Some qy ∧
    to_uint (rdiv (vz (vsub maxX minX)) s) = Some qz ∧
    sx = uadd qx 1 ∧ sy = uadd qy 1 ∧ sz = uadd qz 1.
Proof.
  intros Hs s. unfold wall_steps in Hs. fold s in Hs.
  apply bind_Some in Hs as (qx & Hx & Hs).
  apply bind_Some in Hs as (qy & Hy & Hs).
  apply bind_Some in Hs as (qz & Hz & Hs).
  injection Hs as <- <- <-. by exists qx, qy, qz.
Qed.

(** C3 (amended): for every implementation of [Real], the step counts of a
    wall are the quotients [extent/(2*radius)], computed in [Real] and
    truncated toward zero, plus one, and [addWall] appends exactly their
    product.  In the built scenario the container is 4.0 wide and 0.8 deep:
    the six walls get (81,1,17), (81,1,17), (1,81,17), (1,81,17), (81,81,1)
    and (81,81,1) steps, the degenerate axis counting 1, so the floor wall
    has 81 * 17 = 1377 particles and all six walls together 18630, in
    binary64 and in exact arithmetic alike; in exact arithmetic the
    truncated quotient is [floor(extent/(2*radius))]. *)
Theorem boundary_wall_counts :
  (∀ (R : Type) (RO : RealOps R) (fill : Vector3r R) (m : FluidModel R)
     (minX maxX : Vector3r R) (bp : list (Vector3r R)) sx sy sz,
     wall_steps m minX maxX = Some (sx, sy, sz) →
     Z.of_nat (length bp) + sx * sy * sz < 2 ^ 32 →
     let s := rmul (rlit 2) (getParticleRadius m) in
     (∃ qx qy qz,
        to_uint (rdiv (vx (vsub maxX minX)) s) = Some qx ∧
        to_uint (rdiv (vy (vsub maxX minX)) s) = Some qy ∧
        to_uint (rdiv (vz (vsub maxX minX)) s) = Some qz ∧
        sx = uadd qx 1 ∧ sy = uadd qy 1 ∧ sz = uadd qz 1) ∧
     ∃ new, addWall fill m minX maxX bp = Some (bp ++ new) ∧
            Z.of_nat (length new) = sx * sy * sz) ∧
  (∀ (fill : Vector3r float) (m : FluidModel float),
     let m' := setParticleRadius particleRadius m in
     map (λ w, wall_steps m' w.1 w.2) walls
     = [ Some (81, 1, 17); Some (81, 1, 17); Some (1, 81, 17);
         Some (1, 81, 17); Some (81, 81, 1); Some (81, 81, 1) ] ∧
     ∃ wfloor others floor rest,
       walls = wfloor :: others ∧
       addWall fill m' wfloor.1 wfloor.2 [] = Some floor ∧
       Z.of_nat (length floor) = 81 * 17 ∧
       initBoundaryData fill m' [] = Some (floor ++ rest) ∧
       Z.of_nat (length (floor ++ rest)) = 18630) ∧
  (∀ (fill : Vector3r Qc) (m : FluidModel Qc),
     let m' := setParticleRadius particleRadius m in
     let s := (2 * particleRadius)%Qc in
     Forall (λ w : Vector3r Qc * Vector3r Qc,
         let nx := Qfloor ((vx w.2 - vx w.1) / s)%Qc + 1 in
         let ny := Qfloor ((vy w.2 - vy w.1) / s)%Qc + 1 in
         let nz := Qfloor ((vz w.2 - vz w.1) / s)%Qc + 1 in
         wall_steps m' w.1 w.2 = Some (nx, ny, nz) ∧
         (nx = 1 ∨ ny = 1 ∨ nz = 1)) walls ∧
     map (λ w, wall_steps m' w.1 w.2) walls
     = [ Some (81, 1, 17); Some (81, 1, 17); Some (1, 81, 17);
         Some (1, 81, 17); Some (81, 81, 1); Some (81, 81, 1) ] ∧
     ∃ wfloor others floor rest,
       walls = wfloor :: others ∧
       addWall fill m' wfloor.1 wfloor.2 [] = Some floor ∧
       Z.of_nat (length floor) = 81 * 17 ∧
       initBoundaryData fill m' [] = Some (floor ++ rest) ∧
       Z.of_nat (length (floor ++ rest)) = 18630).
Proof.
  split_and!.
  - intros R RO fill m minX maxX bp sx sy sz Hs Hfit s. split.
    + exact (wall_steps_inv m minX maxX sx sy sz Hs).
    + destruct (addWall_block fill m minX maxX bp sx sy sz Hs Hfit)
        as (new & written & Ha & Hl & _).
      exists new. by split.
  - intros fill m m'. split; [apply binary64_scenario_steps|].
    destruct (binary64_boundary_counts fill m)
      as (wfloor & others & floor & rest & Hw & Ha & Hl & Hi & Hl2).
    exists wfloor, others, floor, rest.
    split_and!; [exact Hw|exact Ha|by rewrite Hl|exact Hi|exact Hl2].
  - intros fill m m' s.
    destruct (Qc_wall_counts_floor fill m) as (HF & Hsteps & Hcounts).
    split_and!; [|exact Hsteps|exact Hcounts].
    eapply list.Forall_impl; [exact HF|]. intros w (Hw & Hd & _). by split.
Qed.

(** The binary64 build, extents (0.15, 0, 0.05) at radius 0.025: the
    quotients truncate to 2, 0 and 1, and the wall has 3 * 1 * 2 = 6
    particles. *)
Lemma boundary_wall_counts_witness :
  let m : FluidModel float := mkFluidModel (rlit (25 # 1000)) [] [] [] [] in
  let minX := Vec3 (rlit 0) (rlit 0) (rlit 0) in
  let maxX := Vec3 (rlit (15 # 100)) (rlit 0) (rlit (5 # 100)) in
  ∃ new, addWall vzero m minX maxX [] = Some new ∧ Z.of_nat (length new) = 3 * 1 * 2.
Proof.
  intros m minX maxX.
  assert (wall_steps m minX maxX = Some (3, 1, 2)) as Hs by (vm_compute; reflexivity).
  assert (Z.of_nat (length (@nil (Vector3r float))) + 3 * 1 * 2 < 2 ^ 32) as Hfit
    by (simpl; lia).
  destruct (proj1 boundary_wall_counts float _ vzero m minX maxX [] 3 1 2 Hs Hfit)
    as (_ & new & Ha & Hl).
  exists new. split; [exact Ha|exact Hl].
Defined.

(** C3, as stated, fails: the floor wall of the built scenario does not have
    16 * 16 = 256 particles.  [containerWidth] is (15+1)*0.025*10 = 4.0 and
    [containerDepth] is (15+1)*0.025*2 = 0.8, which give 81 and 17 steps,
    in exact arithmetic and in binary64. *)
Lemma floor_wall_not_256 :
  (let m' : FluidModel Qc := setParticleRadius particleRadius (mkFluidModel 0%Qc [] [] [] []) in
   ∃ wfloor others floor,
     walls = wfloor :: others ∧
     addWall vzero m' wfloor.1 wfloor.2 [] = Some floor ∧
     length floor = 1377%nat ∧ length floor ≠ 256%nat) ∧
  (let m' : FluidModel float :=
     setParticleRadius particleRadius (mkFluidModel (rlit 0) [] [] [] []) in
   ∃ wfloor others floor,
     walls = wfloor :: others ∧
     addWall vzero m' wfloor.1 wfloor.2 [] = Some floor ∧
     length floor = 1377%nat ∧ length floor ≠ 256%nat).
Proof.
  split; intros m'.
  - destruct (Qc_boundary_counts vzero (mkFluidModel 0%Qc [] [] [] []))
      as (wfloor & others & floor & rest & Hw & Ha & Hlen & _).
    exists wfloor, others, floor.
    split_and!; [exact Hw|exact Ha|exact Hlen|]. rewrite Hlen. discriminate.
  - destruct (binary64_boundary_counts vzero (mkFluidModel (rlit 0) [] [] [] []))
      as (wfloor & others & floor & rest & Hw & Ha & Hlen & _).
    exists wfloor, others, floor.
    split_and!; [exact Hw|exact Ha|exact Hlen|]. rewrite Hlen. discriminate.
Qed.

(** ** Step driver *)

Lemma foldl_const_iter {A B} (f : A → A) (l : list B) (a : A) :
  foldl (λ s _, f s) a l = Nat.iter (length l) f a.
Proof.
  revert a. induction l as [|x l IH]; intros a; simpl; [done|].
  rewrite IH. symmetry. apply (Nat.iter_succ_r (length l) f a).
Qed.

Section StepDriver.
Context `{RealOps R}.
Variable solver_advance : R → FluidModel R → FluidModel R.
Implicit Types st : Demo R.

Lemma timeStep_paused st :
  PAUSE st = true → timeStep solver_advance st = st.
Proof.
  intros Hp. unfold timeStep. cbv zeta.
  destruct (rltb (rlit 0) (PAUSE_AT st) && rltb (PAUSE_AT st) (time st)); simpl.
  - destruct st. simpl in *. by subst.
  - by rewrite Hp.
Qed.

Lemma timeStep_gate st :
  rltb (rlit 0) (PAUSE_AT st) = true → rltb (PAUSE_AT st) (time st) = true →
  timeStep solver_advance st = set_PAUSE true st.
Proof. intros H1 H2. unfold timeStep. cbv zeta. by rewrite H1, H2. Qed.

Lemma timeStep_running st :
  PAUSE st = false →
  rltb (rlit 0) (PAUSE_AT st) && rltb (PAUSE_AT st) (time st) = false →
  timeStep solver_advance st
  = Nat.iter (Z.to_nat (NUM_STEPS_PER_RENDER st)) (one_step solver_advance) st.
Proof.
  intros Hp Hg. unfold timeStep. cbv zeta. rewrite Hg, Hp.
  by rewrite (foldl_const_iter (λ s, base_step (simulation_step solver_advance s))),
    length_seqZ.
Qed.

(** What [n] fixed steps in a row do to each part of the state. *)
Lemma steps_frame n st :
  let st' := Nat.iter n (one_step solver_advance) st in
  PAUSE st' = PAUSE st ∧ PAUSE_AT st' = PAUSE_AT st ∧
  NUM_STEPS_PER_RENDER st' = NUM_STEPS_PER_RENDER st ∧
  timeStepSize st' = timeStepSize st ∧
  selectedParticles st' = selectedParticles st ∧
  oldMousePos st' = oldMousePos st ∧ mouseMoveFunc st' = mouseMoveFunc st.
Proof.
  induction n as [|n IH]; simpl; [done|].
  destruct IH as (?&?&?&?&?&?&?). done.
Qed.

Lemma steps_time n st :
  time (Nat.iter n (one_step solver_advance) st)
  = Nat.iter n (λ t, radd t (timeStepSize st)) (time st).
Proof.
  induction n as [|n IH]; simpl; [done|].
  rewrite IH. by destruct (steps_frame n st) as (_&_&_&->&_).
Qed.

Lemma steps_calls n st :
  calls (Nat.iter n (one_step solver_advance) st)
  = Nat.iter n (λ l, BaseStep :: SimStep :: l) (calls st).
Proof. induction n as [|n IH]; simpl; [done|]. by rewrite IH. Qed.

Lemma sim_steps_iter n l :
  sim_steps (Nat.iter n (λ l, BaseStep :: SimStep :: l) l) = (n + sim_steps l)%nat.
Proof.
  induction n as [|n IH]; simpl; [done|].
  unfold sim_steps in *. rewrite filter_cons_False by done.
  rewrite filter_cons_True by done. simpl. by rewrite IH.
Qed.

(** C2 (amended): with a positive pause-at threshold [T], a render tick
    whose pre-step clock time is strictly greater than [T] sets the state to
    Paused and executes no solver step (nothing but the pause flag changes);
    a tick whose pre-step clock time is not greater than [T], in particular
    one at exactly [T], leaves a Running state Running and executes all
    [NUM_STEPS_PER_RENDER] steps. *)
Theorem timeStep_pause_at st :
  rltb (rlit 0) (PAUSE_AT st) = true →
  (rltb (PAUSE_AT st) (time st) = true →
     timeStep solver_advance st = set_PAUSE true st ∧
     PAUSE (timeStep solver_advance st) = true ∧
     calls (timeStep solver_advance st) = calls st) ∧
  (rltb (PAUSE_AT st) (time st) = false → PAUSE st = false →
     PAUSE (timeStep solver_advance st) = false ∧
     sim_steps (calls (timeStep solver_advance st))
     = (Z.to_nat (NUM_STEPS_PER_RENDER st) + sim_steps (calls st))%nat).
Proof.
  intros HT. split.
  - intros Hlt. rewrite (timeStep_gate st HT Hlt). done.
  - intros Hge Hp. rewrite timeStep_running by (by rewrite ?Hge, ?andb_false_r).
    split.
    + by destruct (steps_frame (Z.to_nat (NUM_STEPS_PER_RENDER st)) st) as (->&_).
    + by rewrite steps_calls, sim_steps_iter.
Qed.

(** C7: [reset] sets the clock to 0 and applies the solver's reset to the
    particle state (positions back to those of the scenario load), and
    leaves the pause flag, like every other part of the state, as it was: a
    paused simulation stays paused and a running one stays running. *)
Theorem reset_keeps_pause st :
  time (reset st) = rlit 0 ∧
  model (reset st) = model_reset (model st) ∧
  m_x (model (reset st)) = m_x0 (model st) ∧
  PAUSE (reset st) = PAUSE st ∧
  (PAUSE st = true → timeStep solver_advance (reset st) = reset st) ∧
  PAUSE_AT (reset st) = PAUSE_AT st ∧
  NUM_STEPS_PER_RENDER (reset st) = NUM_STEPS_PER_RENDER st ∧
  timeStepSize (reset st) = timeStepSize st ∧
  calls (reset st) = calls st.
Proof. split_and!; try done. intros Hp. by apply timeStep_paused. Qed.
End StepDriver.

Lemma timeStep_pause_at_witness :
  let st : Demo Qc := demo_at (rlit 2) false 4 [] [] in
  PAUSE (timeStep idle_solver st) = true ∧ calls (timeStep idle_solver st) = [].
Proof.
  intros st.
  assert (rltb (rlit 0) (PAUSE_AT st) = true) as HT by reflexivity.
  assert (rltb (PAUSE_AT st) (time st) = true) as Hlt by reflexivity.
  destruct (timeStep_pause_at idle_solver st HT) as [Hgt _].
  destruct (Hgt Hlt) as (_ & Hp & Hc).
  split; [exact Hp | exact Hc].
Defined.

(** C2, as stated, fails: at a pre-step clock time equal to the threshold
    (T = 1.0, time = 1.0) the comparison [pauseAt < time] is false, the state
    stays Running and the tick executes its steps (here 4).  The binary64
    build behaves the same. *)
Lemma timeStep_at_threshold_steps :
  (let st : Demo Qc := demo_at (rlit 1) false 4 [] [] in
   rltb (rlit 0) (PAUSE_AT st) = true ∧ time st = PAUSE_AT st ∧
   PAUSE (timeStep idle_solver st) = false ∧
   sim_steps (calls (timeStep idle_solver st)) = 4%nat) ∧
  (let st : Demo float := demo_at (rlit 1) false 4 [] [] in
   rltb (rlit 0) (PAUSE_AT st) = true ∧ time st = PAUSE_AT st ∧
   PAUSE (timeStep idle_solver st) = false ∧
   sim_steps (calls (timeStep idle_solver st)) = 4%nat).
Proof. split; vm_compute; done. Qed.

(** ** The clock *)

Section Clock.
Context `{RealOps R}.
Variable solver_advance : R → FluidModel R → FluidModel R.
Implicit Types st : Demo R.

Lemma timeStep_cases st :
  (PAUSE (timeStep solver_advance st) = true ∧
   (timeStep solver_advance st = st ∨ timeStep solver_advance st = set_PAUSE true st)) ∨
  (PAUSE (timeStep solver_advance st) = false ∧
   timeStep solver_advance st
   = Nat.iter (Z.to_nat (NUM_STEPS_PER_RENDER st)) (one_step solver_advance) st).
Proof.
  destruct (rltb (rlit 0) (PAUSE_AT st) && rltb (PAUSE_AT st) (time st)) eqn:Hg.
  - apply andb_true_iff in Hg as [H1 H2].
    left. rewrite (timeStep_gate solver_advance st H1 H2). by split; [|right].
  - destruct (PAUSE st) eqn:Hp.
    + left. rewrite (timeStep_paused solver_advance st Hp). by split; [|left].
    + right. rewrite (timeStep_running solver_advance st Hp Hg). split; [|done].
      by destruct (steps_frame solver_advance (Z.to_nat (NUM_STEPS_PER_RENDER st)) st)
        as (->&_).
Qed.

Lemma timeStep_frame st :
  let st' := timeStep solver_advance st in
  PAUSE_AT st' = PAUSE_AT st ∧
  NUM_STEPS_PER_RENDER st' = NUM_STEPS_PER_RENDER st ∧
  timeStepSize st' = timeStepSize st.
Proof.
  cbv zeta. destruct (timeStep_cases st) as [[_ [->| ->]]|[_ ->]]; [done..|].
  by destruct (steps_frame solver_advance (Z.to_nat (NUM_STEPS_PER_RENDER st)) st)
    as (_&->&->&->&_).
Qed.

(** A tick either ends Paused with the clock untouched, or ends Running
    after [NUM_STEPS_PER_RENDER] clock advances of one step size each. *)
Lemma timeStep_time st :
  time (timeStep solver_advance st)
  = if PAUSE (timeStep solver_advance st) then time st
    else Nat.iter (Z.to_nat (NUM_STEPS_PER_RENDER st))
           (λ t, radd t (timeStepSize st)) (time st).
Proof.
  destruct (timeStep_cases st) as [[Hp [He|He]]|[Hp He]]; rewrite Hp.
  - by rewrite He.
  - by rewrite He.
  - rewrite He. apply steps_time.
Qed.

Lemma ticks_frame n st :
  let st' := ticks solver_advance n st in
  PAUSE_AT st' = PAUSE_AT st ∧
  NUM_STEPS_PER_RENDER st' = NUM_STEPS_PER_RENDER st ∧
  timeStepSize st' = timeStepSize st.
Proof.
  induction n as [|n IH]; [done|].
  destruct IH as (IH1 & IH2 & IH3). cbv zeta.
  change (ticks solver_advance (S n) st)
    with (timeStep solver_advance (ticks solver_advance n st)).
  destruct (timeStep_frame (ticks solver_advance n st)) as (-> & -> & ->). done.
Qed.

Lemma ticks_paused n st : PAUSE st = true → ticks solver_advance n st = st.
Proof.
  intros Hp. unfold ticks. induction n as [|n IH]; simpl; [done|].
  rewrite IH. by apply timeStep_paused.
Qed.

(** [n] ticks that all end Running advance the clock by [n * k] steps. *)
Lemma ticks_running_time n st :
  (∀ i, (i ≤ n)%nat → PAUSE (ticks solver_advance i st) = false) →
  time (ticks solver_advance n st)
  = Nat.iter (n * Z.to_nat (NUM_STEPS_PER_RENDER st))
      (λ t, radd t (timeStepSize st)) (time st).
Proof.
  induction n as [|n IH]; intros Hrun; [done|].
  change (ticks solver_advance (S n) st)
    with (timeStep solver_advance (ticks solver_advance n st)).
  rewrite timeStep_time.
  change (timeStep solver_advance (ticks solver_advance n st))
    with (ticks solver_advance (S n) st).
  rewrite (Hrun (S n)) by lia.
  destruct (ticks_frame n st) as (_ & -> & ->).
  rewrite IH by (intros; apply Hrun; lia).
  by rewrite <- Nat.iter_add.
Qed.

(** Ticks from a Running state, none of which starts with the clock past a
    positive threshold, run in full: [n] ticks are [n * k] fixed steps. *)
Lemma ticks_run n st :
  PAUSE st = false →
  (∀ j, (j < n)%nat →
     rltb (rlit 0) (PAUSE_AT st)
     && rltb (PAUSE_AT st)
          (Nat.iter (j * Z.to_nat (NUM_STEPS_PER_RENDER st))
             (λ t, radd t (timeStepSize st)) (time st)) = false) →
  ticks solver_advance n st
  = Nat.iter (n * Z.to_nat (NUM_STEPS_PER_RENDER st)) (one_step solver_advance) st.
Proof.
  intros Hp. induction n as [|n IH]; intros Hall; [done|].
  change (ticks solver_advance (S n) st)
    with (timeStep solver_advance (ticks solver_advance n st)).
  rewrite IH by (intros; apply Hall; lia).
  set (c := (n * Z.to_nat (NUM_STEPS_PER_RENDER st))%nat).
  destruct (steps_frame solver_advance c st) as (Hf1 & Hf2 & Hf3 & Hf4 & _).
  rewrite timeStep_running.
  - rewrite Hf3, <- Nat.iter_add. done.
  - by rewrite Hf1.
  - rewrite Hf2, steps_time. apply Hall. lia.
Qed.
End Clock.

Lemma Qc_iter_add (n : nat) (t h : Qc) :
  Nat.iter n (λ t, t + h)%Qc t = (t + Qc_of_Z (Z.of_nat n) * h)%Qc.
Proof.
  induction n as [|n IH].
  - change (Z.of_nat 0) with 0. rewrite Z2Qc_inj_0. simpl. ring.
  - rewrite Nat2Z.inj_succ. change (Z.succ (Z.of_nat n)) with (Z.of_nat n + 1).
    rewrite Z2Qc_inj_add, Z2Qc_inj_1. simpl. rewrite IH. ring.
Qed.

(** C5 (amended): for every implementation of [Real], with [k] steps per
    render tick and step size [h], a tick that starts Running and not past a
    positive pause-at threshold ends Running with the clock advanced by [k]
    successive additions of [h]; [N] such ticks in a row advance it by
    [N*k] successive additions; while Paused the whole state, and so the
    clock, is unchanged across any number of ticks; and every tick advances
    the clock by 0 or [k] whole steps.  In exact arithmetic [n] successive
    additions of [h] are [n*h]; in floating point they are not (see the
    drift below). *)
Theorem clock_advances_by_steps :
  (∀ (R : Type) (RO : RealOps R) (solver_advance : R → FluidModel R → FluidModel R)
     (st : Demo R) (N : nat),
     let k := Z.to_nat (NUM_STEPS_PER_RENDER st) in
     let clock (n : nat) := Nat.iter n (λ t, radd t (timeStepSize st)) (time st) in
     let passed (t : R) := rltb (rlit 0) (PAUSE_AT st) && rltb (PAUSE_AT st) t in
     (PAUSE st = false → passed (time st) = false →
        PAUSE (timeStep solver_advance st) = false ∧
        time (timeStep solver_advance st) = clock k) ∧
     (PAUSE st = false → (∀ i, (i < N)%nat → passed (clock (i * k)%nat) = false) →
        PAUSE (ticks solver_advance N st) = false ∧
        time (ticks solver_advance N st) = clock (N * k)%nat) ∧
     (PAUSE st = true → ticks solver_advance N st = st) ∧
     (∃ j, (j = 0 ∨ j = k)%nat ∧ time (timeStep solver_advance st) = clock j)) ∧
  (∀ (t h : Qc) (n : nat),
     Nat.iter n (λ t, radd t h) t = (t + Qc_of_Z (Z.of_nat n) * h)%Qc).
Proof.
  split; [|intros t h n; apply Qc_iter_add].
  intros R RO solver_advance st N. cbv zeta.
  set (k := Z.to_nat (NUM_STEPS_PER_RENDER st)). split_and!.
  - intros Hp Hg. rewrite (timeStep_running solver_advance st Hp Hg). fold k.
    split; [|apply steps_time].
    by destruct (steps_frame solver_advance k st) as (->&_).
  - intros Hp Hall. rewrite (ticks_run solver_advance N st Hp Hall). fold k.
    split; [|apply steps_time].
    by destruct (steps_frame solver_advance (N * k) st) as (->&_).
  - apply ticks_paused.
  - rewrite timeStep_time. fold k.
    destruct (PAUSE (timeStep solver_advance st)).
    + exists 0%nat. split; [by left|done].
    + exists k. split; [by right|done].
Qed.

(** The binary64 build: three running ticks of four steps of 0.0025 from
    time 0. *)
Lemma clock_advances_by_steps_witness :
  let st : Demo float := demo_at (rlit 0) false 4 [] [] in
  PAUSE (ticks idle_solver 3 st) = false ∧
  time (ticks idle_solver 3 st)
  = Nat.iter 12 (λ t, radd t (timeStepSize st)) (time st).
Proof.
  intros st.
  destruct (proj1 clock_advances_by_steps float _ idle_solver st 3%nat) as (_ & Hrun & _).
  apply Hrun; [reflexivity|].
  intros i Hi. destruct i as [|[|[|i]]]; [vm_compute; reflexivity..|lia].
Defined.

(** C5, as stated, fails in floating point: after three running ticks of
    four steps with [h = 0.0025] from time 0 the binary64 clock holds
    0.029999999999999995, which is not [N*k*h] (computed as
    0.029999999999999999 whether as [12*h] or as the literal 0.03). *)
Lemma clock_drifts_in_binary64 :
  let st : Demo float := demo_at (rlit 0) false 4 [] [] in
  PAUSE st = false ∧ PAUSE (ticks idle_solver 3 st) = false ∧
  Prim2SF (time (ticks idle_solver 3 st)) = S754_finite false 8646911284551351 (-58) ∧
  Prim2SF (rmul (rofZ (3 * 4)) (timeStepSize st))
  = S754_finite false 8646911284551352 (-58) ∧
  PrimFloat.eqb (time (ticks idle_solver 3 st))
    (radd (time st) (rmul (rofZ (3 * 4)) (timeStepSize st))) = false ∧
  PrimFloat.eqb (time (ticks idle_solver 3 st)) (rlit (3 # 100)) = false.
Proof. intros st. split_and!; vm_compute; reflexivity. Qed.

(** ** Drag perturbation *)

Lemma Vector3r_ext {R} (u v : Vector3r R) :
  vx u = vx v → vy u = vy v → vz u = vz v → u = v.
Proof. destruct u, v. simpl. by intros -> -> ->. Qed.

Section Perturbation.
Context `{RealOps R}.
Variable unproject : Z → Z → Unprojected R.
Implicit Types (st : Demo R) (vel : list (Vector3r R)) (sel : list Z).

Lemma mouseMove_unfold x y st :
  mouseMove unproject x y st
  = vel ← bump_loop (selectedParticles st) (impulse st (up_pos (unproject x y)))
           (m_v (model st));
    Some (set_oldMousePos (up_pos (unproject x y))
            (set_model (set_velocities vel (model st)) st)).
Proof. reflexivity. Qed.

Lemma read_in_range p vel :
  0 ≤ p < Z.of_nat (length vel) → ∃ v, read p vel = Some v ∧ vel !! Z.to_nat p = Some v.
Proof.
  intros Hp. unfold read. destruct (0 <=? p) eqn:E; [|lia].
  destruct (lookup_lt_is_Some_2 vel (Z.to_nat p)) as [v Hv]; [lia|]. eauto.
Qed.

Lemma bump_loop_total sel imp vel :
  Forall (λ p, 0 ≤ p < Z.of_nat (length vel)) sel →
  ∃ vel', bump_loop sel imp vel = Some vel' ∧ length vel' = length vel.
Proof.
  revert vel. induction sel as [|p sel IH]; intros vel Hr.
  - by exists vel.
  - apply list.Forall_cons in Hr as [Hp Hr].
    destruct (read_in_range p vel Hp) as (v & Hrd & _).
    unfold bump_loop. simpl. rewrite Hrd. csimpl.
    rewrite write_in_range by done.
    destruct (IH (<[Z.to_nat p:=vadd v imp]> vel)) as (vel' & Hl & Hlen).
    { by rewrite length_insert. }
    exists vel'. split; [exact Hl|]. by rewrite Hlen, length_insert.
Qed.

Lemma bump_loop_noop sel imp vel :
  (∀ v, vadd v imp = v) →
  Forall (λ p, 0 ≤ p < Z.of_nat (length vel)) sel →
  bump_loop sel imp vel = Some vel.
Proof.
  intros Hz. induction sel as [|p sel IH]; intros Hr; [done|].
  apply list.Forall_cons in Hr as [Hp Hr].
  destruct (read_in_range p vel Hp) as (v & Hrd & Hlk).
  unfold bump_loop. simpl. rewrite Hrd. csimpl.
  rewrite write_in_range, Hz, list_insert_id by done. by apply IH.
Qed.

Lemma bumped_lookup sel imp vel n :
  bumped sel imp vel !! n
  = match vel !! n with
    | Some v => Some (if decide (Z.of_nat n ∈ sel) then vadd v imp else v)
    | None => None
    end.
Proof. unfold bumped. rewrite list_lookup_imap. by destruct (vel !! n). Qed.

Lemma bumped_lookup_in sel imp vel p v :
  0 ≤ p → p ∈ sel → vel !! Z.to_nat p = Some v →
  bumped sel imp vel !! Z.to_nat p = Some (vadd v imp).
Proof.
  intros Hp Hin Hlk. rewrite bumped_lookup, Hlk.
  rewrite Z2Nat.id by done. by rewrite decide_True.
Qed.

Lemma bumped_lookup_out sel imp vel n :
  Z.of_nat n ∉ sel → bumped sel imp vel !! n = vel !! n.
Proof.
  intros Hnin. rewrite bumped_lookup.
  destruct (vel !! n); [|done]. by rewrite decide_False.
Qed.

Lemma bumped_length sel imp vel : length (bumped sel imp vel) = length vel.
Proof. apply length_imap. Qed.

Lemma bumped_nil imp vel : bumped [] imp vel = vel.
Proof.
  apply list_eq. intros n. apply bumped_lookup_out, not_elem_of_nil.
Qed.

Lemma bump_loop_bumped sel imp vel :
  NoDup sel → Forall (λ p, 0 ≤ p < Z.of_nat (length vel)) sel →
  bump_loop sel imp vel = Some (bumped sel imp vel).
Proof.
  revert vel. induction sel as [|p sel IH]; intros vel Hnd Hr.
  - by rewrite bumped_nil.
  - apply list.NoDup_cons in Hnd as [Hnp Hnd].
    apply list.Forall_cons in Hr as [Hp Hr].
    destruct (read_in_range p vel Hp) as (v & Hrd & Hlk).
    unfold bump_loop. simpl. rewrite Hrd. csimpl.
    rewrite write_in_range by done.
    fold (bump_loop sel imp (<[Z.to_nat p:=vadd v imp]> vel)).
    rewrite IH; [|done|by rewrite length_insert].
    f_equal. apply list_eq. intros n. rewrite !bumped_lookup.
    destruct (decide (n = Z.to_nat p)) as [->|Hne].
    + rewrite list_lookup_insert_eq, Hlk by lia.
      rewrite Z2Nat.id by lia.
      rewrite decide_False by done. rewrite decide_True by left. done.
    + rewrite list_lookup_insert_ne by done.
      destruct (vel !! n) as [w|]; [|done]. f_equal.
      destruct (decide (Z.of_nat n ∈ sel)) as [Hin|Hnin].
      * rewrite decide_True by (by right). done.
      * rewrite decide_False; [done|].
        intros [Heq|?]%elem_of_cons; [lia|done].
Qed.

(** Two rounds of bumps are one round with the combined impulse whenever
    vector addition lets the impulses combine. *)
Lemma bumped_twice sel imp1 imp2 imp12 vel :
  (∀ v, vadd (vadd v imp1) imp2 = vadd v imp12) →
  bumped sel imp2 (bumped sel imp1 vel) = bumped sel imp12 vel.
Proof.
  intros Hadd. apply list_eq. intros n. rewrite !bumped_lookup.
  destruct (vel !! n) as [v|]; [|done].
  destruct (decide (Z.of_nat n ∈ sel)); [by rewrite Hadd|done].
Qed.

Lemma bump_loop_cons p sel imp vel :
  bump_loop (p :: sel) imp vel
  = (v ← read p vel; write p (vadd v imp) vel) ≫= bump_loop sel imp.
Proof. reflexivity. Qed.

Lemma read_Some_range {A} p (l : list A) v :
  read p l = Some v → 0 ≤ p < Z.of_nat (length l).
Proof.
  unfold read. destruct (0 <=? p) eqn:E; [|done].
  intros Hl%lookup_lt_Some. lia.
Qed.

Lemma bump_loop_Some_inv sel imp vel vel' :
  bump_loop sel imp vel = Some vel' →
  Forall (λ p, 0 ≤ p < Z.of_nat (length vel)) sel ∧ length vel' = length vel.
Proof.
  revert vel. induction sel as [|p sel IH]; intros vel.
  - intros [= <-]. by split.
  - rewrite bump_loop_cons. destruct (read p vel) as [v|] eqn:Hrd; [|done].
    pose proof (read_Some_range p vel v Hrd) as Hp. csimpl.
    rewrite write_in_range by done. csimpl. intros [HF Hl]%IH.
    rewrite length_insert in HF, Hl. split; [|done].
    by apply list.Forall_cons.
Qed.

Lemma occurrences_nil n : occurrences [] n = 0%nat.
Proof. reflexivity. Qed.

Lemma occurrences_cons_eq p sel n :
  p = Z.of_nat n → occurrences (p :: sel) n = S (occurrences sel n).
Proof. intros Hp. unfold occurrences. by rewrite filter_cons_True. Qed.

Lemma occurrences_cons_ne p sel n :
  p ≠ Z.of_nat n → occurrences (p :: sel) n = occurrences sel n.
Proof. intros Hp. unfold occurrences. by rewrite filter_cons_False. Qed.

Lemma occurrences_perm sel sel' n : sel ≡ₚ sel' → occurrences sel n = occurrences sel' n.
Proof. intros Hperm. unfold occurrences. by rewrite Hperm. Qed.

Lemma bumped_each_lookup sel imp vel n :
  bumped_each sel imp vel !! n
  = (λ v, Nat.iter (occurrences sel n) (λ v, vadd v imp) v) <$> vel !! n.
Proof. unfold bumped_each. by rewrite list_lookup_imap. Qed.

Lemma bumped_each_length sel imp vel : length (bumped_each sel imp vel) = length vel.
Proof. apply length_imap. Qed.

Lemma bump_loop_each sel imp vel :
  Forall (λ p, 0 ≤ p < Z.of_nat (length vel)) sel →
  bump_loop sel imp vel = Some (bumped_each sel imp vel).
Proof.
  revert vel. induction sel as [|p sel IH]; intros vel Hr.
  - simpl. f_equal. apply list_eq. intros n. rewrite bumped_each_lookup.
    by destruct (vel !! n).
  - apply list.Forall_cons in Hr as [Hp Hr].
    destruct (read_in_range p vel Hp) as (v & Hrd & Hlk).
    rewrite bump_loop_cons, Hrd. csimpl. rewrite write_in_range by done. csimpl.
    rewrite IH by (by rewrite length_insert).
    f_equal. apply list_eq. intros n. rewrite !bumped_each_lookup.
    destruct (decide (n = Z.to_nat p)) as [->|Hne].
    + rewrite list_lookup_insert_eq, Hlk by lia.
      rewrite (occurrences_cons_eq p sel) by lia.
      cbn [fmap option_fmap option_map]. by rewrite Nat.iter_succ_r.
    + rewrite list_lookup_insert_ne by done.
      rewrite (occurrences_cons_ne p sel) by lia. done.
Qed.

(** With an impulse that is neutral for the selected velocities the loop
    changes nothing. *)
Lemma bump_loop_neutral sel imp vel :
  Forall (λ p, 0 ≤ p < Z.of_nat (length vel)) sel →
  (∀ p v, p ∈ sel → vel !! Z.to_nat p = Some v → vadd v imp = v) →
  bump_loop sel imp vel = Some vel.
Proof.
  induction sel as [|p sel IH]; intros Hr Hz; [done|].
  apply list.Forall_cons in Hr as [Hp Hr].
  destruct (read_in_range p vel Hp) as (v & Hrd & Hlk).
  rewrite bump_loop_cons, Hrd. csimpl.
  rewrite write_in_range by done. csimpl.
  rewrite (Hz p v) by (done || left). rewrite list_insert_id by done.
  apply IH; [done|]. intros q w Hq. apply Hz. by right.
Qed.

(** What [reset] leaves alone. *)
Lemma reset_frame st :
  selectedParticles (reset st) = selectedParticles st ∧
  mouseMoveFunc (reset st) = mouseMoveFunc st ∧
  oldMousePos (reset st) = oldMousePos st ∧
  timeStepSize (reset st) = timeStepSize st.
Proof. done. Qed.

(** C10: [reset] leaves the selection, the registered mouse-move handler
    and the drag anchor unchanged, so every index selected before is still
    selected; a drag update after [reset] succeeds and adds its impulse to
    the velocity (zero after the restore) of each of those indices, whose
    positions are back at their scenario-build values. *)
Theorem reset_keeps_selection st x y :
  NoDup (selectedParticles st) →
  Forall (λ p, 0 ≤ p < Z.of_nat (length (m_x0 (model st)))) (selectedParticles st) →
  selectedParticles (reset st) = selectedParticles st ∧
  mouseMoveFunc (reset st) = mouseMoveFunc st ∧
  oldMousePos (reset st) = oldMousePos st ∧
  ∃ st',
    mouseMove unproject x y (reset st) = Some st' ∧
    selectedParticles st' = selectedParticles st ∧
    mouseMoveFunc st' = mouseMoveFunc st ∧
    ∀ p, p ∈ selectedParticles st →
      m_v (model st') !! Z.to_nat p
      = Some (vadd vzero
                (vdivs (vscale (rlit 5) (vsub (up_pos (unproject x y)) (oldMousePos st)))
                       (timeStepSize st))) ∧
      m_x (model st') !! Z.to_nat p = m_x0 (model st) !! Z.to_nat p.
Proof.
  intros Hnd Hr. split_and!; [done..|].
  rewrite mouseMove_unfold.
  change (selectedParticles (reset st)) with (selectedParticles st).
  change (m_v (model (reset st))) with (replicate (length (m_x0 (model st))) (vzero (R:=R))).
  rewrite bump_loop_bumped; [|done|by rewrite length_replicate].
  eexists. split; [reflexivity|]. split_and!; [done..|].
  intros p Hp. split; [|done]. simpl.
  rewrite list.Forall_forall in Hr. specialize (Hr p Hp).
  apply bumped_lookup_in; [lia|done|].
  apply lookup_replicate_2. lia.
Qed.
End Perturbation.

(** ** Drag perturbation in exact arithmetic *)

Section ExactPerturbation.
Variable unproject : Z → Z → Unprojected Qc.
Implicit Types (st : Demo Qc) (v a p : Vector3r Qc).

Lemma Qc_impulse_gain st p :
  impulse st p = vscale (rlit 5 / timeStepSize st)%Qc (vsub p (oldMousePos st)).
Proof.
  unfold impulse, vdivs, vscale, vsub. simpl. f_equal; unfold Qcdiv; ring.
Qed.

Lemma Qc_impulse_add a p1 p2 (h : Qc) v :
  vadd (vadd v (vdivs (vscale (rlit 5) (vsub p1 a)) h))
       (vdivs (vscale (rlit 5) (vsub p2 p1)) h)
  = vadd v (vdivs (vscale (rlit 5) (vsub p2 a)) h).
Proof.
  unfold vadd, vdivs, vscale, vsub. simpl. f_equal; unfold Qcdiv; ring.
Qed.

Lemma Qc_impulse_zero a (h : Qc) v :
  vadd v (vdivs (vscale (rlit 5) (vsub a a)) h) = v.
Proof.
  destruct v as [x y z]. unfold vadd, vdivs, vscale, vsub. simpl.
  f_equal; unfold Qcdiv; ring.
Qed.

Lemma Qc_delta_sum a p1 p2 : vsub p2 a = vadd (vsub p1 a) (vsub p2 p1).
Proof. unfold vadd, vsub. simpl. f_equal; ring. Qed.

(** In exact arithmetic a drag update to the unprojected position [p1]
    adds [(5/h) * (p1 - anchor)] to the velocity of every selected particle,
    and two consecutive updates, with deltas [d1 = p1 - anchor] and
    [d2 = p2 - p1], end in the very state a single update with delta
    [d1 + d2] ends in. *)
Lemma Qc_drag_updates st x1 y1 x2 y2 :
  NoDup (selectedParticles st) →
  Forall (λ i, 0 ≤ i < Z.of_nat (length (m_v (model st)))) (selectedParticles st) →
  let h := timeStepSize st in
  let a := oldMousePos st in
  let p1 := up_pos (unproject x1 y1) in
  let p2 := up_pos (unproject x2 y2) in
  ∃ st1 st12,
    mouseMove unproject x1 y1 st = Some st1 ∧
    oldMousePos st1 = p1 ∧
    selectedParticles st1 = selectedParticles st ∧
    (∀ i v, i ∈ selectedParticles st →
       m_v (model st) !! Z.to_nat i = Some v →
       m_v (model st1) !! Z.to_nat i
       = Some (vadd v (vscale (rlit 5 / h)%Qc (vsub p1 a)))) ∧
    (∀ n, Z.of_nat n ∉ selectedParticles st →
       m_v (model st1) !! n = m_v (model st) !! n) ∧
    mouseMove unproject x2 y2 st1 = Some st12 ∧
    mouseMove unproject x2 y2 st = Some st12 ∧
    vsub p2 a = vadd (vsub p1 a) (vsub p2 p1).
Proof.
  intros Hnd Hr h a p1 p2.
  rewrite !mouseMove_unfold. fold p1 p2.
  rewrite bump_loop_bumped by done. csimpl.
  eexists _, _. split_and!.
  - reflexivity.
  - done.
  - done.
  - intros i v Hi Hv. simpl.
    change (vscale (Q2Qc 5 / h)%Qc (vsub p1 a))
      with (vscale (rlit 5 / timeStepSize st)%Qc (vsub p1 (oldMousePos st))).
    rewrite <- Qc_impulse_gain.
    rewrite list.Forall_forall in Hr. specialize (Hr i Hi).
    apply bumped_lookup_in; [lia|done|done].
  - intros n Hn. simpl. by apply bumped_lookup_out.
  - rewrite mouseMove_unfold. simpl.
    rewrite bump_loop_bumped; [|done|by rewrite bumped_length]. csimpl.
    reflexivity.
  - rewrite bump_loop_bumped by done. csimpl.
    unfold set_oldMousePos, set_model, set_velocities. simpl.
    do 3 f_equal. symmetry. apply bumped_twice. intros v.
    unfold impulse. simpl. apply Qc_impulse_add.
  - apply Qc_delta_sum.
Qed.

(** In exact arithmetic an update whose position equals the previous
    anchor is a no-op. *)
Lemma Qc_mouseMove_same_anchor st x y :
  Forall (λ i, 0 ≤ i < Z.of_nat (length (m_v (model st)))) (selectedParticles st) →
  (∃ st', mouseMove unproject x y st = Some st' ∧
          oldMousePos st' = up_pos (unproject x y)) ∧
  (∀ unproject' : Z → Z → Unprojected Qc,
     up_pos (unproject' x y) = up_pos (unproject x y) →
     mouseMove unproject' x y st = mouseMove unproject x y st) ∧
  (up_pos (unproject x y) = oldMousePos st → mouseMove unproject x y st = Some st).
Proof.
  intros Hr. split_and!.
  - rewrite mouseMove_unfold.
    destruct (bump_loop_total (selectedParticles st)
                (impulse st (up_pos (unproject x y))) (m_v (model st)) Hr)
      as (vel' & -> & _).
    csimpl. eexists. split; reflexivity.
  - intros unproject' He. rewrite !mouseMove_unfold. by rewrite He.
  - intros He. rewrite mouseMove_unfold, He.
    rewrite bump_loop_noop; [|intros v; apply Qc_impulse_zero|done].
    csimpl. by destruct st as [[] ? ? ? ? ? ? ? ? ?].
Qed.
End ExactPerturbation.

(** ** Drag updates for every implementation of [Real] *)

(** C6 (amended): for every implementation of [Real] and a selection
    without repeats inside the velocity array, a drag update to the
    unprojected position [p1] adds [5*(p1 - anchor)/h], computed in [Real],
    to the velocity of every selected particle, leaves the other velocities
    alone and moves the anchor to [p1].  After two consecutive updates, to
    [p1] then [p2], the anchor is [p2] as after a single update to [p2]
    (no anchor drift), a selected velocity is [(v + imp1) + imp2] where the
    single update gives [v + imp12], and the two states differ in nothing
    but the velocities; they are the same state whenever the two impulses
    add up to the single one.  In exact arithmetic with [h <> 0] they always
    do: the impulse is [(5/h)] times the delta, [d1 + d2] is the single
    delta, and the two updates end in the state of the single update. *)
Theorem drag_updates_accumulate :
  (∀ (R : Type) (RO : RealOps R) (unproject : Z → Z → Unprojected R)
     (st : Demo R) (x1 y1 x2 y2 : Z),
     NoDup (selectedParticles st) →
     Forall (λ i, 0 ≤ i < Z.of_nat (length (m_v (model st)))) (selectedParticles st) →
     let h := timeStepSize st in
     let a := oldMousePos st in
     let p1 := up_pos (unproject x1 y1) in
     let p2 := up_pos (unproject x2 y2) in
     let imp1 := vdivs (vscale (rlit 5) (vsub p1 a)) h in
     let imp2 := vdivs (vscale (rlit 5) (vsub p2 p1)) h in
     let imp12 := vdivs (vscale (rlit 5) (vsub p2 a)) h in
     ∃ st1 st12 st2,
       mouseMove unproject x1 y1 st = Some st1 ∧
       oldMousePos st1 = p1 ∧
       selectedParticles st1 = selectedParticles st ∧
       (∀ i v, i ∈ selectedParticles st →
          m_v (model st) !! Z.to_nat i = Some v →
          m_v (model st1) !! Z.to_nat i = Some (vadd v imp1)) ∧
       (∀ n, Z.of_nat n ∉ selectedParticles st →
          m_v (model st1) !! n = m_v (model st) !! n) ∧
       mouseMove unproject x2 y2 st1 = Some st12 ∧
       mouseMove unproject x2 y2 st = Some st2 ∧
       oldMousePos st12 = p2 ∧ oldMousePos st2 = p2 ∧
       (∀ i v, i ∈ selectedParticles st →
          m_v (model st) !! Z.to_nat i = Some v →
          m_v (model st12) !! Z.to_nat i = Some (vadd (vadd v imp1) imp2) ∧
          m_v (model st2) !! Z.to_nat i = Some (vadd v imp12)) ∧
       (∀ n, Z.of_nat n ∉ selectedParticles st →
          m_v (model st12) !! n = m_v (model st) !! n ∧
          m_v (model st2) !! n = m_v (model st) !! n) ∧
       st12 = set_model (set_velocities (m_v (model st12)) (model st2)) st2 ∧
       ((∀ v, vadd (vadd v imp1) imp2 = vadd v imp12) → st12 = st2)) ∧
  (∀ (unproject : Z → Z → Unprojected Qc) (st : Demo Qc) (x1 y1 x2 y2 : Z),
     NoDup (selectedParticles st) →
     Forall (λ i, 0 ≤ i < Z.of_nat (length (m_v (model st)))) (selectedParticles st) →
     timeStepSize st ≠ 0%Qc →
     let h := timeStepSize st in
     let a := oldMousePos st in
     let p1 := up_pos (unproject x1 y1) in
     let p2 := up_pos (unproject x2 y2) in
     vdivs (vscale (rlit 5) (vsub p1 a)) h = vscale (rlit 5 / h)%Qc (vsub p1 a) ∧
     vsub p2 a = vadd (vsub p1 a) (vsub p2 p1) ∧
     mouseMove unproject x1 y1 st ≫= mouseMove unproject x2 y2
     = mouseMove unproject x2 y2 st).
Proof.
  split.
  - intros R RO unproject st x1 y1 x2 y2 Hnd Hr h a p1 p2 imp1 imp2 imp12.
    set (vel := m_v (model st)) in *. set (sel := selectedParticles st) in *.
    set (st1 := set_oldMousePos p1
                  (set_model (set_velocities (bumped sel imp1 vel) (model st)) st)).
    set (st2 := set_oldMousePos p2
                  (set_model (set_velocities (bumped sel imp12 vel) (model st)) st)).
    set (st12 := set_oldMousePos p2
                   (set_model (set_velocities (bumped sel imp2 (bumped sel imp1 vel))
                                 (model st1)) st1)).
    assert (mouseMove unproject x1 y1 st = Some st1) as H1.
    { rewrite mouseMove_unfold. fold p1 sel vel. change (impulse st p1) with imp1.
      by rewrite bump_loop_bumped. }
    assert (mouseMove unproject x2 y2 st = Some st2) as H2.
    { rewrite mouseMove_unfold. fold p2 sel vel. change (impulse st p2) with imp12.
      by rewrite bump_loop_bumped. }
    assert (mouseMove unproject x2 y2 st1 = Some st12) as H12.
    { rewrite mouseMove_unfold. fold p2. change (impulse st1 p2) with imp2.
      change (selectedParticles st1) with sel.
      change (m_v (model st1)) with (bumped sel imp1 vel).
      rewrite bump_loop_bumped; [done|done|by rewrite bumped_length]. }
    assert (∀ i, i ∈ sel → 0 ≤ i) as Hpos.
    { intros i Hi. rewrite list.Forall_forall in Hr. specialize (Hr i Hi). lia. }
    exists st1, st12, st2. split_and!; try done.
    + intros i v Hi Hv. apply bumped_lookup_in; [by apply Hpos|done|done].
    + intros n Hn. by apply bumped_lookup_out.
    + intros i v Hi Hv. split.
      * apply bumped_lookup_in; [by apply Hpos|done|].
        apply bumped_lookup_in; [by apply Hpos|done|done].
      * apply bumped_lookup_in; [by apply Hpos|done|done].
    + intros n Hn. unfold st12, st2. cbn [model m_v set_velocities set_oldMousePos set_model].
      rewrite !bumped_lookup_out by done. done.
    + intros Hadd. unfold st12, st2.
      rewrite (bumped_twice sel imp1 imp2 imp12 vel Hadd). reflexivity.
  - intros unproject st x1 y1 x2 y2 Hnd Hr Hh h a p1 p2.
    destruct (Qc_drag_updates unproject st x1 y1 x2 y2 Hnd Hr)
      as (st1 & st12 & H1 & _ & _ & _ & _ & H2 & H3 & Hd).
    split_and!.
    + apply (Qc_impulse_gain st p1).
    + exact Hd.
    + rewrite H1. csimpl. by rewrite H2, H3.
Qed.

(** ** Examples of drag updates *)

(** The binary64 build, two particles with the second one selected: an
    update to x = 0.1 and one to x = 0.4 leave the anchor where a single
    update to x = 0.4 leaves it. *)
Lemma drag_updates_accumulate_witness :
  ∃ st12 st2 : Demo float,
    mouseMove tenth_unproject 1 0 two_particles ≫= mouseMove tenth_unproject 4 0
    = Some st12 ∧
    mouseMove tenth_unproject 4 0 two_particles = Some st2 ∧
    oldMousePos st12 = oldMousePos st2.
Proof.
  assert (NoDup (selectedParticles (two_particles (R:=float)))) as Hnd
    by apply NoDup_singleton.
  assert (Forall (λ i, 0 ≤ i < Z.of_nat (length (m_v (model (two_particles (R:=float))))))
            (selectedParticles (two_particles (R:=float)))) as Hr
    by (repeat constructor; simpl; lia).
  destruct (proj1 drag_updates_accumulate float _ tenth_unproject two_particles
              1 0 4 0 Hnd Hr)
    as (st1 & st12 & st2 & H1 & _ & _ & _ & _ & H12 & H2 & Ha12 & Ha2 & _).
  exists st12, st2. rewrite H1. split_and!; [exact H12|exact H2|].
  by rewrite Ha12, Ha2.
Defined.

(** C6, as stated, fails in floating point: in the binary64 build with
    [h = 0.0025], updates to x = 0.1 and then to x = 0.4 leave the selected
    particle with velocity 800.00000000000011, a single update to x = 0.4
    with velocity 800; the anchors agree. *)
Lemma drag_totals_differ_in_binary64 :
  ∃ (st12 st2 : Demo float) (v12 v2 : Vector3r float),
    mouseMove tenth_unproject 1 0 two_particles ≫= mouseMove tenth_unproject 4 0
    = Some st12 ∧
    mouseMove tenth_unproject 4 0 two_particles = Some st2 ∧
    oldMousePos st12 = oldMousePos st2 ∧
    m_v (model st12) !! 1%nat = Some v12 ∧
    m_v (model st2) !! 1%nat = Some v2 ∧
    Prim2SF (vx v12) = S754_finite false 7036874417766401 (-43) ∧
    Prim2SF (vx v2) = S754_finite false 7036874417766400 (-43) ∧
    PrimFloat.eqb (vx v12) (vx v2) = false.
Proof.
  eexists _, _, _, _. split_and!; try (vm_compute; reflexivity).
Qed.

(** C8 (amended): [mouseMove] has no failure path, for every
    implementation of [Real].  Whether or not the [unproject] call was
    valid, the update (given a selection within the particle range) takes
    the position the call left in [mousePos] as the cursor position, adds
    the impulse [5*(mousePos - anchor)/h] to the velocity of every selected
    particle, once per occurrence in the selection, and moves the anchor
    there; two toolkits that leave the same position lead to the same state
    whatever their validity.  The selected velocities stay as they are only
    when that impulse is neutral for them; in exact arithmetic with [h <> 0]
    it is when the position equals the previous anchor, and the update then
    returns the state unchanged. *)
Theorem mouseMove_no_failure_path :
  (∀ (R : Type) (RO : RealOps R) (unproject : Z → Z → Unprojected R)
     (st : Demo R) (x y : Z),
     Forall (λ i, 0 ≤ i < Z.of_nat (length (m_v (model st)))) (selectedParticles st) →
     let pos := up_pos (unproject x y) in
     let imp := vdivs (vscale (rlit 5) (vsub pos (oldMousePos st))) (timeStepSize st) in
     (∃ st', mouseMove unproject x y st = Some st' ∧
        oldMousePos st' = pos ∧
        (∀ n v, m_v (model st) !! n = Some v →
           m_v (model st') !! n
           = Some (Nat.iter (occurrences (selectedParticles st) n)
                     (λ v, vadd v imp) v)) ∧
        (∀ i v, i ∈ selectedParticles st → NoDup (selectedParticles st) →
           m_v (model st) !! Z.to_nat i = Some v →
           m_v (model st') !! Z.to_nat i = Some (vadd v imp))) ∧
     (∀ unproject' : Z → Z → Unprojected R,
        up_pos (unproject' x y) = pos →
        mouseMove unproject' x y st = mouseMove unproject x y st) ∧
     ((∀ p v, p ∈ selectedParticles st →
         m_v (model st) !! Z.to_nat p = Some v → vadd v imp = v) →
      mouseMove unproject x y st = Some (set_oldMousePos pos st))) ∧
  (∀ (unproject : Z → Z → Unprojected Qc) (st : Demo Qc) (x y : Z),
     Forall (λ i, 0 ≤ i < Z.of_nat (length (m_v (model st)))) (selectedParticles st) →
     timeStepSize st ≠ 0%Qc →
     up_pos (unproject x y) = oldMousePos st →
     mouseMove unproject x y st = Some st).
Proof.
  split.
  - intros R RO unproject st x y Hr pos imp. split_and!.
    + rewrite mouseMove_unfold. fold pos. change (impulse st pos) with imp.
      rewrite bump_loop_each by done. csimpl.
      eexists. split; [reflexivity|]. split; [done|]. split.
      * intros n v Hv. cbn [model m_v set_velocities set_oldMousePos set_model].
        by rewrite bumped_each_lookup, Hv.
      * intros i v Hi Hnd Hv. cbn [model m_v set_velocities set_oldMousePos set_model].
        assert (bumped_each (selectedParticles st) imp (m_v (model st))
                = bumped (selectedParticles st) imp (m_v (model st))) as ->.
        { apply (inj Some). rewrite <- bump_loop_each by done.
          by apply bump_loop_bumped. }
        rewrite list.Forall_forall in Hr. specialize (Hr i Hi).
        apply bumped_lookup_in; [lia|done|done].
    + intros unproject' He. rewrite !mouseMove_unfold. by rewrite He.
    + intros Hz. rewrite mouseMove_unfold. fold pos. change (impulse st pos) with imp.
      rewrite bump_loop_neutral by done. csimpl.
      by destruct st as [[] ? ? ? ? ? ? ? ? ?].
  - intros unproject st x y Hr _ He.
    destruct (Qc_mouseMove_same_anchor unproject st x y Hr) as (_ & _ & Hn).
    by apply Hn.
Qed.

(** The binary64 build, a cursor left of the viewport: the update goes
    through and moves the anchor to the position the call produced. *)
Lemma mouseMove_no_failure_path_witness :
  ∃ st' : Demo float,
    mouseMove flat_unproject (-5) 0 two_particles = Some st' ∧
    oldMousePos st' = Vec3 (rofZ (-5)) (rofZ 0) (rlit 0).
Proof.
  assert (Forall (λ i, 0 ≤ i < Z.of_nat (length (m_v (model (two_particles (R:=float))))))
            (selectedParticles (two_particles (R:=float)))) as Hr
    by (repeat constructor; simpl; lia).
  destruct (proj1 mouseMove_no_failure_path float _ flat_unproject two_particles
              (-5) 0 Hr)
    as ((st' & Hm & Ha & _) & _).
  exists st'. split; [exact Hm | exact Ha].
Defined.

(** C8, as stated, fails: a cursor left of the viewport makes the
    [unproject] call invalid, yet the update moves the anchor to the position
    the call produced and changes the velocity of the selected particle, in
    exact arithmetic and in binary64. *)
Lemma mouseMove_invalid_unproject_moves :
  (up_valid (flat_unproject (R:=Qc) (-5) 0) = false ∧
   ∃ st' : Demo Qc,
     mouseMove flat_unproject (-5) 0 two_particles = Some st' ∧
     oldMousePos st' ≠ oldMousePos two_particles ∧
     m_v (model st') !! 1%nat ≠ m_v (model two_particles) !! 1%nat) ∧
  (up_valid (flat_unproject (R:=float) (-5) 0) = false ∧
   ∃ (st' : Demo float) (v' v : Vector3r float),
     mouseMove flat_unproject (-5) 0 two_particles = Some st' ∧
     PrimFloat.eqb (vx (oldMousePos st')) (vx (oldMousePos two_particles)) = false ∧
     m_v (model st') !! 1%nat = Some v' ∧
     m_v (model two_particles) !! 1%nat = Some v ∧
     PrimFloat.eqb (vx v') (vx v) = false).
Proof.
  split.
  - split; [reflexivity|].
    eexists. split; [reflexivity|]. split.
    + intros Heq. apply (f_equal vx) in Heq. apply (f_equal this) in Heq.
      vm_compute in Heq. discriminate.
    + intros Heq. apply (f_equal (λ o, this (vx (default vzero o)))) in Heq.
      vm_compute in Heq. discriminate.
  - split; [reflexivity|].
    eexists _, _, _. split_and!; vm_compute; reflexivity.
Qed.

(** The binary64 build, two particles that have moved away from their
    scenario positions and are in motion, the clock at 1.5, the second
    particle selected: after [reset] the selection is as before and a drag
    update finds that particle back at its scenario position. *)
Lemma reset_keeps_selection_witness :
  let st : Demo float :=
    mkDemo (mkFluidModel particleRadius
              [vzero; vzero]
              [Vec3 (rlit 1) (rlit 0) (rlit 0); Vec3 (rlit 0) (rlit 1) (rlit 0)]
              [Vec3 (rlit 0) (rlit 0) (rlit 1); Vec3 (rlit 0) (rlit 2) (rlit 0)] [])
      (rlit (3 # 2)) (rlit (25 # 10000)) true (rlit 1) 1 [1] vzero
      (2, Some MouseMove) [] in
  selectedParticles (reset st) = [1] ∧
  ∃ st' : Demo float,
    mouseMove flat_unproject 1 0 (reset st) = Some st' ∧
    selectedParticles st' = [1] ∧
    m_x (model st') !! 1%nat = Some vzero.
Proof.
  intros st.
  assert (NoDup (selectedParticles st)) as Hnd by apply NoDup_singleton.
  assert (Forall (λ i, 0 ≤ i < Z.of_nat (length (m_x0 (model st))))
            (selectedParticles st)) as Hr
    by (repeat constructor; simpl; lia).
  destruct (reset_keeps_selection flat_unproject st 1 0 Hnd Hr)
    as (Hs & _ & _ & st' & Hm & Hs' & _ & Hv).
  split; [exact Hs|]. exists st'. split_and!; [exact Hm | exact Hs' |].
  assert (1 ∈ selectedParticles st) as Hin by (left).
  exact (proj2 (Hv 1 Hin)).
Defined.

(** ** Geometry of the fluid grid (exact arithmetic) *)

Section GridGeometry.
Local Open Scope Qc_scope.
Implicit Types i j k : Z.

Lemma Qc_fluid_coordinates i j k :
  vx (fluid_position (R:=Qc) i j k) = wall_x1 + diam * (Qc_of_Z i + 1) ∧
  vy (fluid_position (R:=Qc) i j k) = wall_y1 + diam * (Qc_of_Z j + 1) ∧
  vz (fluid_position (R:=Qc) i j k) = wall_z1 + diam * (Qc_of_Z k + 1).
Proof.
  assert (startX = wall_x1 + diam) as Hx by (apply Qc_is_canon; vm_compute; reflexivity).
  assert (startY = wall_y1 + diam) as Hy by (apply Qc_is_canon; vm_compute; reflexivity).
  assert (startZ = wall_z1 + diam) as Hz by (apply Qc_is_canon; vm_compute; reflexivity).
  unfold fluid_position, vadd, vscale.
  cbn [vx vy vz radd rmul rofZ Qc_RealOps]. rewrite Hx, Hy, Hz.
  split_and!; ring.
Qed.

Lemma Qc_diam_pos : 0 < diam (R:=Qc).
Proof. reflexivity. Qed.

Lemma Qc_axis_monotone (o : Qc) a b :
  (a ≤ b)%Z → o + diam * (Qc_of_Z a + 1) ≤ o + diam * (Qc_of_Z b + 1).
Proof.
  intros Hab. apply Qcplus_le_mono_l.
  apply Qcmult_le_mono_nonneg_l; [apply Qclt_le_weak, Qc_diam_pos|].
  apply Qcplus_le_mono_r. apply (proj1 (Z2Qc_inj_le a b) Hab).
Qed.

Lemma Qc_neighbours i j k :
  fluid_position (R:=Qc) (i + 1) j k
    = vadd (fluid_position i j k) (Vec3 diam 0 0) ∧
  fluid_position (R:=Qc) i (j + 1) k
    = vadd (fluid_position i j k) (Vec3 0 diam 0) ∧
  fluid_position (R:=Qc) i j (k + 1)
    = vadd (fluid_position i j k) (Vec3 0 0 diam).
Proof.
  unfold fluid_position, vadd, vscale.
  cbn [vx vy vz radd rmul rofZ Qc_RealOps].
  rewrite !Z2Qc_inj_add, Z2Qc_inj_1.
  split_and!; f_equal; ring.
Qed.

(** The geometry of the grid in exact arithmetic: spacing exactly
    [2*radius], lowest layer at height [2*radius], one spacing from the back
    and the front wall, one spacing from the left wall and 65 spacings from
    the right wall. *)
Lemma Qc_fluid_grid_geometry (fill : Vector3r Qc) :
  ∃ fp : list (Vector3r Qc),
    fluidParticles fill = Some fp ∧
    diam (R:=Qc) = 2 * particleRadius ∧
    (∀ i j k, (0 ≤ i < width)%Z → (0 ≤ j < height)%Z → (0 ≤ k < depth)%Z →
       ∃ p, fp !! Z.to_nat (i * height * depth + j * depth + k) = Some p ∧
            vx p = wall_x1 + diam * (Qc_of_Z i + 1) ∧
            vy p = wall_y1 + diam * (Qc_of_Z j + 1) ∧
            vz p = wall_z1 + diam * (Qc_of_Z k + 1) ∧
            wall_x1 + diam ≤ vx p ≤ wall_x1 + diam * Qc_of_Z width ∧
            wall_y1 + diam ≤ vy p ≤ wall_y1 + diam * Qc_of_Z height ∧
            wall_z1 + diam ≤ vz p ≤ wall_z1 + diam * Qc_of_Z depth) ∧
    (∀ i j k,
       fluid_position (R:=Qc) (i + 1) j k
         = vadd (fluid_position i j k) (Vec3 diam 0 0) ∧
       fluid_position (R:=Qc) i (j + 1) k
         = vadd (fluid_position i j k) (Vec3 0 diam 0) ∧
       fluid_position (R:=Qc) i j (k + 1)
         = vadd (fluid_position i j k) (Vec3 0 0 diam)) ∧
    wall_y1 (R:=Qc) = 0 ∧
    wall_z2 - (wall_z1 + diam * Qc_of_Z depth) = diam (R:=Qc) ∧
    (wall_z1 + diam) + (wall_z1 + diam * Qc_of_Z depth) = wall_z1 + wall_z2 (R:=Qc) ∧
    wall_x2 - (wall_x1 + diam * Qc_of_Z width) = Qc_of_Z 65 * diam (R:=Qc).
Proof.
  exists (fluid_writes (R:=Qc)).*2. split_and!.
  - apply fluidParticles_eq.
  - reflexivity.
  - intros i j k Hi Hj Hk. exists (fluid_position i j k).
    destruct (Qc_fluid_coordinates i j k) as (Hx & Hy & Hz).
    split_and!; [by apply fluid_lookup|done|done|done|..].
    + rewrite Hx. replace (wall_x1 + diam) with (wall_x1 + diam * (Qc_of_Z 0 + 1)).
      * apply Qc_axis_monotone. lia.
      * rewrite Z2Qc_inj_0. ring.
    + rewrite Hx. replace (Qc_of_Z width) with (Qc_of_Z (width - 1) + 1).
      * apply Qc_axis_monotone. lia.
      * rewrite <- Z2Qc_inj_1, <- Z2Qc_inj_add. f_equal.
    + rewrite Hy. replace (wall_y1 + diam) with (wall_y1 + diam * (Qc_of_Z 0 + 1)).
      * apply Qc_axis_monotone. lia.
      * rewrite Z2Qc_inj_0. ring.
    + rewrite Hy. replace (Qc_of_Z height) with (Qc_of_Z (height - 1) + 1).
      * apply Qc_axis_monotone. lia.
      * rewrite <- Z2Qc_inj_1, <- Z2Qc_inj_add. f_equal.
    + rewrite Hz. replace (wall_z1 + diam) with (wall_z1 + diam * (Qc_of_Z 0 + 1)).
      * apply Qc_axis_monotone. lia.
      * rewrite Z2Qc_inj_0. ring.
    + rewrite Hz. replace (Qc_of_Z depth) with (Qc_of_Z (depth - 1) + 1).
      * apply Qc_axis_monotone. lia.
      * rewrite <- Z2Qc_inj_1, <- Z2Qc_inj_add. f_equal.
  - apply Qc_neighbours.
  - reflexivity.
  - apply Qc_is_canon. vm_compute. reflexivity.
  - apply Qc_is_canon. vm_compute. reflexivity.
  - apply Qc_is_canon. vm_compute. reflexivity.
Qed.

End GridGeometry.

(** ** Geometry of the fluid grid in binary64 *)

Ltac range_cases H :=
  match type of H with
  | _ ∈ ?l => let l' := eval vm_compute in l in change l with l' in H
  end;
  repeat (apply elem_of_cons in H as [->|H]);
  try (by apply elem_of_nil in H).

Ltac gap_by_computation :=
  eexists _, _; split_and!; [vm_compute; reflexivity..|vm_compute; discriminate].

(** Neighbours along each axis are [2*radius = 0.05] apart up to 2^-52. *)
Lemma binary64_axis_spacing :
  (∀ i, 0 ≤ i < width - 1 →
     b64_gap_within b64_ulp1 (1 # 20)
       (radd (rmul diam (rofZ (i + 1))) startX) (radd (rmul diam (rofZ i)) startX)) ∧
  (∀ j, 0 ≤ j < height - 1 →
     b64_gap_within b64_ulp1 (1 # 20)
       (radd (rmul diam (rofZ (j + 1))) startY) (radd (rmul diam (rofZ j)) startY)) ∧
  (∀ k, 0 ≤ k < depth - 1 →
     b64_gap_within b64_ulp1 (1 # 20)
       (radd (rmul diam (rofZ (k + 1))) startZ) (radd (rmul diam (rofZ k)) startZ)).
Proof.
  split_and!.
  - intros i Hi. assert (i ∈ seqZ 0 (width - 1)) as Hin by (apply elem_of_seqZ; lia).
    range_cases Hin; gap_by_computation.
  - intros j Hj. assert (j ∈ seqZ 0 (height - 1)) as Hin by (apply elem_of_seqZ; lia).
    range_cases Hin; gap_by_computation.
  - intros k Hk. assert (k ∈ seqZ 0 (depth - 1)) as Hin by (apply elem_of_seqZ; lia).
    range_cases Hin; gap_by_computation.
Qed.

(** C4 (amended): the fluid grid has spacing [2*radius] between lattice
    neighbours on every axis, exactly in exact arithmetic and up to
    rounding (within 2^-52 of 0.05) in binary64; its lowest layer is at
    height [2*radius], one spacing above the floor; in depth it is centred
    in the container (one spacing from the back wall and one from the
    front wall, up to the same rounding); in width it is not centred: it
    starts one spacing from the left wall and ends 65 spacings before the
    right wall of the 4.0 wide container. *)
Theorem fluid_grid_geometry :
  (∀ fill : Vector3r float,
     ∃ fp : list (Vector3r float),
       fluidParticles fill = Some fp ∧
       (∀ i j k, 0 ≤ i < width → 0 ≤ j < height → 0 ≤ k < depth →
          fp !! Z.to_nat (i * height * depth + j * depth + k)
          = Some (fluid_position i j k)) ∧
       (∀ i j k, 0 ≤ i < width - 1 →
          b64_gap_within b64_ulp1 (1 # 20)
            (vx (fluid_position (i + 1) j k)) (vx (fluid_position i j k)) ∧
          vy (fluid_position (i + 1) j k) = vy (fluid_position i j k) ∧
          vz (fluid_position (i + 1) j k) = vz (fluid_position i j k)) ∧
       (∀ i j k, 0 ≤ j < height - 1 →
          b64_gap_within b64_ulp1 (1 # 20)
            (vy (fluid_position i (j + 1) k)) (vy (fluid_position i j k)) ∧
          vx (fluid_position i (j + 1) k) = vx (fluid_position i j k) ∧
          vz (fluid_position i (j + 1) k) = vz (fluid_position i j k)) ∧
       (∀ i j k, 0 ≤ k < depth - 1 →
          b64_gap_within b64_ulp1 (1 # 20)
            (vz (fluid_position i j (k + 1))) (vz (fluid_position i j k)) ∧
          vx (fluid_position i j (k + 1)) = vx (fluid_position i j k) ∧
          vy (fluid_position i j (k + 1)) = vy (fluid_position i j k)) ∧
       (∀ i k, vy (fluid_position (R:=float) i 0 k) = diam) ∧
       b64_gap_within b64_ulp1 (1 # 20) (diam (R:=float)) wall_y1 ∧
       b64_gap_within b64_ulp1 (1 # 20) (vz (fluid_position (R:=float) 0 0 0)) wall_z1 ∧
       b64_gap_within b64_ulp1 (1 # 20)
         wall_z2 (vz (fluid_position (R:=float) 0 0 (depth - 1))) ∧
       b64_gap_within b64_ulp1 (1 # 20) (vx (fluid_position (R:=float) 0 0 0)) wall_x1 ∧
       b64_gap_within b64_ulp1 (65 # 20)
         wall_x2 (vx (fluid_position (R:=float) (width - 1) 0 0))) ∧
  (∀ fill : Vector3r Qc,
     ∃ fp : list (Vector3r Qc),
       fluidParticles fill = Some fp ∧
       diam (R:=Qc) = (2 * particleRadius)%Qc ∧
       (∀ i j k, (0 ≤ i < width)%Z → (0 ≤ j < height)%Z → (0 ≤ k < depth)%Z →
          ∃ p, fp !! Z.to_nat (i * height * depth + j * depth + k) = Some p ∧
               vx p = wall_x1 + diam * (Qc_of_Z i + 1) ∧
               vy p = wall_y1 + diam * (Qc_of_Z j + 1) ∧
               vz p = wall_z1 + diam * (Qc_of_Z k + 1))%Qc ∧
       (∀ i j k,
          fluid_position (R:=Qc) (i + 1) j k
            = vadd (fluid_position i j k) (Vec3 diam 0%Qc 0%Qc) ∧
          fluid_position (R:=Qc) i (j + 1) k
            = vadd (fluid_position i j k) (Vec3 0%Qc diam 0%Qc) ∧
          fluid_position (R:=Qc) i j (k + 1)
            = vadd (fluid_position i j k) (Vec3 0%Qc 0%Qc diam)) ∧
       wall_y1 (R:=Qc) = 0%Qc ∧
       (wall_z2 - (wall_z1 + diam * Qc_of_Z depth) = diam (R:=Qc))%Qc ∧
       ((wall_z1 + diam) + (wall_z1 + diam * Qc_of_Z depth)
        = wall_z1 + wall_z2 (R:=Qc))%Qc ∧
       (wall_x2 - (wall_x1 + diam * Qc_of_Z width) = Qc_of_Z 65 * diam (R:=Qc))%Qc).
Proof.
  split.
  - intros fill. exists (fluid_writes (R:=float)).*2.
    destruct binary64_axis_spacing as (Hx & Hy & Hz).
    split_and!.
    + apply fluidParticles_eq.
    + intros i j k Hi Hj Hk. by apply fluid_lookup.
    + intros i j k Hi. split_and!; [apply (Hx i Hi)|reflexivity..].
    + intros i j k Hj. split_and!; [apply (Hy j Hj)|reflexivity..].
    + intros i j k Hk. split_and!; [apply (Hz k Hk)|reflexivity..].
    + intros i k. vm_compute. reflexivity.
    + gap_by_computation.
    + gap_by_computation.
    + gap_by_computation.
    + gap_by_computation.
    + gap_by_computation.
  - intros fill.
    destruct (Qc_fluid_grid_geometry fill)
      as (fp & Hfp & Hd & Hpos & Hn & Hy1 & Hz2 & Hzc & Hx2).
    exists fp.
    split_and!; [exact Hfp|exact Hd| |exact Hn|exact Hy1|exact Hz2|exact Hzc|exact Hx2].
    intros i j k Hi Hj Hk.
    destruct (Hpos i j k Hi Hj Hk) as (p & Hp & Hpx & Hpy & Hpz & _).
    exists p. split_and!; [exact Hp|exact Hpx|exact Hpy|exact Hpz].
Qed.

(** C4, as stated, fails: the x extents of the grid, from -1.95 (first
    particle) to -1.25 (last particle), are not symmetric about the centre
    0 of the container, whose walls are at x = -2 and x = 2, in exact
    arithmetic and in binary64; and in binary64 the spacing is not exactly
    [2*radius]: x(4) - x(3) is not the value of [diam]. *)
Lemma fluid_grid_not_x_centered :
  (∃ (fp : list (Vector3r Qc)) p0 p1,
     fluidParticles vzero = Some fp ∧
     fp !! 0%nat = Some p0 ∧ fp !! 4499%nat = Some p1 ∧
     vx p0 = Q2Qc (-39 # 20) ∧ vx p1 = Q2Qc (-5 # 4) ∧
     wall_x1 (R:=Qc) = Q2Qc (-2) ∧ wall_x2 (R:=Qc) = Q2Qc 2 ∧
     (vx p0 + vx p1 ≠ wall_x1 + wall_x2)%Qc) ∧
  (∃ (fp : list (Vector3r float)) p0 p1,
     fluidParticles vzero = Some fp ∧
     fp !! 0%nat = Some p0 ∧ fp !! 4499%nat = Some p1 ∧
     PrimFloat.eqb (PrimFloat.add (vx p0) (vx p1))
       (PrimFloat.add wall_x1 wall_x2) = false) ∧
  (∃ q4 q3 qd,
     b64_exact (vx (fluid_position (R:=float) 4 0 0)) = Some q4 ∧
     b64_exact (vx (fluid_position (R:=float) 3 0 0)) = Some q3 ∧
     b64_exact (diam (R:=float)) = Some qd ∧
     ¬ (q4 - q3 == qd)%Q).
Proof.
  split_and!.
  - exists (fluid_writes (R:=Qc)).*2, (fluid_position 0 0 0), (fluid_position 14 19 14).
    split_and!.
    + apply fluidParticles_eq.
    + by apply (fluid_lookup 0 0 0).
    + by apply (fluid_lookup 14 19 14).
    + apply Qc_is_canon. vm_compute. reflexivity.
    + apply Qc_is_canon. vm_compute. reflexivity.
    + apply Qc_is_canon. vm_compute. reflexivity.
    + apply Qc_is_canon. vm_compute. reflexivity.
    + intros Heq. apply (f_equal this) in Heq. vm_compute in Heq. discriminate.
  - exists (fluid_writes (R:=float)).*2, (fluid_position 0 0 0), (fluid_position 14 19 14).
    split_and!.
    + apply fluidParticles_eq.
    + by apply (fluid_lookup 0 0 0).
    + by apply (fluid_lookup 14 19 14).
    + vm_compute. reflexivity.
  - eexists _, _, _. split_and!; [vm_compute; reflexivity..|].
    intros Heq. vm_compute in Heq. discriminate.
Qed.


(** * Further properties of the code *)

(** ** More on [addWall] *)

Section WallContents.
Context `{RealOps R}.
Variable fill : Vector3r R.
Implicit Types (m : FluidModel R) (bp : list (Vector3r R)).

Lemma wall_writes_indices m minX maxX bp sx sy sz :
  wall_steps m minX maxX = Some (sx, sy, sz) →
  Z.of_nat (length bp) + sx * sy * sz < 2 ^ 32 → sx < 2 ^ 31 →
  wall_writes m minX maxX bp
  = Some (nest_writes sx sy sz (wall_index (Z.of_nat (length bp)) sy sz)
            (wall_position minX (rmul (rlit 2) (getParticleRadius m)))) ∧
  (nest_writes sx sy sz (wall_index (Z.of_nat (length bp)) sy sz)
     (wall_position minX (rmul (rlit 2) (getParticleRadius m)))).*1
  = seqZ (Z.of_nat (length bp)) (sx * sy * sz).
Proof.
  intros Hs Hfit Hsmall.
  destruct (wall_steps_range _ _ _ _ _ _ Hs) as ([Hx Hx'] & [Hy Hy'] & [Hz Hz']).
  assert (0 ≤ sx * sy * sz) by nia.
  unfold wall_writes. rewrite Hs. csimpl.
  rewrite (u32_small (Z.of_nat (length bp))) by lia.
  rewrite to_int_small by lia. split; [done|].
  apply nest_writes_indices; [done..|]. intros j k l ???.
  apply (wall_index_eq _ sx); lia.
Qed.

(** X1: when the counts fit in 32 bits and [stepsX] in an [int], the wall
    particle of lattice coordinate (j, k, l) is stored at index
    [startIndex + j*stepsY*stepsZ + k*stepsZ + l] and is
    [minX + (j, k, l) * particleDistance]. *)
Theorem addWall_lookup m minX maxX bp sx sy sz j k l :
  wall_steps m minX maxX = Some (sx, sy, sz) →
  Z.of_nat (length bp) + sx * sy * sz < 2 ^ 32 → sx < 2 ^ 31 →
  0 ≤ j < sx → 0 ≤ k < sy → 0 ≤ l < sz →
  let d := rmul (rlit 2) (getParticleRadius m) in
  let n := Z.of_nat (length bp) + j * sy * sz + k * sz + l in
  ∃ bp',
    addWall fill m minX maxX bp = Some bp' ∧
    wall_index (Z.of_nat (length bp)) sy sz j k l = n ∧
    bp' !! Z.to_nat n
    = Some (vadd minX (Vec3 (rmul (rofZ j) d) (rmul (rofZ k) d) (rmul (rofZ l) d))).
Proof.
  intros Hs Hfit Hsmall Hj Hk Hl d n.
  destruct (addWall_block fill m minX maxX bp sx sy sz Hs Hfit)
    as (new & written & Ha & Hlen & _ & _ & Hnew).
  destruct (Hnew Hsmall) as [_ ->].
  destruct (wall_writes_indices m minX maxX bp sx sy sz Hs Hfit Hsmall) as [_ Hidx].
  assert (wall_index (Z.of_nat (length bp)) sy sz j k l = n) as Hn
    by (apply (wall_index_eq _ sx); lia).
  eexists. split_and!; [exact Ha|exact Hn|].
  pose proof (nest_writes_elem sx sy sz (wall_index (Z.of_nat (length bp)) sy sz)
                (wall_position minX d) j k l Hj Hk Hl) as Hel.
  apply (block_lookup _ _ _ _ _ Hidx) in Hel as [Hr Hlk].
  rewrite Hn in Hr, Hlk.
  rewrite lookup_app_r by lia.
  replace (Z.to_nat n - length bp)%nat with (Z.to_nat (n - Z.of_nat (length bp))) by lia.
  exact Hlk.
Qed.

(** X2: the outcome of [addWall] does not depend on the order of its
    writes: a run that performs them in any permutation of the sequential
    order, as the parallel loop may, produces the same array. *)
Theorem addWall_any_order m minX maxX bp sx sy sz ws0 ws :
  wall_steps m minX maxX = Some (sx, sy, sz) →
  Z.of_nat (length bp) + sx * sy * sz < 2 ^ 32 →
  wall_writes m minX maxX bp = Some ws0 → ws ≡ₚ ws0 →
  NoDup ws0.*1 ∧
  addWall_parallel fill m minX maxX bp ws = addWall fill m minX maxX bp.
Proof.
  intros Hs Hfit Hw Hp.
  destruct (wall_steps_range _ _ _ _ _ _ Hs) as ([Hx Hx'] & [Hy Hy'] & [Hz Hz']).
  assert (NoDup ws0.*1) as Hnd.
  { destruct (Z_lt_le_dec sx (2 ^ 31)) as [Hsmall|Hbig].
    - destruct (wall_writes_indices m minX maxX bp sx sy sz Hs Hfit Hsmall) as [Hw' Hidx].
      rewrite Hw in Hw'. injection Hw' as ->. rewrite Hidx. apply NoDup_seqZ.
    - unfold wall_writes in Hw. rewrite Hs in Hw. csimpl in Hw.
      injection Hw as <-. unfold nest_writes.
      rewrite (seqZ_nil 0 (to_int sx)) by (unfold to_int; case_match; lia).
      constructor. }
  split; [done|].
  rewrite (addWall_writes fill _ _ _ _ _ _ _ Hs).
  unfold addWall_parallel. rewrite Hs. csimpl.
  unfold wall_writes in Hw. rewrite Hs in Hw. csimpl in Hw. injection Hw as Hw.
  rewrite Hw. apply apply_writes_perm; [done|]. by rewrite Hp.
Qed.

(** X3: when [stepsX] is 2^31 or more, [(int)stepsX] is negative and the
    loop nest does not run: [addWall] still grows the array by
    [stepsX*stepsY*stepsZ] cells but writes none of them, so they keep
    whatever [resize] left there. *)
Theorem addWall_int_cast_skips m minX maxX bp sx sy sz :
  wall_steps m minX maxX = Some (sx, sy, sz) →
  2 ^ 31 ≤ sx →
  Z.of_nat (length bp) + sx * sy * sz < 2 ^ 32 →
  ∃ new,
    addWall fill m minX maxX bp = Some (bp ++ new) ∧
    Z.of_nat (length new) = sx * sy * sz ∧
    Forall (λ p, p = fill) new ∧
    wall_written m minX maxX bp = Some [].
Proof.
  intros Hs Hbig Hfit.
  destruct (wall_steps_range _ _ _ _ _ _ Hs) as ([Hx Hx'] & [Hy Hy'] & [Hz Hz']).
  assert (0 ≤ sx * sy * sz) as Hn by nia.
  assert (to_int sx ≤ 0) as Hneg by (unfold to_int; case_match; lia).
  rewrite (addWall_writes fill _ _ _ _ _ _ _ Hs). unfold wall_written. rewrite Hs. csimpl.
  unfold nest_writes. rewrite (seqZ_nil 0 (to_int sx)) by lia. csimpl.
  rewrite (u32_small (Z.of_nat (length bp))) by lia.
  rewrite umul3_small by lia. unfold uadd. rewrite u32_small by lia.
  exists (replicate (Z.to_nat (sx * sy * sz)) fill). split_and!.
  - f_equal. unfold resize_to. rewrite resize_ge by lia. do 2 f_equal. lia.
  - rewrite length_replicate. lia.
  - apply Forall_replicate. done.
  - done.
Qed.
End WallContents.

(** ** [addWall] beyond 32 bits *)

Lemma u32_add_l a b : u32 (u32 a + b) = u32 (a + b).
Proof. unfold u32. apply Zplus_mod_idemp_l. Qed.

Lemma u32_add_r a b : u32 (a + u32 b) = u32 (a + b).
Proof. unfold u32. apply Zplus_mod_idemp_r. Qed.

Lemma u32_mul_l a b : u32 (u32 a * b) = u32 (a * b).
Proof. unfold u32. apply Zmult_mod_idemp_l. Qed.

Lemma wall_index_mod start sy sz j k l :
  wall_index start sy sz j k l = u32 (start + j * sy * sz + k * sz + l).
Proof.
  unfold wall_index, uadd, umul.
  rewrite (u32_mul_l j sy), (u32_mul_l (j * sy) sz).
  rewrite (u32_add_r start (j * sy * sz)).
  rewrite (u32_add_l (start + j * sy * sz)), (u32_add_r _ (k * sz)).
  apply u32_add_l.
Qed.

Lemma apply_writes_oob {A} (ws : list (Z * A)) (arr : list A) idx v :
  (idx, v) ∈ ws → ¬ (0 ≤ idx < Z.of_nat (length arr)) → apply_writes ws arr = None.
Proof.
  revert arr. induction ws as [|[i w] ws IH]; intros arr Hin Hoob.
  - by apply elem_of_nil in Hin.
  - simpl. destruct (write i w arr) as [arr'|] eqn:E; [|done].
    apply elem_of_cons in Hin as [[= -> ->]|Hin].
    + apply write_Some in E as [? _]. lia.
    + apply IH; [done|]. by rewrite (write_length _ _ _ _ E).
Qed.

(** Every offset below [sx*sy*sz] is the row-major number of a lattice
    coordinate. *)
Lemma row_major_split sx sy sz n :
  1 ≤ sy → 1 ≤ sz → 0 ≤ n < sx * sy * sz →
  ∃ j k l, 0 ≤ j < sx ∧ 0 ≤ k < sy ∧ 0 ≤ l < sz ∧ n = j * sy * sz + k * sz + l.
Proof.
  intros Hy Hz Hn.
  assert (0 < sy * sz) as Hyz by nia.
  exists (n / (sy * sz)), (n mod (sy * sz) / sz), (n mod (sy * sz) mod sz).
  pose proof (Z.mod_pos_bound n (sy * sz) Hyz) as Hr.
  pose proof (Z.div_mod n (sy * sz) ltac:(lia)) as Hdm.
  pose proof (Z.mod_pos_bound (n mod (sy * sz)) sz ltac:(lia)) as Hl.
  pose proof (Z.div_mod (n mod (sy * sz)) sz ltac:(lia)) as Hdm2.
  split_and!.
  - apply Z.div_pos; lia.
  - apply Z.div_lt_upper_bound; [lia|]. lia.
  - apply Z.div_pos; lia.
  - apply Z.div_lt_upper_bound; lia.
  - lia.
  - lia.
  - lia.
Qed.

(** X4: when the new size [startIndex + stepsX*stepsY*stepsZ] does not fit
    in 32 bits (and the loop runs), the size handed to [resize] has wrapped
    and [addWall] writes outside the array. *)
Theorem addWall_overflow_out_of_bounds `{RealOps R} (fill : Vector3r R)
    (m : FluidModel R) (minX maxX : Vector3r R) (bp : list (Vector3r R)) sx sy sz :
  wall_steps m minX maxX = Some (sx, sy, sz) →
  1 ≤ sx < 2 ^ 31 → 1 ≤ sy → 1 ≤ sz →
  Z.of_nat (length bp) < 2 ^ 32 →
  2 ^ 32 ≤ Z.of_nat (length bp) + sx * sy * sz →
  addWall fill m minX maxX bp = None.
Proof.
  intros Hs Hx Hy Hz Hlen Hover.
  rewrite (addWall_writes fill _ _ _ _ _ _ _ Hs).
  rewrite (u32_small (Z.of_nat (length bp))) by lia.
  rewrite to_int_small by lia.
  set (start := Z.of_nat (length bp)) in *.
  set (N := sx * sy * sz) in *.
  assert (uadd start (umul (umul sx sy) sz) = u32 (start + N)) as ->.
  { unfold uadd, umul. by rewrite u32_mul_l, u32_add_r. }
  pose proof (u32_range (start + N)) as HS.
  set (S' := u32 (start + N)) in *.
  set (n0 := Z.max 0 (S' - start)).
  assert (0 ≤ n0 < N) as Hn0 by (unfold n0; lia).
  destruct (row_major_split sx sy sz n0 Hy Hz Hn0) as (j & k & l & Hj & Hk & Hl & Hsplit).
  eapply (apply_writes_oob _ _ (wall_index start sy sz j k l)).
  - by apply nest_writes_elem.
  - rewrite wall_index_mod.
    replace (start + j * sy * sz + k * sz + l) with (start + n0) by lia.
    unfold resize_to. rewrite length_resize.
    rewrite u32_small by (unfold n0, start in *; lia).
    unfold n0. lia.
Qed.

(** Examples: walls at radius 0.025 appended to an empty boundary. *)
Lemma addWall_lookup_witness :
  let m : FluidModel Qc := mkFluidModel (Q2Qc (25 # 1000)) [] [] [] [] in
  let minX := Vec3 (Q2Qc 0) (Q2Qc 0) (Q2Qc 0) in
  let maxX := Vec3 (Q2Qc (1 # 10)) (Q2Qc 0) (Q2Qc (1 # 20)) in
  let d := rmul (rlit 2) (getParticleRadius m) in
  ∃ bp', addWall vzero m minX maxX [] = Some bp' ∧
         bp' !! 5%nat
         = Some (vadd minX (Vec3 (rmul (rofZ 2) d) (rmul (rofZ 0) d) (rmul (rofZ 1) d))).
Proof.
  intros m minX maxX d.
  assert (wall_steps m minX maxX = Some (3, 1, 2)) as Hs by (vm_compute; reflexivity).
  destruct (addWall_lookup vzero m minX maxX [] 3 1 2 2 0 1 Hs)
    as (bp' & Ha & _ & Hlk); [simpl; lia|lia..|].
  exists bp'. split; [exact Ha | exact Hlk].
Defined.

Lemma addWall_any_order_witness :
  let m : FluidModel Qc := mkFluidModel (Q2Qc (25 # 1000)) [] [] [] [] in
  let minX := Vec3 (Q2Qc 0) (Q2Qc 0) (Q2Qc 0) in
  let maxX := Vec3 (Q2Qc (1 # 10)) (Q2Qc 0) (Q2Qc (1 # 20)) in
  let ws0 := default [] (wall_writes m minX maxX []) in
  length ws0 = 6%nat ∧
  addWall_parallel vzero m minX maxX [] (reverse ws0) = addWall vzero m minX maxX [].
Proof.
  intros m minX maxX ws0.
  assert (wall_steps m minX maxX = Some (3, 1, 2)) as Hs by (vm_compute; reflexivity).
  assert (wall_writes m minX maxX [] = Some ws0) as Hw.
  { unfold ws0, wall_writes. rewrite Hs. reflexivity. }
  split.
  - unfold ws0, wall_writes. rewrite Hs. reflexivity.
  - apply (addWall_any_order vzero m minX maxX [] 3 1 2 ws0 (reverse ws0) Hs);
      [simpl; lia | exact Hw | apply reverse_Permutation].
Defined.

Lemma addWall_int_cast_skips_witness :
  let m : FluidModel Qc := mkFluidModel (Q2Qc (25 # 1000)) [] [] [] [] in
  let minX := Vec3 (Q2Qc 0) (Q2Qc 0) (Q2Qc 0) in
  let maxX := Vec3 (Q2Qc 150000000) (Q2Qc 0) (Q2Qc 0) in
  wall_steps m minX maxX = Some (3000000001, 1, 1) ∧
  ∃ new, addWall vzero m minX maxX [] = Some new ∧
         Z.of_nat (length new) = 3000000001 ∧ Forall (λ p, p = vzero) new.
Proof.
  intros m minX maxX.
  assert (wall_steps m minX maxX = Some (3000000001, 1, 1)) as Hs
    by (vm_compute; reflexivity).
  destruct (addWall_int_cast_skips vzero m minX maxX [] _ _ _ Hs)
    as (new & Ha & Hl & Hf & _); [lia|simpl; lia|].
  split; [exact Hs|]. exists new. split_and!; [exact Ha|lia|exact Hf].
Defined.

Lemma addWall_overflow_out_of_bounds_witness :
  let m : FluidModel Qc := mkFluidModel (Q2Qc (25 # 1000)) [] [] [] [] in
  let minX := Vec3 (Q2Qc 0) (Q2Qc 0) (Q2Qc 0) in
  let maxX := Vec3 (Q2Qc (327675 # 100)) (Q2Qc (327675 # 100)) (Q2Qc 0) in
  wall_steps m minX maxX = Some (65536, 65536, 1) ∧
  addWall vzero m minX maxX [] = None.
Proof.
  intros m minX maxX.
  assert (wall_steps m minX maxX = Some (65536, 65536, 1)) as Hs
    by (vm_compute; reflexivity).
  split; [exact Hs|].
  apply (addWall_overflow_out_of_bounds vzero m minX maxX [] _ _ _ Hs);
    simpl; lia.
Defined.

(** ** Wall particles and the box *)

Lemma nest_writes_elem_inv {A} n1 n2 n3 idx (val : Z → Z → Z → A) w :
  w ∈ nest_writes n1 n2 n3 idx val →
  ∃ i j k, 0 ≤ i < n1 ∧ 0 ≤ j < n2 ∧ 0 ≤ k < n3 ∧ w = (idx i j k, val i j k).
Proof.
  unfold nest_writes.
  intros (i & Hw & Hi%elem_of_seqZ)%list_elem_of_bind.
  apply list_elem_of_bind in Hw as (j & Hw & Hj%elem_of_seqZ).
  apply list_elem_of_bind in Hw as (k & Hw & Hk%elem_of_seqZ).
  apply list_elem_of_singleton in Hw.
  exists i, j, k. do 3 (split; [lia|]). done.
Qed.

Lemma Qc_floor_le (q : Qc) : (Qc_of_Z (Qfloor q) ≤ q)%Qc.
Proof. unfold Qcle. simpl. apply Qfloor_le. Qed.

Lemma Qc_step_within (e d : Qc) (j : Z) :
  (0 < d)%Qc → 0 ≤ j ≤ Qfloor (e / d)%Qc →
  (0 ≤ Qc_of_Z j * d ∧ Qc_of_Z j * d ≤ e)%Qc.
Proof.
  intros Hd [Hj0 Hj]. split.
  - apply Qcmult_nonneg_nonneg; [|by apply Qclt_le_weak].
    rewrite <- Z2Qc_inj_0. apply (proj1 (Z2Qc_inj_le 0 j) Hj0).
  - assert (e / d * d = e)%Qc as He.
    { field. intros ->. by apply (irreflexivity Qclt) in Hd. }
    rewrite <- He.
    apply Qcmult_le_mono_nonneg_r; [by apply Qclt_le_weak|].
    etrans; [apply (proj1 (Z2Qc_inj_le _ _) Hj)|apply Qc_floor_le].
Qed.

(** In exact arithmetic, for non-negative extents and counts that fit,
    [addWall] samples the min corner itself and every particle it appends
    lies inside the box from [minX] to [maxX]. *)
Lemma Qc_addWall_inside_box (fill : Vector3r Qc) (m : FluidModel Qc)
    (minX maxX : Vector3r Qc) (bp : list (Vector3r Qc)) :
  (0 < m_particleRadius m)%Qc →
  (vx minX ≤ vx maxX)%Qc → (vy minX ≤ vy maxX)%Qc → (vz minX ≤ vz maxX)%Qc →
  let s := (2 * m_particleRadius m)%Qc in
  let nx := Qfloor ((vx maxX - vx minX) / s)%Qc + 1 in
  let ny := Qfloor ((vy maxX - vy minX) / s)%Qc + 1 in
  let nz := Qfloor ((vz maxX - vz minX) / s)%Qc + 1 in
  Z.of_nat (length bp) + nx * ny * nz < 2 ^ 32 → nx < 2 ^ 31 →
  ∃ new,
    addWall fill m minX maxX bp = Some (bp ++ new) ∧
    new !! 0%nat = Some minX ∧
    Forall (in_box minX maxX) new.
Proof.
  intros Hr Hx Hy Hz s nx ny nz Hfit Hsmall.
  assert (0 < s)%Qc as Hs by (apply Qcmult_pos_pos; done).
  destruct (Qc_wall_steps_floor m minX maxX Hr Hx Hy Hz)
    as (Hsteps & Hnx & Hny & Hnz); [fold s nx ny nz; lia|].
  fold s nx ny nz in Hsteps, Hnx, Hny, Hnz.
  destruct (addWall_block fill m minX maxX bp nx ny nz Hsteps Hfit)
    as (new & written & Ha & Hlen & _ & _ & Hnew).
  destruct (Hnew Hsmall) as [_ ->].
  destruct (wall_writes_indices m minX maxX bp nx ny nz Hsteps Hfit Hsmall) as [_ Hidx].
  eexists. split_and!; [exact Ha| |].
  - pose proof (nest_writes_elem nx ny nz (wall_index (Z.of_nat (length bp)) ny nz)
                  (wall_position minX (rmul (rlit 2) (getParticleRadius m))) 0 0 0) as Hel.
    apply (block_lookup _ _ _ _ _ Hidx) in Hel as [_ Hlk]; [|lia..].
    rewrite (wall_index_eq _ nx) in Hlk by lia.
    replace (Z.to_nat (Z.of_nat (length bp) + 0 * ny * nz + 0 * nz + 0
                       - Z.of_nat (length bp))) with 0%nat in Hlk by lia.
    rewrite Hlk. f_equal. destruct minX as [x y z].
    unfold wall_position, vadd. cbn [vx vy vz radd rmul rofZ Qc_RealOps].
    rewrite Z2Qc_inj_0. f_equal; ring.
  - apply list.Forall_forall. intros p (w & -> & Hw)%list_elem_of_fmap.
    apply nest_writes_elem_inv in Hw as (j & k & l & Hj & Hk & Hl & ->).
    unfold in_box, wall_position, vadd. cbn [snd vx vy vz radd rmul rofZ Qc_RealOps].
    change (rlit 2 * getParticleRadius m)%Qc with s.
    destruct (Qc_step_within (vx maxX - vx minX) s j Hs) as [Hx0 Hx1]; [fold nx; lia|].
    destruct (Qc_step_within (vy maxX - vy minX) s k Hs) as [Hy0 Hy1]; [fold ny; lia|].
    destruct (Qc_step_within (vz maxX - vz minX) s l Hs) as [Hz0 Hz1]; [fold nz; lia|].
    split_and!.
    + rewrite <- (Qcplus_0_r (vx minX)) at 1. by apply Qcplus_le_mono_l.
    + replace (vx maxX) with (vx minX + (vx maxX - vx minX))%Qc by ring.
      by apply Qcplus_le_mono_l.
    + rewrite <- (Qcplus_0_r (vy minX)) at 1. by apply Qcplus_le_mono_l.
    + replace (vy maxX) with (vy minX + (vy maxX - vy minX))%Qc by ring.
      by apply Qcplus_le_mono_l.
    + rewrite <- (Qcplus_0_r (vz minX)) at 1. by apply Qcplus_le_mono_l.
    + replace (vz maxX) with (vz minX + (vz maxX - vz minX))%Qc by ring.
      by apply Qcplus_le_mono_l.
Qed.

(** X5: [addWall] steps from the min corner and does not clamp to the
    max corner.  In exact arithmetic, for non-negative extents and counts
    that fit, the first particle it appends is the min corner and every
    particle lies inside the box from [minX] to [maxX].  In binary64 that
    can fail by rounding: for the wall from (0,0,0) to (0.85,0,0) at radius
    0.025 the quotient rounds to 17, and the last of the 18 particles is at
    x = 0.85000000000000009, beyond [maxX]. *)
Theorem addWall_inside_box :
  (∀ (fill : Vector3r Qc) (m : FluidModel Qc)
     (minX maxX : Vector3r Qc) (bp : list (Vector3r Qc)),
     (0 < m_particleRadius m)%Qc →
     (vx minX ≤ vx maxX)%Qc → (vy minX ≤ vy maxX)%Qc → (vz minX ≤ vz maxX)%Qc →
     let s := (2 * m_particleRadius m)%Qc in
     let nx := Qfloor ((vx maxX - vx minX) / s)%Qc + 1 in
     let ny := Qfloor ((vy maxX - vy minX) / s)%Qc + 1 in
     let nz := Qfloor ((vz maxX - vz minX) / s)%Qc + 1 in
     Z.of_nat (length bp) + nx * ny * nz < 2 ^ 32 → nx < 2 ^ 31 →
     ∃ new,
       addWall fill m minX maxX bp = Some (bp ++ new) ∧
       new !! 0%nat = Some minX ∧
       Forall (in_box minX maxX) new) ∧
  (let m : FluidModel float := mkFluidModel (rlit (25 # 1000)) [] [] [] [] in
   let minX := Vec3 (rlit 0) (rlit 0) (rlit 0) in
   let maxX := Vec3 (rlit (85 # 100)) (rlit 0) (rlit 0) in
   ∃ new p,
     wall_steps m minX maxX = Some (18, 1, 1) ∧
     addWall vzero m minX maxX [] = Some new ∧
     length new = 18%nat ∧
     new !! 17%nat = Some p ∧
     rltb (vx maxX) (vx p) = true ∧
     Prim2SF (vx p) = S754_finite false 7656119366529844 (-53) ∧
     Prim2SF (vx maxX) = S754_finite false 7656119366529843 (-53)).
Proof.
  split.
  - exact Qc_addWall_inside_box.
  - eexists _, _. split_and!; vm_compute; reflexivity.
Qed.

Lemma addWall_inside_box_witness :
  let m : FluidModel Qc := mkFluidModel (Q2Qc (25 # 1000)) [] [] [] [] in
  let minX := Vec3 (Q2Qc 0) (Q2Qc 0) (Q2Qc 0) in
  let maxX := Vec3 (Q2Qc (12 # 100)) (Q2Qc 0) (Q2Qc (1 # 20)) in
  ∃ new, addWall vzero m minX maxX [] = Some new ∧
         new !! 0%nat = Some minX ∧ Forall (in_box minX maxX) new.
Proof.
  intros m minX maxX.
  destruct (proj1 addWall_inside_box vzero m minX maxX [])
    as (new & Ha & H0 & Hf);
    [reflexivity|discriminate..|vm_compute; reflexivity|vm_compute; reflexivity|].
  exists new. split_and!; [exact Ha | exact H0 | exact Hf].
Defined.

(** ** Fluid positions determine their cell *)

Section DistinctFromRank.
Context `{RealOps R}.
Hypothesis rank_decodes :
  ∀ i j k, 0 ≤ i < width → 0 ≤ j < height → 0 ≤ k < depth →
    fluid_rank (R:=R) (fluid_position i j k) = (i, j, k).

Lemma fluid_writes_inv (w : Z * Vector3r R) :
  w ∈ fluid_writes (R:=R) →
  ∃ i j k, 0 ≤ i < width ∧ 0 ≤ j < height ∧ 0 ≤ k < depth ∧
           w = (i * height * depth + j * depth + k, fluid_position i j k).
Proof.
  intros (i & j & k & Hi & Hj & Hk & ->)%nest_writes_elem_inv.
  change (to_int width) with width in Hi.
  exists i, j, k. do 3 (split; [done|]). by rewrite fluid_index_eq.
Qed.

Lemma fluid_lookup_rank n (p : Vector3r R) :
  (fluid_writes (R:=R)).*2 !! n = Some p → fluid_rank_index p = Z.of_nat n.
Proof.
  rewrite list_lookup_fmap.
  destruct (fluid_writes !! n) as [[idx q]|] eqn:Hw; [|done]. intros [= <-].
  assert ((fluid_writes (R:=R)).*1 !! n = Some idx) as Hi
    by (by rewrite list_lookup_fmap, Hw).
  rewrite fluid_writes_indices in Hi. apply lookup_seqZ in Hi as [-> _].
  apply list_elem_of_lookup_2 in Hw.
  apply fluid_writes_inv in Hw as (i & j & k & Hi & Hj & Hk & [= Hn ->]).
  unfold fluid_rank_index. rewrite rank_decodes by done. lia.
Qed.

Lemma fluid_NoDup_from_rank : NoDup (fluid_writes (R:=R)).*2.
Proof.
  apply (NoDup_fmap_1 fluid_rank_index).
  replace (fluid_rank_index <$> (fluid_writes (R:=R)).*2)
    with (seqZ 0 (width * height * depth)); [apply NoDup_seqZ|].
  apply list_eq. intros n. rewrite list_lookup_fmap.
  destruct ((fluid_writes (R:=R)).*2 !! n) as [p|] eqn:Hp; simpl.
  - rewrite (fluid_lookup_rank n p Hp).
    apply lookup_seqZ. split; [lia|].
    apply lookup_lt_Some in Hp. rewrite length_fmap, fluid_writes_length in Hp.
    change (width * height * depth) with 4500. lia.
  - apply lookup_seqZ_ge. apply lookup_ge_None in Hp.
    rewrite length_fmap, fluid_writes_length in Hp.
    change (width * height * depth) with 4500. lia.
Qed.
End DistinctFromRank.

Ltac rank_by_cases i Hi n :=
  let Hin := fresh "Hin" in
  assert (i ∈ seqZ 0 n) as Hin by (apply elem_of_seqZ; exact Hi);
  range_cases Hin; vm_compute; reflexivity.

(** The grid coordinates of each axis are strictly increasing, so the rank
    of a grid position is its lattice coordinate: in binary64 ... *)
Lemma binary64_rank_decodes i j k :
  0 ≤ i < width → 0 ≤ j < height → 0 ≤ k < depth →
  fluid_rank (R:=float) (fluid_position i j k) = (i, j, k).
Proof.
  intros Hi Hj Hk. unfold fluid_rank.
  change (vx (fluid_position i j k)) with (vx (fluid_position (R:=float) i 0 0)).
  change (vy (fluid_position i j k)) with (vy (fluid_position (R:=float) 0 j 0)).
  change (vz (fluid_position i j k)) with (vz (fluid_position (R:=float) 0 0 k)).
  assert (axis_rank ((λ i, vx (fluid_position (R:=float) i 0 0)) <$> seqZ 0 width)
            (vx (fluid_position i 0 0)) = i) as -> by rank_by_cases i Hi width.
  assert (axis_rank ((λ j, vy (fluid_position (R:=float) 0 j 0)) <$> seqZ 0 height)
            (vy (fluid_position 0 j 0)) = j) as -> by rank_by_cases j Hj height.
  assert (axis_rank ((λ k, vz (fluid_position (R:=float) 0 0 k)) <$> seqZ 0 depth)
            (vz (fluid_position 0 0 k)) = k) as -> by rank_by_cases k Hk depth.
  reflexivity.
Qed.

(** ... and in exact arithmetic. *)
Lemma Qc_rank_decodes i j k :
  0 ≤ i < width → 0 ≤ j < height → 0 ≤ k < depth →
  fluid_rank (R:=Qc) (fluid_position i j k) = (i, j, k).
Proof.
  intros Hi Hj Hk. unfold fluid_rank.
  change (vx (fluid_position i j k)) with (vx (fluid_position (R:=Qc) i 0 0)).
  change (vy (fluid_position i j k)) with (vy (fluid_position (R:=Qc) 0 j 0)).
  change (vz (fluid_position i j k)) with (vz (fluid_position (R:=Qc) 0 0 k)).
  assert (axis_rank ((λ i, vx (fluid_position (R:=Qc) i 0 0)) <$> seqZ 0 width)
            (vx (fluid_position i 0 0)) = i) as -> by rank_by_cases i Hi width.
  assert (axis_rank ((λ j, vy (fluid_position (R:=Qc) 0 j 0)) <$> seqZ 0 height)
            (vy (fluid_position 0 j 0)) = j) as -> by rank_by_cases j Hj height.
  assert (axis_rank ((λ k, vz (fluid_position (R:=Qc) 0 0 k)) <$> seqZ 0 depth)
            (vz (fluid_position 0 0 k)) = k) as -> by rank_by_cases k Hk depth.
  reflexivity.
Qed.

(** X7: the lattice cell, and so the output index, can be read back from a
    fluid position, as the rank of each coordinate among the grid
    coordinates of its axis; hence the 4500 fluid particles of
    [createBreakingDam] are pairwise distinct, in binary64 and in exact
    arithmetic alike. *)
Theorem fluid_positions_distinct :
  (∀ fill : Vector3r float,
     ∃ fp : list (Vector3r float),
       fluidParticles fill = Some fp ∧
       (∀ i j k, 0 ≤ i < width → 0 ≤ j < height → 0 ≤ k < depth →
          fluid_rank (R:=float) (fluid_position i j k) = (i, j, k)) ∧
       (∀ n p, fp !! n = Some p → fluid_rank_index p = Z.of_nat n) ∧
       NoDup fp) ∧
  (∀ fill : Vector3r Qc,
     ∃ fp : list (Vector3r Qc),
       fluidParticles fill = Some fp ∧
       (∀ i j k, 0 ≤ i < width → 0 ≤ j < height → 0 ≤ k < depth →
          fluid_rank (R:=Qc) (fluid_position i j k) = (i, j, k)) ∧
       (∀ n p, fp !! n = Some p → fluid_rank_index p = Z.of_nat n) ∧
       NoDup fp).
Proof.
  split; intros fill.
  - exists (fluid_writes (R:=float)).*2. split_and!.
    + apply fluidParticles_eq.
    + exact binary64_rank_decodes.
    + exact (fluid_lookup_rank binary64_rank_decodes).
    + exact (fluid_NoDup_from_rank binary64_rank_decodes).
  - exists (fluid_writes (R:=Qc)).*2. split_and!.
    + apply fluidParticles_eq.
    + exact Qc_rank_decodes.
    + exact (fluid_lookup_rank Qc_rank_decodes).
    + exact (fluid_NoDup_from_rank Qc_rank_decodes).
Qed.

(** ** [createBreakingDam] and [buildModel] as a whole *)

Section BuildModel.
Context `{RealOps R}.
Variable fill : Vector3r R.

Lemma createBreakingDam_from_steps (m : FluidModel R) :
  map (λ w, wall_steps (setParticleRadius particleRadius m) w.1 w.2) walls
  = map Some scenario_steps →
  ∃ bp,
    createBreakingDam fill m
    = Some (initModel (fluid_writes (R:=R)).*2 bp (setParticleRadius particleRadius m)) ∧
    Z.of_nat (length bp) = 18630.
Proof.
  intros Hsteps. set (m' := setParticleRadius particleRadius m).
  pose proof (scenario_steps_Forall2 m' Hsteps) as HF.
  unfold walls in HF. cbv zeta in HF. apply Forall2_cons_1 in HF as [H0 HF].
  edestruct (initBoundaryData_from_steps fill m' _ _ _ _ eq_refl H0 HF)
    as (floor & rest & _ & _ & Hi & Hl); [reflexivity|].
  exists (floor ++ rest). split; [|rewrite Hl; reflexivity].
  unfold createBreakingDam. pose proof (fluidParticles_eq fill) as Hf.
  rewrite Hf. cbn [mbind option_bind]. fold m'. rewrite Hi. reflexivity.
Qed.
End BuildModel.

(** X8: [buildModel] never leaves its arrays.  For every prior state it
    succeeds, sets the step size to 0.0025 and hands the model the 4500
    lattice positions and 18630 boundary particles at radius 0.025, and it
    changes nothing else of the demo state; in exact arithmetic and in
    binary64 alike. *)
Theorem buildModel_scene :
  (∀ (fill : Vector3r Qc) (st : Demo Qc),
     ∃ bp,
       buildModel fill st
       = Some (set_model
                 (initModel (fluid_writes (R:=Qc)).*2 bp
                    (setParticleRadius particleRadius (model st)))
                 (setTimeStepSize (rlit (25 # 10000)) st)) ∧
       length (fluid_writes (R:=Qc)).*2 = 4500%nat ∧
       Z.of_nat (length bp) = 18630) ∧
  (∀ (fill : Vector3r float) (st : Demo float),
     ∃ bp,
       buildModel fill st
       = Some (set_model
                 (initModel (fluid_writes (R:=float)).*2 bp
                    (setParticleRadius particleRadius (model st)))
                 (setTimeStepSize (rlit (25 # 10000)) st)) ∧
       length (fluid_writes (R:=float)).*2 = 4500%nat ∧
       Z.of_nat (length bp) = 18630).
Proof.
  split; intros fill st.
  - destruct (createBreakingDam_from_steps fill (model st) (Qc_scenario_steps _))
      as (bp & Hc & Hl).
    exists bp. split_and!; [|by rewrite length_fmap, fluid_writes_length|done].
    unfold buildModel. cbv zeta.
    change (model (setTimeStepSize (rlit (25 # 10000)) st)) with (model st).
    by rewrite Hc.
  - destruct (createBreakingDam_from_steps fill (model st) (binary64_scenario_steps _))
      as (bp & Hc & Hl).
    exists bp. split_and!; [|by rewrite length_fmap, fluid_writes_length|done].
    unfold buildModel. cbv zeta.
    change (model (setTimeStepSize (rlit (25 # 10000)) st)) with (model st).
    by rewrite Hc.
Qed.

(** ** The step driver over many ticks *)

Section TickProtocol.
Context `{RealOps R}.
Variable solver_advance : R → FluidModel R → FluidModel R.
Implicit Types st : Demo R.

Lemma timeStep_keeps st :
  let st' := timeStep solver_advance st in
  selectedParticles st' = selectedParticles st ∧
  oldMousePos st' = oldMousePos st ∧ mouseMoveFunc st' = mouseMoveFunc st.
Proof.
  cbv zeta. destruct (timeStep_cases solver_advance st) as [[_ [->| ->]]|[_ ->]]; [done..|].
  by destruct (steps_frame solver_advance (Z.to_nat (NUM_STEPS_PER_RENDER st)) st)
    as (_&_&_&_&->&->&->).
Qed.

(** After [n] ticks the state is that of [r * k] fixed steps for some number
    [r] of ticks that ran, up to the pause flag. *)
Lemma ticks_invariant n st :
  ∃ r, (r ≤ n)%nat ∧
    (PAUSE (ticks solver_advance n st) = false → r = n ∧ PAUSE st = false) ∧
    set_PAUSE (PAUSE st) (ticks solver_advance n st)
    = Nat.iter (r * Z.to_nat (NUM_STEPS_PER_RENDER st)) (one_step solver_advance) st.
Proof.
  induction n as [|n (r & Hr & Hrun & Hst)].
  - exists 0%nat. split_and!; [done|done|]. by destruct st.
  - change (ticks solver_advance (S n) st)
      with (timeStep solver_advance (ticks solver_advance n st)).
    set (sn := ticks solver_advance n st) in *.
    destruct (ticks_frame solver_advance n st) as (_ & Hk & _). fold sn in Hk.
    destruct (timeStep_cases solver_advance sn) as [[Hp [He|He]]|[Hp He]].
    + exists r. split_and!; [lia|by rewrite Hp|by rewrite He].
    + exists r. split_and!; [lia|by rewrite Hp|].
      rewrite He. rewrite <- Hst. by destruct sn.
    + assert (PAUSE sn = false) as Hpn.
      { rewrite He in Hp.
        by destruct (steps_frame solver_advance (Z.to_nat (NUM_STEPS_PER_RENDER sn)) sn)
          as (<-&_). }
      destruct (Hrun Hpn) as [-> Hp0].
      exists (S n). split_and!; [done|done|].
      rewrite He, Hk. rewrite Hp0 in Hst.
      replace (set_PAUSE false sn) with sn in Hst
        by (destruct sn; simpl in *; by subst).
      rewrite Hst, <- Nat.iter_add.
      replace (set_PAUSE (PAUSE st) _) with
        (Nat.iter (Z.to_nat (NUM_STEPS_PER_RENDER st) + n * Z.to_nat (NUM_STEPS_PER_RENDER st))
           (one_step solver_advance) st); [done|].
      destruct (steps_frame solver_advance
        (Z.to_nat (NUM_STEPS_PER_RENDER st) + n * Z.to_nat (NUM_STEPS_PER_RENDER st)) st)
        as (Hpp&_).
      revert Hpp. generalize (Nat.iter
        (Z.to_nat (NUM_STEPS_PER_RENDER st) + n * Z.to_nat (NUM_STEPS_PER_RENDER st))
        (one_step solver_advance) st).
      intros d Hd. rewrite <- Hd. by destruct d.
Qed.

(** X9: whatever the solver does and for any number of render ticks, the
    step driver never touches the selection, the drag anchor, the mouse
    handler, the pause-at threshold, the steps per tick or the step size;
    and for some number [r <= n] of ticks that ran, the collaborator calls
    made are [r * k] repetitions of one solver step followed by one
    bookkeeping step, and the clock is the [r * k]-fold iterate of
    [t + h].  When the state ends Running, every tick ran ([r = n]). *)
Theorem ticks_protocol n st :
  let st' := ticks solver_advance n st in
  let k := Z.to_nat (NUM_STEPS_PER_RENDER st) in
  (selectedParticles st' = selectedParticles st ∧
   oldMousePos st' = oldMousePos st ∧ mouseMoveFunc st' = mouseMoveFunc st ∧
   PAUSE_AT st' = PAUSE_AT st ∧
   NUM_STEPS_PER_RENDER st' = NUM_STEPS_PER_RENDER st ∧
   timeStepSize st' = timeStepSize st) ∧
  ∃ r, (r ≤ n)%nat ∧
    (PAUSE st' = false → r = n) ∧
    calls st' = Nat.iter (r * k) (λ l, BaseStep :: SimStep :: l) (calls st) ∧
    sim_steps (calls st') = (r * k + sim_steps (calls st))%nat ∧
    time st' = Nat.iter (r * k) (λ t, radd t (timeStepSize st)) (time st).
Proof.
  intros st' k. destruct (ticks_invariant n st) as (r & Hr & Hrun & Hst).
  fold st' k in Hrun, Hst.
  destruct (steps_frame solver_advance (r * k) st) as (_&Hf).
  rewrite <- Hst in Hf. destruct Hf as (H1&H2&H3&H4&H5&H6).
  split; [by split_and!|].
  exists r. split; [done|]. split; [intros Hp; by destruct (Hrun Hp)|].
  assert (calls st' = Nat.iter (r * k) (λ l, BaseStep :: SimStep :: l) (calls st)) as Hc.
  { rewrite <- (steps_calls solver_advance), <- Hst. done. }
  split_and!; [done| |].
  - rewrite Hc. apply sim_steps_iter.
  - rewrite <- (steps_time solver_advance), <- Hst. done.
Qed.
End TickProtocol.

(** ** Auto-pause at tick granularity *)

Lemma Qc_rltb_true (a b : Qc) : rltb a b = true ↔ (a < b)%Qc.
Proof.
  change (rltb a b) with (match Qccompare a b with Lt => true | _ => false end).
  change (a < b)%Qc with (Qccompare a b = Lt).
  destruct (Qccompare a b); split; congruence.
Qed.

(** X10: auto-pause acts at tick granularity, for every implementation of
    [Real].  Write [clock i] for the start time after [i*k] successive
    additions of [h].  From a Running state with a positive threshold [T],
    if [T < clock j] is false for every [j <= n] and true for [n + 1], then
    the first [n + 1] ticks all run, the clock reads [clock (n+1)], which
    is beyond [T], the next tick pauses without a step, and every later
    tick leaves that paused state as it is.  Which tick that is depends on
    the rounding of the additions. *)
Theorem auto_pause_overshoot `{RealOps R}
    (solver_advance : R → FluidModel R → FluidModel R) (st : Demo R) (n m : nat) :
  let k := Z.to_nat (NUM_STEPS_PER_RENDER st) in
  let clock (i : nat) :=
    Nat.iter (i * k) (λ t, radd t (timeStepSize st)) (time st) in
  PAUSE st = false →
  rltb (rlit 0) (PAUSE_AT st) = true →
  (∀ j, (j ≤ n)%nat → rltb (PAUSE_AT st) (clock j) = false) →
  rltb (PAUSE_AT st) (clock (S n)) = true →
  let st1 := ticks solver_advance (S n) st in
  PAUSE st1 = false ∧
  time st1 = clock (S n) ∧
  sim_steps (calls st1) = (S n * k + sim_steps (calls st))%nat ∧
  ticks solver_advance (S (S n) + m) st = set_PAUSE true st1.
Proof.
  intros k clock Hp HT Hle Hlt st1.
  assert (st1 = Nat.iter (S n * k) (one_step solver_advance) st) as Hst1.
  { apply ticks_run; [done|]. intros j Hj.
    apply andb_false_intro2. apply Hle. lia. }
  destruct (steps_frame solver_advance (S n * k) st) as (Hf1 & Hf2 & _).
  rewrite <- Hst1 in Hf1, Hf2.
  assert (time st1 = clock (S n)) as Ht.
  { rewrite Hst1. apply steps_time. }
  split_and!.
  - by rewrite Hf1.
  - exact Ht.
  - rewrite Hst1, steps_calls. apply sim_steps_iter.
  - replace (S (S n) + m)%nat with (m + S (S n))%nat by lia.
    unfold ticks at 1. rewrite Nat.iter_add.
    change (Nat.iter (S (S n)) (timeStep solver_advance) st)
      with (timeStep solver_advance st1).
    rewrite (timeStep_gate solver_advance st1).
    + by apply (ticks_paused solver_advance).
    + by rewrite Hf2.
    + by rewrite Hf2, Ht.
Qed.

(** The binary64 build with threshold 0.05 and four steps of 0.0025 per
    tick: after five ticks, 20 steps, the clock holds 0.05000000000000001,
    which is beyond the threshold, so the sixth tick pauses; in exact
    arithmetic the clock would be exactly 0.05 and the sixth tick would
    still run. *)
Lemma auto_pause_overshoot_witness :
  let st : Demo float :=
    mkDemo (mkFluidModel particleRadius [] [] [] [])
      (rlit 0) (rlit (25 # 10000)) false (rlit (5 # 100)) 4 [] vzero
      (2, Some MouseMove) [] in
  PAUSE (ticks idle_solver 5 st) = false ∧
  sim_steps (calls (ticks idle_solver 5 st)) = 20%nat ∧
  ticks idle_solver 6 st = set_PAUSE true (ticks idle_solver 5 st).
Proof.
  intros st.
  assert (PAUSE st = false) as Hp by reflexivity.
  assert (rltb (rlit 0) (PAUSE_AT st) = true) as HT by reflexivity.
  assert (∀ j, (j ≤ 4)%nat →
            rltb (PAUSE_AT st)
              (Nat.iter (j * Z.to_nat (NUM_STEPS_PER_RENDER st))
                 (λ t, radd t (timeStepSize st)) (time st)) = false) as Hle.
  { intros j Hj. destruct j as [|[|[|[|[|j]]]]]; [vm_compute; reflexivity..|lia]. }
  assert (rltb (PAUSE_AT st)
            (Nat.iter (5 * Z.to_nat (NUM_STEPS_PER_RENDER st))
               (λ t, radd t (timeStepSize st)) (time st)) = true) as Hlt
    by (vm_compute; reflexivity).
  destruct (auto_pause_overshoot idle_solver st 4 0 Hp HT Hle Hlt)
    as (Hrun & _ & Hsteps & Hs).
  split_and!; [exact Hrun|exact Hsteps|exact Hs].
Defined.

(** ** Drag updates for any selection *)

Section Drag.
Context `{RealOps R}.
Variable unproject : Z → Z → Unprojected R.
Implicit Types (st : Demo R) (vel : list (Vector3r R)) (sel : list Z).

(** X11: [mouseMove] pushes a particle once per occurrence of its index in
    the selection.  For a selection inside the velocity array (repeats
    allowed) the update succeeds; velocity [n] becomes the [c]-fold
    iterate of [v + 5*diff/h] for [c] the number of occurrences of [n], so
    unselected velocities are untouched; the anchor moves to the cursor
    position and nothing else changes; and the outcome does not depend on
    the order of the selection, for every implementation of [Real]. *)
Theorem mouseMove_per_occurrence st x y :
  Forall (λ p, 0 ≤ p < Z.of_nat (length (m_v (model st)))) (selectedParticles st) →
  let pos := up_pos (unproject x y) in
  let imp := vdivs (vscale (rlit 5) (vsub pos (oldMousePos st))) (timeStepSize st) in
  let vel' := bumped_each (selectedParticles st) imp (m_v (model st)) in
  mouseMove unproject x y st
  = Some (set_oldMousePos pos (set_model (set_velocities vel' (model st)) st)) ∧
  length vel' = length (m_v (model st)) ∧
  (∀ n v, m_v (model st) !! n = Some v →
     vel' !! n
     = Some (Nat.iter (occurrences (selectedParticles st) n) (λ v, vadd v imp) v)) ∧
  (∀ sel', sel' ≡ₚ selectedParticles st →
     mouseMove unproject x y (set_selectedParticles sel' st)
     = Some (set_selectedParticles sel'
               (set_oldMousePos pos (set_model (set_velocities vel' (model st)) st)))).
Proof.
  intros Hr pos imp vel'. split_and!.
  - rewrite mouseMove_unfold. fold pos. change (impulse st pos) with imp.
    rewrite bump_loop_each by done. done.
  - apply bumped_each_length.
  - intros n v Hv. unfold vel'. by rewrite bumped_each_lookup, Hv.
  - intros sel' Hperm. rewrite mouseMove_unfold.
    change (up_pos (unproject x y)) with pos.
    change (impulse (set_selectedParticles sel' st) pos) with imp.
    change (selectedParticles (set_selectedParticles sel' st)) with sel'.
    change (m_v (model (set_selectedParticles sel' st))) with (m_v (model st)).
    rewrite bump_loop_each by (by rewrite Hperm). csimpl.
    replace (bumped_each sel' imp (m_v (model st))) with vel'; [done|].
    apply list_eq. intros n. unfold vel'. rewrite !bumped_each_lookup.
    by rewrite (occurrences_perm _ _ n Hperm).
Qed.

(** X12: [mouseMove] stays inside the velocity array exactly when every
    selected index is inside it; a single index outside makes the loop
    read out of bounds.  When it succeeds it keeps the number of
    velocities and changes nothing but velocities and anchor; with an empty
    selection it only moves the anchor. *)
Theorem mouseMove_in_bounds_iff st x y :
  (is_Some (mouseMove unproject x y st)
   ↔ Forall (λ p, 0 ≤ p < Z.of_nat (length (m_v (model st)))) (selectedParticles st)) ∧
  (∀ st', mouseMove unproject x y st = Some st' →
     length (m_v (model st')) = length (m_v (model st)) ∧
     m_x (model st') = m_x (model st) ∧ m_x0 (model st') = m_x0 (model st) ∧
     m_boundaryX (model st') = m_boundaryX (model st) ∧
     selectedParticles st' = selectedParticles st ∧
     mouseMoveFunc st' = mouseMoveFunc st ∧
     time st' = time st ∧ timeStepSize st' = timeStepSize st ∧
     PAUSE st' = PAUSE st ∧ calls st' = calls st ∧
     oldMousePos st' = up_pos (unproject x y)) ∧
  (selectedParticles st = [] →
     ∃ st', mouseMove unproject x y st = Some st' ∧
       model st' = model st ∧ oldMousePos st' = up_pos (unproject x y)).
Proof.
  rewrite mouseMove_unfold. split_and!.
  - split.
    + intros [st' Hs].
      destruct (bump_loop _ _ _) as [vel'|] eqn:Hb; [|done].
      by apply bump_loop_Some_inv in Hb as [? _].
    + intros Hr. rewrite bump_loop_each by done. by eexists.
  - intros st' Hs.
    destruct (bump_loop _ _ _) as [vel'|] eqn:Hb; [|done].
    apply bump_loop_Some_inv in Hb as [_ Hl].
    injection Hs as <-. by split_and!.
  - intros ->. eexists. split; [reflexivity|]. split; [|done].
    simpl. by destruct (model st).
Qed.
End Drag.

(** Two particles, the second one selected twice: its velocity gets the
    impulse twice. *)
Lemma mouseMove_per_occurrence_witness :
  let st : Demo Qc := set_selectedParticles [1; 1] two_particles in
  ∃ st', mouseMove flat_unproject 1 0 st = Some st' ∧
    m_v (model st') !! 1%nat
    = Some (Vec3 (Qc_of_Z 4000) (Qc_of_Z 0) (Qc_of_Z 0)).
Proof.
  intros st.
  assert (Forall (λ p, 0 ≤ p < Z.of_nat (length (m_v (model st))))
            (selectedParticles st)) as Hr
    by (repeat constructor; simpl; lia).
  destruct (mouseMove_per_occurrence flat_unproject st 1 0 Hr) as (Hm & _ & Hv & _).
  eexists. split; [exact Hm|].
  etrans; [exact (Hv 1%nat vzero eq_refl)|].
  f_equal. apply Vector3r_ext; apply Qc_is_canon; vm_compute; reflexivity.
Defined.

(** ** Selection *)

Section Selecting.
Context `{RealOps R}.
Variable unproject : Z → Z → Unprojected R.
Variable selectRect : Vector2i → Vector2i → list (Vector3r R) → list Z.
Implicit Types st : Demo R.

(** The state a successful [selection] ends in. *)
Lemma selection_Some_inv (start end_ : Vector2i) st st1 :
  selection unproject selectRect start end_ st = Some st1 →
  let hits := selectRect start end_ (m_x (model st)) in
  st1 = set_oldMousePos (up_pos (unproject (v2x end_) (v2y end_)))
          (setMouseMoveFunc (if 0 <? Z.of_nat (length hits) then 2 else -1)
             (if 0 <? Z.of_nat (length hits) then Some MouseMove else None)
             (set_selectedParticles hits st)).
Proof.
  unfold selection. cbv zeta.
  change (m_x (model (set_selectedParticles [] st))) with (m_x (model st)).
  destruct (read 0 (m_x (model st))); [|done]. csimpl.
  destruct (read _ (m_x (model st))); [|done]. csimpl.
  intros [= <-].
  change (selectedParticles (set_selectedParticles _ (set_selectedParticles [] st)))
    with (selectRect start end_ (m_x (model st))).
  by destruct (0 <? _).
Qed.

Lemma selection_reads st :
  m_x (model st) ≠ [] → Z.of_nat (length (m_x (model st))) < 2 ^ 32 →
  is_Some (read 0 (m_x (model st))) ∧
  is_Some (read (usub (u32 (Z.of_nat (length (m_x (model st))))) 1) (m_x (model st))).
Proof.
  intros Hne Hlen.
  assert (0 < Z.of_nat (length (m_x (model st)))) as Hpos.
  { destruct (m_x (model st)); [done|]. simpl. lia. }
  split.
  - destruct (read_in_range 0 (m_x (model st))) as (v & -> & _); [lia|done].
  - unfold usub. rewrite (u32_small (Z.of_nat _)) by lia. rewrite u32_small by lia.
    destruct (read_in_range (Z.of_nat (length (m_x (model st))) - 1) (m_x (model st)))
      as (v & -> & _); [lia|done].
Qed.

(** X13: [selection] replaces the selection; it never extends the previous
    one.  With an empty particle array the addresses it takes of the first
    and last position are out of bounds.  Otherwise it succeeds: the
    selection is what [selectRect] reports for the current positions, the
    mouse-move handler is registered on button 2 when something was hit and
    removed (button -1) when nothing was, the anchor is the unprojected end
    point, and model, clock, step size, pause flag and call log are
    unchanged.  The outcome does not depend on the previous selection,
    handler or anchor. *)
Theorem selection_outcome (start end_ : Vector2i) st :
  Z.of_nat (length (m_x (model st))) < 2 ^ 32 →
  let hits := selectRect start end_ (m_x (model st)) in
  (m_x (model st) = [] → selection unproject selectRect start end_ st = None) ∧
  (m_x (model st) ≠ [] →
     ∃ st', selection unproject selectRect start end_ st = Some st' ∧
       selectedParticles st' = hits ∧
       mouseMoveFunc st'
       = (if decide (hits = []) then (-1, None) else (2, Some MouseMove)) ∧
       oldMousePos st' = up_pos (unproject (v2x end_) (v2y end_)) ∧
       model st' = model st ∧ time st' = time st ∧
       timeStepSize st' = timeStepSize st ∧ PAUSE st' = PAUSE st ∧
       PAUSE_AT st' = PAUSE_AT st ∧ calls st' = calls st) ∧
  (∀ sel0 a b f,
     selection unproject selectRect start end_
       (set_selectedParticles sel0 (set_oldMousePos a (setMouseMoveFunc b f st)))
     = selection unproject selectRect start end_ st).
Proof.
  intros Hlen hits. split_and!.
  - intros He. unfold selection. cbv zeta.
    change (m_x (model (set_selectedParticles [] st))) with (m_x (model st)).
    by rewrite He.
  - intros Hne.
    destruct (selection_reads st Hne Hlen) as [[v0 H0] [v1 H1]].
    assert (is_Some (selection unproject selectRect start end_ st)) as [st' Hs].
    { unfold selection. cbv zeta.
      change (m_x (model (set_selectedParticles [] st))) with (m_x (model st)).
      rewrite H0. csimpl. rewrite H1. csimpl. done. }
    exists st'. split; [done|].
    rewrite (selection_Some_inv start end_ st st' Hs). fold hits.
    split_and!; try done.
    destruct hits; done.
  - intros sel0 a b f. unfold selection. cbv zeta.
    change (m_x (model (set_selectedParticles [] (set_selectedParticles sel0
              (set_oldMousePos a (setMouseMoveFunc b f st))))))
      with (m_x (model st)).
    change (m_x (model (set_selectedParticles [] st))) with (m_x (model st)).
    destruct (read 0 (m_x (model st))); [|done]. csimpl.
    destruct (read _ (m_x (model st))); [|done]. csimpl.
    change (selectedParticles (set_selectedParticles (selectRect start end_ (m_x (model st))) _))
      with (selectRect start end_ (m_x (model st))).
    by destruct (0 <? _).
Qed.
End Selecting.

(** Two particles, a picker that hits both of them. *)
Lemma selection_outcome_witness :
  ∃ st' : Demo Qc,
    selection flat_unproject pick_all (Vec2 0 0) (Vec2 3 4) two_particles = Some st' ∧
    selectedParticles st' = [0; 1] ∧
    mouseMoveFunc st' = (2, Some MouseMove).
Proof.
  assert (Z.of_nat (length (m_x (model (two_particles (R:=Qc))))) < 2 ^ 32) as Hlen
    by (simpl; lia).
  assert (m_x (model (two_particles (R:=Qc))) ≠ []) as Hne by discriminate.
  destruct (selection_outcome flat_unproject pick_all (Vec2 0 0) (Vec2 3 4)
              two_particles Hlen) as (_ & Hs & _).
  destruct (Hs Hne) as (st' & Hsel & Hhits & Hf & _).
  exists st'. split_and!; [exact Hsel|exact Hhits|exact Hf].
Defined.

(** ** The colour intensity of [render] *)

Section Shade.
Local Open Scope Qc_scope.
Implicit Types speed sr h : Qc.

Lemma Qc_rmin_cases (a b : Qc) :
  (a ≤ b ∧ rmin a b = a) ∨ (b < a ∧ rmin a b = b).
Proof.
  unfold rmin. destruct (rltb b a) eqn:E.
  - right. split; [by apply Qc_rltb_true|done].
  - left. split; [|done]. apply Qcnot_lt_le. intros Hlt.
    apply Qc_rltb_true in Hlt. congruence.
Qed.

Lemma Qc_rmin_mono (a a' b : Qc) : a ≤ a' → rmin a b ≤ rmin a' b.
Proof.
  intros Hle.
  destruct (Qc_rmin_cases a b) as [[H1 ->]|[H1 ->]],
    (Qc_rmin_cases a' b) as [[H2 ->]|[H2 ->]].
  - done.
  - done.
  - eapply Qcle_trans; [apply Qclt_le_weak, H1|done].
  - apply Qcle_refl.
Qed.

(** The largest speed the colour scale distinguishes is an eighth of
    [vmax = 0.8 * supportRadius / h]. *)
Lemma Qc_vmax_pos sr h : 0 < sr → 0 < h → 0 < rlit (8 # 10) * sr / h.
Proof.
  intros Hsr Hh. unfold Qcdiv.
  apply Qcmult_pos_pos; [apply Qcmult_pos_pos; [reflexivity|done]|].
  by apply Qcinv_pos.
Qed.

(** The intensity before the cut-off, in terms of [t = 8 * speed / vmax]. *)
Lemma Qc_shade_unfold speed sr h :
  shade speed sr h
  = rmin (rlit (1 # 2) * (rlit 8 * (speed / (rlit (8 # 10) * sr / h))
                         * (rlit 8 * (speed / (rlit (8 # 10) * sr / h)))))
         (rlit (1 # 2)).
Proof.
  unfold shade. cbv zeta. f_equal.
  cbn [rmul rdiv rsub Qc_RealOps].
  set (vmax := rlit (8 # 10) * sr / h).
  replace (speed - rlit 0) with speed by (change (rlit 0) with (Q2Qc 0); ring).
  replace (vmax - rlit 0) with vmax by (change (rlit 0) with (Q2Qc 0); ring).
  set (u := speed / vmax).
  assert (rlit (1 # 2) * rlit 8 * rlit 8 = rlit (1 # 2) * rlit (1 # 2) * rlit 128 :> Qc)
    as Hd by (apply Qc_is_canon; vm_compute; reflexivity).
  transitivity (rlit (1 # 2) * rlit (1 # 2) * rlit 128 * (u * u)); [ring|].
  rewrite <- Hd. ring.
Qed.

Lemma Qc_square_le (a b : Qc) : 0 ≤ a → a ≤ b → a * a ≤ b * b.
Proof.
  intros Ha Hab.
  eapply Qcle_trans; [apply (Qcmult_le_mono_nonneg_l a b a Ha Hab)|].
  apply Qcmult_le_mono_nonneg_r; [|done]. by eapply Qcle_trans.
Qed.
End Shade.

(** The intensity in exact arithmetic, for a positive support radius and
    step size and a non-negative speed: with [vmax = 0.8 * supportRadius / h]
    it is exactly 0.5 as soon as the speed reaches [vmax / 8], below that it
    is [32 * (speed / vmax)^2], which is less than 0.5, and it never
    decreases when the speed grows. *)
Lemma Qc_shade_saturates (speed sr h : Qc) :
  (0 < sr)%Qc → (0 < h)%Qc → (0 ≤ speed)%Qc →
  let vmax := (rlit (8 # 10) * sr / h)%Qc in
  let s := shade speed sr h in
  (0 ≤ s ≤ rlit (1 # 2))%Qc ∧
  (vmax ≤ rlit 8 * speed → s = rlit (1 # 2))%Qc ∧
  (rlit 8 * speed < vmax →
     s = rlit 32 * (speed / vmax) * (speed / vmax) ∧ s < rlit (1 # 2))%Qc ∧
  (∀ speed', speed ≤ speed' → s ≤ shade speed' sr h)%Qc.
Proof.
  intros Hsr Hh Hsp vmax s.
  pose proof (Qc_vmax_pos sr h Hsr Hh) as Hvmax. fold vmax in Hvmax.
  pose proof (Qcinv_pos vmax Hvmax) as Hiv.
  assert (vmax ≠ 0)%Qc as Hne by (intros He; rewrite He in Hvmax; by apply Qclt_not_le in Hvmax).
  assert (0 < rlit 8)%Qc as H8 by reflexivity.
  assert (0 < rlit (1 # 2))%Qc as Hhalf by reflexivity.
  set (t := (rlit 8 * (speed / vmax))%Qc).
  assert (0 ≤ t)%Qc as Ht.
  { apply Qcmult_nonneg_nonneg; [by apply Qclt_le_weak|].
    unfold Qcdiv. apply Qcmult_nonneg_nonneg; [done|by apply Qclt_le_weak]. }
  assert (s = rmin (rlit (1 # 2) * (t * t)) (rlit (1 # 2)))%Qc as Hs
    by apply Qc_shade_unfold.
  assert (rlit 8 * speed = t * vmax)%Qc as Htv.
  { unfold t, Qcdiv. rewrite <- !Qcmult_assoc, (Qcmult_inv_l vmax Hne). ring. }
  assert (0 ≤ rlit (1 # 2) * (t * t))%Qc as Hw.
  { apply Qcmult_nonneg_nonneg; [by apply Qclt_le_weak|].
    by apply Qcmult_nonneg_nonneg. }
  split; [|split; [|split]].
  - rewrite Hs. destruct (Qc_rmin_cases (rlit (1 # 2) * (t * t)) (rlit (1 # 2)))%Qc
      as [[H1 ->]|[H1 ->]]; [done|].
    split; [by apply Qclt_le_weak|apply Qcle_refl].
  - intros Hge. rewrite Htv in Hge.
    assert (1 ≤ t)%Qc as H1t.
    { apply (Qcmult_lt_0_le_reg_r _ _ vmax Hvmax). by rewrite Qcmult_1_l. }
    rewrite Hs. destruct (Qc_rmin_cases (rlit (1 # 2) * (t * t)) (rlit (1 # 2)))%Qc
      as [[H1 ->]|[H1 ->]]; [|done].
    apply Qcle_antisym; [done|].
    replace (rlit (1 # 2) : Qc) with (rlit (1 # 2) * (1 * 1))%Qc at 1 by ring.
    apply Qcmult_le_mono_nonneg_l; [by apply Qclt_le_weak|].
    apply Qc_square_le; [done|done].
  - intros Hlt. rewrite Htv in Hlt.
    assert (t < 1)%Qc as Ht1.
    { apply (Qcmult_lt_mono_pos_r _ _ vmax Hvmax). by rewrite Qcmult_1_l. }
    assert (rlit (1 # 2) * (t * t) < rlit (1 # 2))%Qc as Hwlt.
    { pose proof (Qcmult_le_mono_nonneg_l t 1 t Ht (Qclt_le_weak _ _ Ht1)) as Htt.
      rewrite Qcmult_1_r in Htt.
      pose proof (proj1 (Qcmult_lt_mono_pos_l (t * t) 1 (rlit (1 # 2)) Hhalf)
                    (Qcle_lt_trans _ _ _ Htt Ht1)) as Hm.
      by rewrite Qcmult_1_r in Hm. }
    rewrite Hs. destruct (Qc_rmin_cases (rlit (1 # 2) * (t * t)) (rlit (1 # 2)))%Qc
      as [[H1 ->]|[H1 ->]].
    + split; [|done]. unfold t.
      assert (rlit (1 # 2) * rlit 8 * rlit 8 = rlit 32 :> Qc)%Qc as Hd
        by (apply Qc_is_canon; vm_compute; reflexivity).
      rewrite <- Hd. ring.
    + destruct (Qclt_not_le _ _ Hwlt (Qclt_le_weak _ _ H1)).
  - intros speed' Hle. unfold s. rewrite !Qc_shade_unfold. fold vmax.
    apply Qc_rmin_mono.
    apply Qcmult_le_mono_nonneg_l; [by apply Qclt_le_weak|].
    apply Qc_square_le; [done|].
    apply Qcmult_le_mono_nonneg_l; [by apply Qclt_le_weak|].
    unfold Qcdiv. apply Qcmult_le_mono_nonneg_r; [by apply Qclt_le_weak|done].
Qed.

(** *** The intensity in binary64 *)

Lemma binary_round_aux_sign prec emax s m e l :
  sf_sign_is s (binary_round_aux prec emax s m e l).
Proof.
  unfold binary_round_aux.
  destruct (shr_fexp prec emax m e l) as [mrs1 e1].
  destruct (shr_fexp prec emax _ e1 loc_Exact) as [mrs2 e2].
  destruct (shr_m mrs2); simpl; [done| |done].
  by destruct (_ <=? _).
Qed.

(** The sign of a product is the exclusive or of the signs. *)
Lemma SFmul_sign prec emax sx sy x y :
  sf_sign_is sx x → sf_sign_is sy y → sf_sign_is (xorb sx sy) (SFmul prec emax x y).
Proof.
  destruct x, y; simpl; try done; try (by intros -> ->).
  intros -> ->. apply binary_round_aux_sign.
Qed.

Lemma sf_sign_exists f : ∃ s, sf_sign_is s f.
Proof.
  destruct f as [s|s| |s m e]; [by exists s|by exists s|by exists false|by exists s].
Qed.

Lemma SFltb_nonneg f : sf_sign_is false f → SFltb f (S754_zero false) = false.
Proof. destruct f as [s|s| |s m e]; simpl; try done; by intros ->. Qed.

(** [c * x * x] with a non-negative [c] never compares below zero. *)
Lemma binary64_square_nonneg (c x : float) :
  sf_sign_is false (Prim2SF c) →
  PrimFloat.ltb (PrimFloat.mul (PrimFloat.mul c x) x) (rlit 0) = false.
Proof.
  intros Hc. rewrite FloatAxioms.ltb_spec, !FloatAxioms.mul_spec.
  destruct (sf_sign_exists (Prim2SF x)) as [s Hs].
  change (Prim2SF (rlit 0)) with (S754_zero false).
  apply SFltb_nonneg.
  replace false with (xorb (xorb false s) s) by (by destruct s).
  apply SFmul_sign; [|done]. by apply SFmul_sign.
Qed.

(** X15: the colour intensity [render] computes from a particle's speed is
    [128*v*v] cut off at 0.5, where [v = 0.5*(speed/vmax)] and
    [vmax = 0.8 * supportRadius / h]: it is 0.5 as soon as the computed
    [128*v*v] exceeds 0.5, for every implementation of [Real].  In binary64
    it never compares below 0 or above 0.5, whatever the inputs, so the
    value handed to [hsvToRgb] is in [0.5, 1] unless it is NaN, which
    happens, for instance, at speed 0 when [vmax] underflows to 0.  In
    exact arithmetic, for positive support radius and step size and
    non-negative speed, it is 0.5 exactly from speed [vmax/8] on, is
    [32 * (speed/vmax)^2 < 0.5] below that, and never decreases when the
    speed grows. *)
Theorem shade_saturates :
  (∀ speed sr h : float,
     rltb (shade speed sr h) (rlit 0) = false ∧
     rltb (rlit (1 # 2)) (shade speed sr h) = false) ∧
  (∃ sr h : float,
     rltb (rlit 0) sr = true ∧ rltb (rlit 0) h = true ∧
     PrimFloat.is_nan (shade (rlit 0) sr h) = true) ∧
  (∀ (R : Type) (RO : RealOps R) (speed sr h : R),
     let vmax := rdiv (rmul (rlit (8 # 10)) sr) h in
     let v := rmul (rlit (1 # 2))
                (rdiv (rsub speed (rlit 0)) (rsub vmax (rlit 0))) in
     let w := rmul (rmul (rlit 128) v) v in
     shade speed sr h = if rltb (rlit (1 # 2)) w then rlit (1 # 2) else w) ∧
  (∀ speed sr h : Qc,
     (0 < sr)%Qc → (0 < h)%Qc → (0 ≤ speed)%Qc →
     let vmax := (rlit (8 # 10) * sr / h)%Qc in
     let s := shade speed sr h in
     (0 ≤ s ≤ rlit (1 # 2))%Qc ∧
     (vmax ≤ rlit 8 * speed → s = rlit (1 # 2))%Qc ∧
     (rlit 8 * speed < vmax →
        s = rlit 32 * (speed / vmax) * (speed / vmax) ∧ s < rlit (1 # 2))%Qc ∧
     (∀ speed', speed ≤ speed' → s ≤ shade speed' sr h)%Qc).
Proof.
  split_and!.
  - intros speed sr h. unfold shade, rmin. cbv zeta.
    set (v := rmul (rlit (1 # 2)) _).
    destruct (rltb (rlit (1 # 2)) (rmul (rmul (rlit 128) v) v)) eqn:E.
    + split; reflexivity.
    + split; [|exact E]. apply binary64_square_nonneg. reflexivity.
  - exists (SF2Prim (S754_finite false 1 (-1074))), (rlit 4).
    split_and!; vm_compute; reflexivity.
  - intros R RO speed sr h. reflexivity.
  - exact Qc_shade_saturates.
Qed.

(** Support radius 0.1 and step size 0.0025 at speed 1, in binary64: the
    intensity is 0.031249999999999986, between 0 and 0.5. *)
Lemma shade_saturates_witness :
  let s := shade (R:=float) (rlit 1) (rlit (1 # 10)) (rlit (25 # 10000)) in
  rltb s (rlit 0) = false ∧ rltb (rlit (1 # 2)) s = false ∧
  Prim2SF s = S754_finite false 9007199254740988 (-58).
Proof.
  intros s.
  destruct (proj1 shade_saturates (rlit 1) (rlit (1 # 10)) (rlit (25 # 10000)))
    as [H0 H1].
  split_and!; [exact H0|exact H1|vm_compute; reflexivity].
Defined.

(** ** The draw calls of [render] *)

(** A loop that appends one element per index collects [mapM]. *)
Lemma for_each_collect {B} (f : Z → option B)
    (body : Z → list B → option (list B)) (ixs : list Z) (out : list B) :
  (∀ i out, body i out = (x ← f i; Some (out ++ [x]))) →
  for_each ixs body out = (xs ← mapM f ixs; Some (out ++ xs)).
Proof.
  intros Hb. revert out. induction ixs as [|i ixs IH]; intros out; csimpl.
  - by rewrite app_nil_r.
  - rewrite Hb. destruct (f i) as [x|]; csimpl; [|done].
    rewrite IH. destruct (mapM f ixs) as [xs|]; csimpl; [|done].
    by rewrite <- app_assoc.
Qed.

Section RenderFacts.
Context `{RealOps R}.
Variable norm : Vector3r R → R.
Variable getSupportRadius : FluidModel R → R.
Implicit Types st : Demo R.

Lemma render_collect st :
  render norm getSupportRadius st
  = (d1 ← mapM (fluid_draw norm getSupportRadius st)
             (seqZ 0 (u32 (Z.of_nat (length (m_x (model st))))));
     d2 ← mapM (highlight_draw st) (selectedParticles st);
     Some (d1 ++ d2)).
Proof.
  unfold render, for_. cbv zeta.
  rewrite (for_each_collect (fluid_draw norm getSupportRadius st)).
  - destruct (mapM (fluid_draw norm getSupportRadius st) _) as [d1|]; csimpl; [|done].
    apply (for_each_collect (highlight_draw st)).
    intros p out. unfold highlight_draw. by destruct (read p _).
  - intros i out. unfold fluid_draw.
    destruct (read i (m_v _)); csimpl; [|done]. by destruct (read i (m_x _)).
Qed.

Lemma fluid_draw_total st :
  Z.of_nat (length (m_x (model st))) < 2 ^ 32 →
  length (m_v (model st)) = length (m_x (model st)) →
  is_Some (mapM (fluid_draw norm getSupportRadius st)
             (seqZ 0 (u32 (Z.of_nat (length (m_x (model st))))))).
Proof.
  intros Hlen Hv. apply mapM_is_Some, list.Forall_forall. intros i Hi.
  apply elem_of_seqZ in Hi. rewrite u32_small in Hi by lia.
  unfold compose, fluid_draw.
  destruct (read_in_range i (m_v (model st))) as (vel & -> & _); [lia|].
  destruct (read_in_range i (m_x (model st))) as (pos & -> & _); [lia|].
  done.
Qed.

Lemma highlight_draw_is_Some st p :
  is_Some (highlight_draw st p) ↔ 0 ≤ p < Z.of_nat (length (m_x (model st))).
Proof.
  unfold highlight_draw. split.
  - intros [d Hd]. destruct (read p _) as [pos|] eqn:Hrd; [|done].
    by eapply read_Some_range.
  - intros Hp. destruct (read_in_range p (m_x (model st)) Hp) as (pos & -> & _). done.
Qed.

(** X16: [render] draws one sphere per particle, in index order, and then
    one highlight per entry of the selection, in selection order.  With as
    many velocities as positions (fewer than 2^32) it stays inside its
    arrays exactly when every selected index is a particle index.  Then
    draw [i] is the sphere of particle [i], at its position with radius
    0.025 and the intensity of its speed, and draw [n + j] is the red
    sphere of radius 0.08 at the position of the [j]-th selected
    particle. *)
Theorem render_draws st :
  Z.of_nat (length (m_x (model st))) < 2 ^ 32 →
  length (m_v (model st)) = length (m_x (model st)) →
  let n := length (m_x (model st)) in
  (is_Some (render norm getSupportRadius st)
   ↔ Forall (λ p, 0 ≤ p < Z.of_nat n) (selectedParticles st)) ∧
  (∀ draws, render norm getSupportRadius st = Some draws →
     length draws = (n + length (selectedParticles st))%nat ∧
     (∀ i pos vel,
        m_x (model st) !! i = Some pos → m_v (model st) !! i = Some vel →
        draws !! i
        = Some (mkDraw pos particleRadius
                  (FluidShade (shade (norm vel) (getSupportRadius (model st))
                                 (timeStepSize st))))) ∧
     (∀ j p, selectedParticles st !! j = Some p →
        ∃ pos, m_x (model st) !! Z.to_nat p = Some pos ∧
          draws !! (n + j)%nat = Some (mkDraw pos (rlit (8 # 100)) Red))).
Proof.
  intros Hlen Hv n. rewrite render_collect.
  destruct (fluid_draw_total st Hlen Hv) as [d1 Hd1]. rewrite Hd1. csimpl.
  pose proof Hd1 as HF1. apply mapM_Some in HF1.
  assert (length d1 = n) as Hn1.
  { apply Forall2_length in HF1. rewrite <- HF1, length_seqZ, u32_small by lia.
    unfold n. lia. }
  split.
  - split.
    + intros [draws Hs].
      destruct (mapM (highlight_draw st) _) as [d2|] eqn:Hd2; [|done].
      assert (is_Some (mapM (highlight_draw st) (selectedParticles st))) as Hi
        by (eexists; exact Hd2).
      apply mapM_is_Some in Hi.
      eapply list.Forall_impl; [exact Hi|]. intros p Hp. by apply highlight_draw_is_Some.
    + intros Hr.
      assert (is_Some (mapM (highlight_draw st) (selectedParticles st))) as [d2 Hd2].
      { apply mapM_is_Some. eapply list.Forall_impl; [exact Hr|].
        intros p Hp. by apply highlight_draw_is_Some. }
      destruct (mapM (highlight_draw st) _) as [d2'|] eqn:Hd2'; [done|].
      discriminate Hd2.
  - intros draws Hs.
    destruct (mapM (highlight_draw st) _) as [d2|] eqn:Hd2; [|done].
    injection Hs as <-. apply mapM_Some in Hd2.
    split_and!.
    + apply Forall2_length in Hd2. by rewrite length_app, Hn1, Hd2.
    + intros i pos vel Hpos Hvel.
      assert (i < n)%nat as Hi by (by eapply lookup_lt_Some).
      rewrite lookup_app_l by lia.
      destruct (Forall2_lookup_l _ _ _ i (Z.of_nat i) HF1) as (d & Hd & Hfd).
      { rewrite lookup_seqZ, u32_small by lia. split; [f_equal|]; lia. }
      rewrite Hd. rewrite <- Hfd. unfold fluid_draw, read.
      destruct (0 <=? Z.of_nat i) eqn:E; [|lia].
      rewrite Nat2Z.id, Hvel, Hpos. done.
    + intros j p Hj.
      destruct (Forall2_lookup_l _ _ _ j p Hd2 Hj) as (d & Hd & Hfd).
      unfold highlight_draw in Hfd.
      destruct (read p (m_x (model st))) as [pos|] eqn:Hrd; [|done].
      exists pos. split.
      * unfold read in Hrd. by destruct (0 <=? p).
      * rewrite lookup_app_r by lia. rewrite Hn1.
        replace (n + j - n)%nat with j by lia. rewrite Hd.
        by injection Hfd as <-.
Qed.
End RenderFacts.

(** Two particles with the second one selected: three draw calls. *)
Lemma render_draws_witness :
  ∃ draws : list (DrawSphere Qc),
    render (λ v, vx v) (λ m, rmul (rlit 4) (m_particleRadius m)) two_particles
    = Some draws ∧
    length draws = 3%nat.
Proof.
  assert (Z.of_nat (length (m_x (model (two_particles (R:=Qc))))) < 2 ^ 32) as Hlen
    by (simpl; lia).
  assert (length (m_v (model (two_particles (R:=Qc))))
          = length (m_x (model (two_particles (R:=Qc))))) as Hv by reflexivity.
  destruct (render_draws (λ v, vx v) (λ m, rmul (rlit 4) (m_particleRadius m))
              two_particles Hlen Hv) as [Hiff Hd].
  assert (Forall (λ p, 0 ≤ p < Z.of_nat (length (m_x (model (two_particles (R:=Qc))))))
            (selectedParticles (two_particles (R:=Qc)))) as Hr
    by (repeat constructor; simpl; lia).
  destruct (proj2 Hiff Hr) as [draws Hs].
  exists draws. split; [exact Hs|].
  exact (proj1 (Hd draws Hs)).
Defined.

(** ** The layout of the boundary array *)

Lemma nest_writes_values {A} n1 n2 n3 idx (val : Z → Z → Z → A) :
  (nest_writes n1 n2 n3 idx val).*2
  = (i ← seqZ 0 n1; j ← seqZ 0 n2; k ← seqZ 0 n3; [val i j k]).
Proof.
  unfold nest_writes.
  rewrite fmap_list_bind. apply list_bind_ext_in. intros i _.
  rewrite fmap_list_bind. apply list_bind_ext_in. intros j _.
  rewrite fmap_list_bind. apply list_bind_ext_in. intros k _. done.
Qed.

Section BoundaryLayout.
Context `{RealOps R}.
Variable fill : Vector3r R.
Implicit Types (m : FluidModel R) (bp : list (Vector3r R)).

(** Successive [addWall] calls append their walls one after the other. *)
Lemma addWalls_layout m ws steps bp :
  Forall2 (λ w s, wall_steps m w.1 w.2 = Some s) ws steps →
  Forall (λ s, s.1.1 < 2 ^ 31) steps →
  Z.of_nat (length bp) + total_points steps < 2 ^ 32 →
  foldl (λ acc w, bp ← acc; addWall fill m w.1 w.2 bp) (Some bp) ws
  = Some (bp ++ concat (zip_with (λ w s, wall_points m w.1 s) ws steps)).
Proof.
  intros HF. revert bp.
  induction HF as [|w [[sx sy] sz] ws steps Hs HF IH]; intros bp Hsm Hfit; simpl in *.
  - by rewrite app_nil_r.
  - apply list.Forall_cons in Hsm as [Hsx Hsm]. simpl in Hsx.
    pose proof (total_points_nonneg _ _ _ HF) as Hnn.
    unfold steps_product in Hfit. simpl in Hfit.
    destruct (addWall_block fill m w.1 w.2 bp sx sy sz Hs)
      as (new1 & written & Ha & Hl & _ & _ & Hnew); [lia|].
    destruct (Hnew Hsx) as [Hwr Hn1]. rewrite nest_writes_values in Hn1.
    rewrite Ha. rewrite IH; [|done|rewrite length_app; lia].
    rewrite <- app_assoc. do 3 f_equal. exact Hn1.
Qed.

Lemma initBoundaryData_layout m :
  map (λ w, wall_steps m w.1 w.2) walls = map Some scenario_steps →
  initBoundaryData fill m []
  = Some (concat (zip_with (λ w s, wall_points m w.1 s) walls scenario_steps)).
Proof.
  intros Hsteps. pose proof (scenario_steps_Forall2 m Hsteps) as HF.
  unfold initBoundaryData.
  rewrite (addWalls_layout m walls scenario_steps [] HF); [done| |done].
  repeat constructor.
Qed.

Lemma wall_points_length m minX s :
  length (wall_points m minX s)
  = (Z.to_nat s.1.1 * (Z.to_nat s.1.2 * Z.to_nat s.2))%nat.
Proof.
  unfold wall_points.
  rewrite (length_bind_const _ (Z.to_nat s.1.2 * Z.to_nat s.2)), length_seqZ; [done|].
  intros i. rewrite (length_bind_const _ (Z.to_nat s.2)), length_seqZ; [done|].
  intros j. rewrite (length_bind_const _ 1%nat), length_seqZ; [lia|done].
Qed.

(** A wall with at least one layer on each axis starts at its corner. *)
Lemma wall_points_first m minX s :
  0 < s.1.1 → 0 < s.1.2 → 0 < s.2 →
  wall_points m minX s !! 0%nat
  = Some (wall_position minX (rmul (rlit 2) (getParticleRadius m)) 0 0 0).
Proof.
  intros H1 H2 H3. unfold wall_points.
  rewrite (seqZ_cons 0 s.1.1), (seqZ_cons 0 s.1.2), (seqZ_cons 0 s.2) by done.
  reflexivity.
Qed.

Lemma lookup_app_skip {A} (a l : list A) (k n : nat) x :
  length a = k → l !! n = Some x → (a ++ l) !! (k + n)%nat = Some x.
Proof. intros <- Hl. by rewrite lookup_app_r, Nat.add_comm, Nat.add_sub by lia. Qed.

(** The corner shared by floor, left wall and back wall is stored once for
    each of them. *)
Lemma boundary_corner_copies m :
  let bp := concat (zip_with (λ w s, wall_points m w.1 s) walls scenario_steps) in
  let corner := wall_position (Vec3 wall_x1 wall_y1 wall_z1)
                  (rmul (rlit 2) (getParticleRadius m)) 0 0 0 in
  bp !! 0%nat = Some corner ∧ bp !! 2754%nat = Some corner ∧
  bp !! Z.to_nat 5508 = Some corner.
Proof.
  intros bp corner. unfold bp, walls, scenario_steps. cbv zeta.
  cbn [zip_with concat fst snd]. split_and!.
  - apply lookup_app_l_Some, wall_points_first; simpl; lia.
  - change 2754%nat with (1377 + (1377 + 0))%nat.
    do 2 (apply lookup_app_skip; [by rewrite wall_points_length|]).
    apply lookup_app_l_Some, wall_points_first; simpl; lia.
  - change (Z.to_nat 5508) with (1377 + (1377 + (1377 + (1377 + 0))))%nat.
    do 4 (apply lookup_app_skip; [by rewrite wall_points_length|]).
    apply lookup_app_l_Some, wall_points_first; simpl; lia.
Qed.
End BoundaryLayout.

(** X6: [initBoundaryData] stores the six walls one after the other, in
    call order floor, top, left, right, back, front, each in the order of
    its loop nest, and never merges particles that walls share.  In the
    built scenario the corner particle of the floor (index 0) is stored
    again as the first particle of the left wall (index 2754) and of the
    back wall (index 5508), so the 18630 boundary particles contain
    repeated positions; in exact arithmetic and in binary64 alike. *)
Theorem boundary_walls_overlap :
  (∀ (fill : Vector3r Qc) (m : FluidModel Qc),
     let m' := setParticleRadius particleRadius m in
     let bp := concat (zip_with (λ w s, wall_points m' w.1 s) walls scenario_steps) in
     initBoundaryData fill m' [] = Some bp ∧
     is_Some (bp !! 0%nat) ∧
     bp !! 2754%nat = bp !! 0%nat ∧ bp !! Z.to_nat 5508 = bp !! 0%nat ∧
     ¬ NoDup bp) ∧
  (∀ (fill : Vector3r float) (m : FluidModel float),
     let m' := setParticleRadius particleRadius m in
     let bp := concat (zip_with (λ w s, wall_points m' w.1 s) walls scenario_steps) in
     initBoundaryData fill m' [] = Some bp ∧
     is_Some (bp !! 0%nat) ∧
     bp !! 2754%nat = bp !! 0%nat ∧ bp !! Z.to_nat 5508 = bp !! 0%nat ∧
     ¬ NoDup bp).
Proof.
  split; intros fill m m' bp.
  - destruct (boundary_corner_copies m') as (H0 & H1 & H2). fold bp in H0, H1, H2.
    split_and!.
    + exact (initBoundaryData_layout fill m' (Qc_scenario_steps m)).
    + by rewrite H0.
    + by rewrite H0, H1.
    + by rewrite H0, H2.
    + intros Hnd. by pose proof (NoDup_lookup _ _ _ _ Hnd H1 H0).
  - destruct (boundary_corner_copies m') as (H0 & H1 & H2). fold bp in H0, H1, H2.
    split_and!.
    + exact (initBoundaryData_layout fill m' (binary64_scenario_steps m)).
    + by rewrite H0.
    + by rewrite H0, H1.
    + by rewrite H0, H2.
    + intros Hnd. by pose proof (NoDup_lookup _ _ _ _ Hnd H1 H0).
Qed.
